(** * cyarg: a shallow embedding of the argument-processing engine

    The development follows [cyarg.py]: the synonym-aware dictionary
    [SynoDict], the token cursor [MarkedList], the two schema set-up
    functions and the stateful [ArgLoader].  Python objects that end up as
    dictionary keys are [key]s, dictionaries are [gmap]s, exceptions are the
    [Raise] branch of [result].

    The module is Python 2 code ([__nonzero__], [super(self.__class__, self)]):
    the truth value of a [MarkedList] is what its [__nonzero__] returns, and
    [copy.copy] of the [super] proxy rebuilds the dictionary item by item.
    The order in which a [dict] is iterated is left to the interpreter; it is
    a parameter of [to_dict], [load_all] and [process], and what is proved
    of a parse holds for every order. *)

From Stdlib Require Import ZArith Ascii DecimalString.
From stdpp Require Import gmap strings list.

(** ** Python objects *)

(** An [int] or [str] object: the keys of both dictionaries, and the [name]
    handed to the message formatters. *)
Inductive key : Type :=
  | KInt (z : Z)
  | KStr (s : string).

#[global] Instance key_eq_dec : EqDecision key.
Proof. solve_decision. Defined.

Definition key_to_sum (k : key) : Z + string :=
  match k with KInt z => inl z | KStr s => inr s end.

Definition key_of_sum (x : Z + string) : key :=
  match x with inl z => KInt z | inr s => KStr s end.

#[global] Instance key_countable : Countable key :=
  inj_countable' key_to_sum key_of_sum
    (fun k => match k with KInt _ => eq_refl | KStr _ => eq_refl end).

(** The values stored in the output dictionary: [True]/[False], the raw
    strings, and what converters and defaults produce. *)
Inductive value : Type :=
  | VBool (b : bool)
  | VStr (s : string)
  | VInt (z : Z).

(** The exceptions the module can raise, explicitly or through an indexing or
    [len] operation. *)
Inductive exn : Type :=
  | RuntimeError (msg : string)
  | KeyError (k : key)
  | IndexError
  | TypeError.

Inductive result (A : Type) : Type :=
  | Ok (a : A)
  | Raise (e : exn).
Arguments Ok {A} a.
Arguments Raise {A} e.

#[global] Instance result_ret : MRet result := fun A a => Ok a.

#[global] Instance result_bind : MBind result := fun A B f r =>
  match r with
  | Ok a => f a
  | Raise e => Raise e
  end.

(** ** Strings *)

(** [s[i:]] *)
Fixpoint str_from (i : nat) (s : string) : string :=
  match i, s with
  | O, _ => s
  | S i', String _ s' => str_from i' s'
  | S _, EmptyString => EmptyString
  end.

(** [s[i]]: a one-character string, or [IndexError]. *)
Definition str_index (s : string) (i : nat) : result string :=
  match String.get i s with
  | Some c => Ok (String c EmptyString)
  | None => Raise IndexError
  end.

(** [str(z)] for an [int]. *)
Definition str_of_int (z : Z) : string :=
  NilZero.string_of_int (Z.to_int z).

(** ['{0}'.format(k)] *)
Definition format_key (k : key) : string :=
  match k with
  | KInt z => str_of_int z
  | KStr s => s
  end.

(** [lst.insert(i, x)]: before index [i], at the end when [i] is past it. *)
Definition list_insert_at {A : Type} (i : nat) (x : A) (l : list A) : list A :=
  take i l ++ x :: drop i l.

(** ** SynoDict *)

Module SynoDict.

Record t (A : Type) : Type := Build {
  items : gmap key A;
  syns : list (list key)
}.
Arguments Build {A} items syns.
Arguments items {A} _.
Arguments syns {A} _.

Section Ops.
Context {A : Type}.

(** [__init__] *)
Definition init : t A := Build ∅ [].

(** [register] *)
Definition register (self : t A) (synlist : list key) : t A :=
  Build (items self) (syns self ++ [synlist]).

(** The loop of [__getsyns]: [syns += synlist] for every registered list that
    holds [k]. *)
Fixpoint getsyns_loop (k : key) (registered : list (list key))
    (acc : list key) : list key :=
  match registered with
  | [] => acc
  | synlist :: rest =>
      getsyns_loop k rest
        (if bool_decide (k ∈ synlist) then acc ++ synlist else acc)
  end.

(** [__getsyns] *)
Definition getsyns (self : t A) (k : key) : list key :=
  getsyns_loop k (syns self) [k].

(** [__setitem__] *)
Definition setitem (self : t A) (k : key) (v : A) : t A :=
  Build (foldl (fun m k' => <[k' := v]> m) (items self) (getsyns self k))
        (syns self).

(** The loop of [__delitem__]; [dict.__delitem__] raises [KeyError] on a key
    that is not there, and the dictionary keeps the deletions done so far. *)
Fixpoint delitem_loop (m : gmap key A) (to_del : list key)
    : gmap key A * option exn :=
  match to_del with
  | [] => (m, None)
  | k :: rest =>
      match m !! k with
      | Some _ => delitem_loop (delete k m) rest
      | None => (m, Some (KeyError k))
      end
  end.

(** [__delitem__]: the dictionary afterwards, and the exception raised, if
    any. *)
Definition delitem (self : t A) (k : key) : t A * option exn :=
  let '(m, e) := delitem_loop (items self) (getsyns self k) in
  (Build m (syns self), e).

(** [__getitem__] is the one of [dict]. *)
Definition getitem (self : t A) (k : key) : result A :=
  match items self !! k with
  | Some v => Ok v
  | None => Raise (KeyError k)
  end.

(** The order in which a [dict] yields its items is the interpreter's: it
    follows the hash table and the history of the insertions, not the keys.
    [order] stands for it: [iteritems order m] lists the items of [m], those
    whose keys [order] names first and in that order, the others after them.
    It is a rearrangement of the items whatever [order] is, and every
    rearrangement is the one of some [order]. *)
Definition iteritems (order : list key) (m : gmap key A) : list (key * A) :=
  omap (fun k => pair k <$> m !! k) (remove_dups order) ++
  filter (fun kv => kv.1 ∉ order) (map_to_list m).

(** [to_dict]: [copy.copy] of the [super] proxy goes through
    [object.__reduce_ex__(2)] and rebuilds the object: a new [SynoDict]
    made without [__init__], whose [syns] is the same list, filled by
    [y[key] = value] for every stored item in iteration order.  The
    assignment is the [__setitem__] of [SynoDict], so each item is written
    again under all the synonyms of its key. *)
Definition to_dict (order : list key) (self : t A) : gmap key A :=
  items (foldl (fun y kv => setitem y kv.1 kv.2) (Build ∅ (syns self))
           (iteritems order (items self))).

End Ops.

End SynoDict.

(** ** MarkedList *)

Module MarkedList.

Record t : Type := Build {
  lst : list string;
  mark : nat
}.

(** [__init__] *)
Definition init (l : list string) : t := Build l 0.

(** [get]: [None] past the end, else the token at the mark, with the mark
    advanced. *)
Definition get (self : t) : option string * t :=
  if bool_decide (length (lst self) ≤ mark self) then (None, self)
  else (lst self !! mark self, Build (lst self) (mark self + 1)).

(** [get_silently] *)
Definition get_silently (self : t) : option string :=
  if bool_decide (length (lst self) ≤ mark self) then None
  else lst self !! mark self.

(** [__nonzero__] *)
Definition nonzero (self : t) : bool :=
  bool_decide (mark self < length (lst self)).

(** [self.lst.insert(self.mark, x)] *)
Definition insert_at_mark (self : t) (x : string) : t :=
  Build (list_insert_at (mark self) x (lst self)) (mark self).

End MarkedList.

(** ** Argument descriptors *)

Module Desc.

(** The ['n'] field: an [int], a [str] or a tuple of [str]. *)
Inductive name : Type :=
  | NInt (z : Z)
  | NStr (s : string)
  | NTuple (ss : list string).

(** A descriptor dictionary; ['n'] is required, the other fields may be
    missing.  A converter returns [None] where the Python callable raises. *)
Record argdesc : Type := Build {
  n : name;
  t : option (string -> option value);
  d : option value;
  o : option bool;
  p : option string;
  desc : option string
}.

End Desc.

(** The body shared by the two set-up loops: register a tuple of synonyms
    and pick [desc['n'][0]], or take [desc['n']] itself. *)
Definition setup_name {A : Type} (sdict : SynoDict.t A) (desc : Desc.argdesc)
    : result (SynoDict.t A * key) :=
  match Desc.n desc with
  | Desc.NTuple ss =>
      let sdict := SynoDict.register sdict (KStr <$> ss) in
      match ss with
      | s :: _ => Ok (sdict, KStr s)
      | [] => Raise IndexError
      end
  | Desc.NStr s => Ok (sdict, KStr s)
  | Desc.NInt z => Ok (sdict, KInt z)
  end.

Fixpoint setup_argdesc_loop (sdict : SynoDict.t Desc.argdesc)
    (arg_descs : list Desc.argdesc) : result (SynoDict.t Desc.argdesc) :=
  match arg_descs with
  | [] => Ok sdict
  | desc :: rest =>
      '(sdict, name) ← setup_name sdict desc;
      setup_argdesc_loop (SynoDict.setitem sdict name desc) rest
  end.

(** [setup_argdesc_sdict] *)
Definition setup_argdesc_sdict (arg_descs : list Desc.argdesc)
    : result (SynoDict.t Desc.argdesc) :=
  setup_argdesc_loop SynoDict.init arg_descs.

Fixpoint setup_output_loop (sdict : SynoDict.t value)
    (arg_descs : list Desc.argdesc) : result (SynoDict.t value) :=
  match arg_descs with
  | [] => Ok sdict
  | desc :: rest =>
      '(sdict, name) ← setup_name sdict desc;
      match Desc.d desc with
      | Some dflt => setup_output_loop (SynoDict.setitem sdict name dflt) rest
      | None => setup_output_loop sdict rest
      end
  end.

(** [setup_output_sdict] *)
Definition setup_output_sdict (arg_descs : list Desc.argdesc)
    : result (SynoDict.t value) :=
  setup_output_loop SynoDict.init arg_descs.

(** ** ArgLoader *)

(** The three messages of the [RuntimeError]s. *)
Definition msg_not_recognized (print_name : string) : string :=
  "Argument " +:+ print_name +:+ " not recognized!".

Definition msg_not_understood (name param : string) : string :=
  "Value given for argument " +:+ name +:+ " ('" +:+ param
    +:+ "') could not be understood!".

Definition msg_no_value (name : string) : string :=
  "Couldn't grab value for " +:+ name +:+ "!".

Module ArgLoader.

Record t : Type := Build {
  ml_args : MarkedList.t;
  arg_descs : list Desc.argdesc;
  sd_out : SynoDict.t value;
  sd_descs : SynoDict.t Desc.argdesc;
  cur_positional : Z
}.

Definition set_ml_args (self : t) (ml : MarkedList.t) : t :=
  Build ml (arg_descs self) (sd_out self) (sd_descs self) (cur_positional self).

Definition set_sd_out (self : t) (sd : SynoDict.t value) : t :=
  Build (ml_args self) (arg_descs self) sd (sd_descs self) (cur_positional self).

Definition set_cur_positional (self : t) (z : Z) : t :=
  Build (ml_args self) (arg_descs self) (sd_out self) (sd_descs self) z.

(** [__init__] *)
Definition init (arg_descs : list Desc.argdesc) (args : list string)
    : result t :=
  sd_out ← setup_output_sdict arg_descs;
  sd_descs ← setup_argdesc_sdict arg_descs;
  Ok (Build (MarkedList.init args) arg_descs sd_out sd_descs 1).

(** [try_recognize]; [print_name] is [None] when the argument is left out,
    and an empty one is replaced by [name] as well. *)
Definition try_recognize (self : t) (name : key) (print_name : option string)
    : result Desc.argdesc :=
  match SynoDict.items (sd_descs self) !! name with
  | Some argdesc => Ok argdesc
  | None =>
      let print_name :=
        match print_name with
        | None | Some EmptyString => format_key name
        | Some pn => pn
        end in
      Raise (RuntimeError (msg_not_recognized print_name))
  end.

(** [try_translate] *)
Definition try_translate (param : string) (argdesc : Desc.argdesc) (name : key)
    : result value :=
  match Desc.t argdesc with
  | Some conv =>
      match conv param with
      | Some val => Ok val
      | None =>
          Raise (RuntimeError (msg_not_understood (format_key name) param))
      end
  | None => Ok (VStr param)
  end.

(** [try_grab_next]; the cursor moves, so the loader is returned too.  [get]
    cannot return [None] once [__nonzero__] held; the converter or the
    dictionary would then receive [None], rendered here as [TypeError]. *)
Definition try_grab_next (self : t) (name : string) : result (string * t) :=
  if MarkedList.nonzero (ml_args self) then
    match MarkedList.get (ml_args self) with
    | (Some tok, ml) => Ok (tok, set_ml_args self ml)
    | (None, _) => Raise TypeError
    end
  else Raise (RuntimeError (msg_no_value name)).

(** [load_one_positional] *)
Definition load_one_positional (self : t) (cur : string) : result t :=
  argdesc ← try_recognize self (KInt (cur_positional self)) None;
  val ← try_translate cur argdesc (KInt (cur_positional self));
  let self := set_sd_out self
                (SynoDict.setitem (sd_out self) (KInt (cur_positional self)) val) in
  Ok (set_cur_positional self (cur_positional self + 1)).

(** [load_one_1char] *)
Definition load_one_1char (self : t) (cur : string) : result t :=
  let cur := str_from 1 cur in
  focus ← str_index cur 0;
  let is_single := Nat.eqb (String.length cur) 1 in
  argdesc ← try_recognize self (KStr focus) (Some ("-" +:+ focus));
  match Desc.t argdesc with
  | Some _ =>
      if is_single then
        '(param, self) ← try_grab_next self ("-" +:+ focus);
        val ← try_translate param argdesc (KStr ("-" +:+ focus));
        Ok (set_sd_out self (SynoDict.setitem (sd_out self) (KStr focus) val))
      else
        let ml := MarkedList.insert_at_mark (ml_args self) (str_from 1 cur) in
        let ml := MarkedList.insert_at_mark ml ("-" +:+ focus) in
        Ok (set_ml_args self ml)
  | None =>
      if is_single then
        Ok (set_sd_out self
              (SynoDict.setitem (sd_out self) (KStr focus) (VBool true)))
      else
        let ml := MarkedList.insert_at_mark (ml_args self)
                    ("-" +:+ str_from 1 cur) in
        let ml := MarkedList.insert_at_mark ml ("-" +:+ focus) in
        Ok (set_ml_args self ml)
  end.

(** [load_one_nchar] *)
Definition load_one_nchar (self : t) (cur : string) : result t :=
  let cur := str_from 2 cur in
  argdesc ← try_recognize self (KStr cur) (Some ("--" +:+ cur));
  match Desc.t argdesc with
  | Some _ =>
      '(param, self) ← try_grab_next self ("--" +:+ cur);
      val ← try_translate param argdesc (KStr ("--" +:+ cur));
      Ok (set_sd_out self (SynoDict.setitem (sd_out self) (KStr cur) val))
  | None =>
      Ok (set_sd_out self
            (SynoDict.setitem (sd_out self) (KStr cur) (VBool true)))
  end.

(** The three branches of [load_one]. *)
Inductive token_class : Type :=
  | Positional
  | OneChar
  | NChar.

(** The [if]/[elif] chain of [load_one], with Python's short-circuit [or]:
    [cur[0]] is read only when [len(cur) == 1] is false, [cur[1]] only when
    the whole first condition is. *)
Definition classify (cur : string) : result token_class :=
  if Nat.eqb (String.length cur) 1 then Ok Positional
  else
    c0 ← str_index cur 0;
    if negb (String.eqb c0 "-") then Ok Positional
    else if String.eqb cur "--" then Ok Positional
    else
      c1 ← str_index cur 1;
      if negb (String.eqb c1 "-") then Ok OneChar else Ok NChar.

(** [load_one]; [len(None)] is a [TypeError]. *)
Definition load_one (self : t) : result t :=
  match MarkedList.get (ml_args self) with
  | (None, _) => Raise TypeError
  | (Some cur, ml) =>
      let self := set_ml_args self ml in
      cls ← classify cur;
      match cls with
      | Positional => load_one_positional self cur
      | OneChar => load_one_1char self cur
      | NChar => load_one_nchar self cur
      end
  end.

(** The [while] loop of [load_all], run for at most [fuel] iterations;
    [None] when the fuel runs out first. *)
Fixpoint load_all_fuel (order : list key) (fuel : nat) (self : t)
    : option (result (gmap key value)) :=
  if MarkedList.nonzero (ml_args self) then
    match fuel with
    | O => None
    | S fuel' =>
        match load_one self with
        | Ok self' => load_all_fuel order fuel' self'
        | Raise e => Some (Raise e)
        end
    end
  else Some (Ok (SynoDict.to_dict order (sd_out self))).

(** The weight of the tokens still ahead of the mark: the sum of the squares
    of their lengths.  Every iteration that does not raise lowers it. *)
Definition weight (toks : list string) : nat :=
  foldr (fun tok acc => String.length tok * String.length tok + acc) 0 toks.

Definition measure (self : t) : nat :=
  weight (drop (MarkedList.mark (ml_args self)) (MarkedList.lst (ml_args self))).

(** [load_all], with the fuel the measure allows for. *)
Definition load_all (order : list key) (self : t)
    : option (result (gmap key value)) :=
  load_all_fuel order (S (measure self)) self.

End ArgLoader.

(** [process]; [copy.copy(args)] keeps the caller's list out of reach of the
    splices.  [order] is the iteration order of the dictionary that
    [to_dict] copies.  [None] would mean that the loop did not end within
    its fuel. *)
Definition process (order : list key) (arg_descs : list Desc.argdesc)
    (args : list string) : option (result (gmap key value)) :=
  match ArgLoader.init arg_descs args with
  | Ok loader => ArgLoader.load_all order loader
  | Raise e => Some (Raise e)
  end.

(** ** Example schemas and converters *)

(** [{'n': s}] *)
Definition switch (s : string) : Desc.argdesc :=
  Desc.Build (Desc.NStr s) None None None None None.

(** [{'n': s, 'd': dflt}] *)
Definition switch_with_default (s : string) (dflt : value) : Desc.argdesc :=
  Desc.Build (Desc.NStr s) None (Some dflt) None None None.

(** [str] as a converter. *)
Definition conv_str (s : string) : option value := Some (VStr s).

(** [int] on optionally signed decimal literals; anything else is taken to
    raise. *)
Definition conv_int (s : string) : option value :=
  match NilZero.int_of_string s with
  | Some i => Some (VInt (Z.of_int i))
  | None => None
  end.

(** [{'n': s, 't': conv}] *)
Definition valued (s : string) (conv : string -> option value) : Desc.argdesc :=
  Desc.Build (Desc.NStr s) (Some conv) None None None None.

(** [{'n': z}] *)
Definition positional (z : Z) : Desc.argdesc :=
  Desc.Build (Desc.NInt z) None None None None None.

(** [{'n': ('a', 'all')}] *)
Definition switch_a_all : Desc.argdesc :=
  Desc.Build (Desc.NTuple ["a"; "all"]) None None None None None.

(** A [SynoDict] with the synonyms [('a', 'all')] registered and one value
    stored through ['a']. *)
Definition sd_a_all : SynoDict.t value :=
  SynoDict.setitem (SynoDict.register SynoDict.init [KStr "a"; KStr "all"])
    (KStr "a") (VInt 1).

(** What a schema makes of a name: the descriptor [sd_descs] holds for it. *)
Definition recognized (arg_descs : list Desc.argdesc) (name : key)
    : option Desc.argdesc :=
  match setup_argdesc_sdict arg_descs with
  | Ok sd => SynoDict.items sd !! name
  | Raise _ => None
  end.

(** The canonical key of a descriptor: the first synonym, the name or the
    slot. *)
Definition canonical_key (desc : Desc.argdesc) : option key :=
  match Desc.n desc with
  | Desc.NTuple ss => KStr <$> head ss
  | Desc.NStr s => Some (KStr s)
  | Desc.NInt z => Some (KInt z)
  end.


(** Two keys are linked by a schema when they are the same key or two names
    of one tuple of synonyms. *)
Definition linked (arg_descs : list Desc.argdesc) (k1 k2 : key) : Prop :=
  k1 = k2 \/
  exists desc ss, desc ∈ arg_descs /\ Desc.n desc = Desc.NTuple ss /\
    k1 ∈ KStr <$> ss /\ k2 ∈ KStr <$> ss.

(** Every key that is [k] or shares a registered list with [k] holds [v]:
    whichever of them the copy of [to_dict] writes last, [k] ends up with
    [v]. *)
Definition settled {A : Type} (sd : SynoDict.t A) (k : key) (v : A) : Prop :=
  forall k0, k ∈ SynoDict.getsyns sd k0 -> SynoDict.items sd !! k0 = Some v.

(** Keys joined by a chain of synonym tuples. *)
Definition connected (arg_descs : list Desc.argdesc) : key -> key -> Prop :=
  rtc (linked arg_descs).



(** The loader after some iterations of the loop, none of which raised. *)
Inductive reaches : ArgLoader.t -> ArgLoader.t -> Prop :=
  | reaches_here self : reaches self self
  | reaches_next self self' self'' :
      ArgLoader.load_one self = Ok self' -> reaches self' self'' ->
      reaches self self''.

(** The errors of the scan: an unrecognized flag or slot, a flag left
    without its value, a value the converter rejects. *)
Definition scan_error (e : exn) : Prop :=
  (exists print_name, e = RuntimeError (msg_not_recognized print_name)) \/
  (exists name, e = RuntimeError (msg_no_value name)) \/
  (exists name param, e = RuntimeError (msg_not_understood name param)).




(** Results that raise the same exception or return related values. *)
Definition result_rel {A : Type} (R : A -> A -> Prop) (r1 r2 : result A)
    : Prop :=
  match r1, r2 with
  | Ok a1, Ok a2 => R a1 a2
  | Raise e1, Raise e2 => e1 = e2
  | _, _ => False
  end.





(** The tokens not read yet. *)
Definition remaining (ml : MarkedList.t) : list string :=
  drop (MarkedList.mark ml) (MarkedList.lst ml).

(** The loader once [get] has moved the mark past the current token. *)
Definition advance (self : ArgLoader.t) : ArgLoader.t :=
  ArgLoader.set_ml_args self
    (MarkedList.Build (MarkedList.lst (ArgLoader.ml_args self))
                      (MarkedList.mark (ArgLoader.ml_args self) + 1)).

(** Loaders with the same tokens ahead of the mark, the same dictionaries
    and the same counter; the tokens already read may differ. *)
Definition same_pending (s1 s2 : ArgLoader.t) : Prop :=
  remaining (ArgLoader.ml_args s1) = remaining (ArgLoader.ml_args s2) /\
  ArgLoader.sd_out s1 = ArgLoader.sd_out s2 /\
  ArgLoader.sd_descs s1 = ArgLoader.sd_descs s2 /\
  ArgLoader.cur_positional s1 = ArgLoader.cur_positional s2.

(** The keys a descriptor declares: its slot, its name, or each of its
    synonyms. *)
Definition declares (desc : Desc.argdesc) (k : key) : Prop :=
  match Desc.n desc with
  | Desc.NInt z => k = KInt z
  | Desc.NStr s => k = KStr s
  | Desc.NTuple ss => k ∈ KStr <$> ss
  end.

(** The keys a schema declares. *)
Definition declared (arg_descs : list Desc.argdesc) (k : key) : Prop :=
  exists desc, desc ∈ arg_descs /\ declares desc k.

(** [flag] is a token that names [name] on its own: ["--" ++ name] for any
    non-empty name, or ["-" ++ name] for a name of one character other than
    the dash. *)
Definition flag_for (name flag : string) : Prop :=
  (flag = String "-" (String "-" name) /\ name <> EmptyString) \/
  (exists c, name = String c EmptyString /\ c <> "-"%char /\
             flag = String "-" name).

(** ** The help message *)

(** The [help_info] dictionary: ['name'] is required, ['desc'] may be
    missing. *)
Record help_info : Type := HelpInfo {
  hi_name : string;
  hi_desc : option string
}.

(** ['\n'] *)
Definition newline : string := String (ascii_of_nat 10) EmptyString.

(** [' ' * n] *)
Fixpoint spaces (n : nat) : string :=
  match n with
  | O => EmptyString
  | S n' => String " " (spaces n')
  end.

(** [s.rjust(width)] *)
Definition rjust (width : nat) (s : string) : string :=
  spaces (width - String.length s) +:+ s.

(** [add_dashes] *)
Definition add_dashes (n : string) : string :=
  (if Nat.eqb (String.length n) 1 then "-" else "--") +:+ n.

(** ['o' in desc and desc['o']] *)
Definition is_optional (desc : Desc.argdesc) : bool :=
  match Desc.o desc with
  | Some b => b
  | None => false
  end.

(** The first loop of [get_help_message]: the positional descriptors, the
    named ones with a true ['o'], and whether there is any other named one. *)
Fixpoint sort_descs (arg_descs poss req_nonpos : list Desc.argdesc)
    (has_nonreqnonpos : bool) : list Desc.argdesc * list Desc.argdesc * bool :=
  match arg_descs with
  | [] => (poss, req_nonpos, has_nonreqnonpos)
  | desc :: rest =>
      match Desc.n desc with
      | Desc.NInt _ => sort_descs rest (poss ++ [desc]) req_nonpos has_nonreqnonpos
      | _ =>
          if is_optional desc
          then sort_descs rest poss (req_nonpos ++ [desc]) has_nonreqnonpos
          else sort_descs rest poss req_nonpos true
      end
  end.

(** [for alt_name in desc['n'][:-1]: ret += add_dashes(alt_name).rjust(20) + '\n'] *)
Fixpoint alt_names (ret : string) (alts : list string) : string :=
  match alts with
  | [] => ret
  | alt_name :: rest =>
      alt_names (ret +:+ rjust 20 (add_dashes alt_name) +:+ newline) rest
  end.

(** [for line in descr_lines[1:]: ret += (' '*24) + line + '\n'] *)
Fixpoint more_lines (ret : string) (lines : list string) : string :=
  match lines with
  | [] => ret
  | line :: rest => more_lines (ret +:+ spaces 24 +:+ line +:+ newline) rest
  end.

Section Help.

(** [conv.__name__] for a converter, and [textwrap.wrap(text, width)]. *)
Variable type_name : (string -> option value) -> string.
Variable wrap : string -> nat -> list string.

(** [desc['p'] if 'p' in desc else desc['t'].__name__] *)
Definition param_name (desc : Desc.argdesc) : result string :=
  match Desc.p desc with
  | Some p => Ok p
  | None =>
      match Desc.t desc with
      | Some conv => Ok (type_name conv)
      | None => Raise (KeyError (KStr "t"))
      end
  end.

(** The loop over [req_nonpos]; an [int] name, which no descriptor of
    [req_nonpos] has, would fail in [len]. *)
Fixpoint usage_named (ret : string) (req_nonpos : list Desc.argdesc)
    : result string :=
  match req_nonpos with
  | [] => Ok ret
  | rnp :: rest =>
      name ← match Desc.n rnp with
             | Desc.NTuple (s :: _) => Ok (add_dashes s)
             | Desc.NTuple [] => Raise IndexError
             | Desc.NStr s => Ok (add_dashes s)
             | Desc.NInt _ => Raise TypeError
             end;
      parname ← param_name rnp;
      usage_named (ret +:+ " <" +:+ name +:+ " " +:+ parname +:+ ">") rest
  end.

(** The loop over [poss]. *)
Fixpoint usage_positional (ret : string) (poss : list Desc.argdesc)
    : result string :=
  match poss with
  | [] => Ok ret
  | posarg :: rest =>
      parname ← param_name posarg;
      usage_positional
        (ret +:+ " " +:+ (if is_optional posarg then "[" else "<") +:+ parname
             +:+ (if is_optional posarg then "]" else ">"))
        rest
  end.

(** [name += ' ' + (desc['p'] if 'p' in desc else desc['t'].__name__)],
    under [if 't' in desc]. *)
Definition with_param (name : string) (desc : Desc.argdesc) : string :=
  match Desc.t desc with
  | Some conv =>
      name +:+ " " +:+ match Desc.p desc with
                       | Some p => p
                       | None => type_name conv
                       end
  | None => name
  end.

(** The loop that lists the options. *)
Fixpoint options (ret : string) (arg_descs : list Desc.argdesc)
    : result string :=
  match arg_descs with
  | [] => Ok ret
  | desc :: rest =>
      '(ret, name) ← match Desc.n desc with
                     | Desc.NInt _ =>
                         name ← param_name desc; Ok (ret, name)
                     | Desc.NTuple ss =>
                         let ret := alt_names ret (removelast ss) in
                         match last ss with
                         | Some s => Ok (ret, with_param (add_dashes s) desc)
                         | None => Raise IndexError
                         end
                     | Desc.NStr s => Ok (ret, with_param (add_dashes s) desc)
                     end;
      let ret := ret +:+ rjust 20 name in
      let ret := ret +:+ "    " in
      ret ← match Desc.desc desc with
            | Some text =>
                match wrap text 46 with
                | first :: more =>
                    Ok (more_lines (ret +:+ first +:+ newline) more)
                | [] => Raise IndexError
                end
            | None => Ok (ret +:+ newline)
            end;
      options (ret +:+ newline) rest
  end.

(** [get_help_message] *)
Definition get_help_message (info : help_info)
    (arg_descs : list Desc.argdesc) : result string :=
  let '(poss, req_nonpos, has_nonreqnonpos) :=
    sort_descs arg_descs [] [] false in
  let ret := "Usage: " +:+ hi_name info in
  let ret := if has_nonreqnonpos then ret +:+ " [options]" else ret in
  ret ← usage_named ret req_nonpos;
  ret ← usage_positional ret poss;
  let ret := ret +:+ newline +:+ newline +:+
             match hi_desc info with
             | Some text => text +:+ newline +:+ newline
             | None => EmptyString
             end in
  let ret := ret +:+ "Options:" +:+ newline in
  options ret arg_descs.

End Help.

(** A descriptor [get_help_message] can render: it has a ['p'] or a ['t']
    when it is positional or has a true ['o'], its name is not the empty
    tuple, and its description does not wrap to no line at all. *)
Definition renderable (wrap : string -> nat -> list string)
    (desc : Desc.argdesc) : Prop :=
  ((match Desc.n desc with Desc.NInt _ => True | _ => False end
    \/ is_optional desc = true) ->
   Desc.p desc <> None \/ Desc.t desc <> None) /\
  Desc.n desc <> Desc.NTuple [] /\
  (forall text, Desc.desc desc = Some text -> wrap text 46 <> []).

(** Whether a descriptor is positional. *)
Definition is_slot (desc : Desc.argdesc) : bool :=
  match Desc.n desc with
  | Desc.NInt _ => true
  | _ => false
  end.

(** Whether a descriptor is named and has a true ['o']. *)
Definition named_optional (desc : Desc.argdesc) : bool :=
  negb (is_slot desc) && is_optional desc.

(** Whether a descriptor is named and has no true ['o']. *)
Definition named_not_optional (desc : Desc.argdesc) : bool :=
  match Desc.n desc with
  | Desc.NInt _ => false
  | _ => negb (is_optional desc)
  end.

(** The strings of a list, one after the other. *)
Fixpoint join (ls : list string) : string :=
  match ls with
  | [] => EmptyString
  | x :: rest => x +:+ join rest
  end.

(** The parameter label of a descriptor that has one: its ['p'], else the
    name of its converter. *)
Definition label (type_name : (string -> option value) -> string)
    (desc : Desc.argdesc) : string :=
  match Desc.p desc, Desc.t desc with
  | Some p, _ => p
  | None, Some conv => type_name conv
  | None, None => EmptyString
  end.

(** The first name of a named descriptor. *)
Definition first_name (desc : Desc.argdesc) : string :=
  match Desc.n desc with
  | Desc.NStr s => s
  | Desc.NTuple (s :: _) => s
  | _ => EmptyString
  end.

(** What the usage line shows for a named descriptor with a true ['o'], and
    for a positional one. *)
Definition named_group (type_name : (string -> option value) -> string)
    (desc : Desc.argdesc) : string :=
  " <" +:+ add_dashes (first_name desc) +:+ " " +:+ label type_name desc +:+ ">".

Definition positional_group (type_name : (string -> option value) -> string)
    (desc : Desc.argdesc) : string :=
  " " +:+ (if is_optional desc then "[" else "<") +:+ label type_name desc
      +:+ (if is_optional desc then "]" else ">").

(** The usage line of a schema, as one expression. *)
Definition usage_line (type_name : (string -> option value) -> string)
    (info : help_info) (arg_descs : list Desc.argdesc) : string :=
  "Usage: " +:+ hi_name info
    +:+ (if existsb named_not_optional arg_descs then " [options]" else "")
    +:+ join (named_group type_name <$> List.filter named_optional arg_descs)
    +:+ join (positional_group type_name <$> List.filter is_slot arg_descs).

(** ** SynoDict: what [__getsyns], [__setitem__] and [__delitem__] do *)

Section SynoDictFacts.
Context {A : Type}.
Implicit Types (sd : SynoDict.t A) (k : key) (v : A) (m : gmap key A).

Lemma elem_of_getsyns_loop k registered acc k' :
  k' ∈ SynoDict.getsyns_loop k registered acc <->
  k' ∈ acc \/ exists synlist, synlist ∈ registered /\ k ∈ synlist /\ k' ∈ synlist.
Proof.
  revert acc. induction registered as [|sl reg IH]; intros acc; simpl.
  - split; [by left|]. intros [?|(sl & Hsl & _)]; [done|]. by apply elem_of_nil in Hsl.
  - rewrite IH. case_bool_decide as Hk.
    + rewrite elem_of_app. split.
      * intros [[?|?]|(sl' & ? & ? & ?)]; [by left| |].
        -- right. exists sl. split; [left|done].
        -- right. exists sl'. split; [by right|done].
      * intros [?|(sl' & Hin & ? & ?)]; [by left; left|].
        apply elem_of_cons in Hin as [->|?]; [by left; right|].
        right. by exists sl'.
    + split.
      * intros [?|(sl' & ? & ? & ?)]; [by left|].
        right. exists sl'. split; [by right|done].
      * intros [?|(sl' & Hin & ? & ?)]; [by left|].
        apply elem_of_cons in Hin as [->|?]; [done|].
        right. by exists sl'.
Qed.

Lemma elem_of_getsyns sd k k' :
  k' ∈ SynoDict.getsyns sd k <->
  k' = k \/ exists synlist,
    synlist ∈ SynoDict.syns sd /\ k ∈ synlist /\ k' ∈ synlist.
Proof.
  unfold SynoDict.getsyns. rewrite elem_of_getsyns_loop.
  by rewrite list_elem_of_singleton.
Qed.

Lemma getsyns_loop_app k registered acc :
  SynoDict.getsyns_loop k registered acc =
  acc ++ SynoDict.getsyns_loop k registered [].
Proof.
  revert acc. induction registered as [|sl reg IH]; intros acc; simpl.
  - by rewrite app_nil_r.
  - case_bool_decide.
    + rewrite (IH (acc ++ sl)), (IH sl). by rewrite app_assoc.
    + apply IH.
Qed.

Lemma lookup_foldl_insert v (ks : list key) m k' :
  foldl (fun m k => <[k := v]> m) m ks !! k' =
  if bool_decide (k' ∈ ks) then Some v else m !! k'.
Proof.
  revert m. induction ks as [|k ks IH]; intros m.
  - by rewrite bool_decide_eq_false_2 by apply not_elem_of_nil.
  - cbn [foldl]. rewrite IH. destruct (decide (k' ∈ ks)) as [Hin|Hin].
    + rewrite !bool_decide_eq_true_2; [done|by right|done].
    + rewrite (bool_decide_eq_false_2 (k' ∈ ks)) by done.
      destruct (decide (k' = k)) as [->|Hne].
      * rewrite lookup_insert_eq. by rewrite bool_decide_eq_true_2 by left.
      * rewrite lookup_insert_ne by done.
        rewrite bool_decide_eq_false_2; [done|].
        by intros [?|?]%elem_of_cons.
Qed.

Lemma lookup_setitem sd k v k' :
  SynoDict.items (SynoDict.setitem sd k v) !! k' =
  if bool_decide (k' ∈ SynoDict.getsyns sd k) then Some v
  else SynoDict.items sd !! k'.
Proof. apply lookup_foldl_insert. Qed.

Lemma lookup_setitem_self sd k v :
  SynoDict.items (SynoDict.setitem sd k v) !! k = Some v.
Proof.
  rewrite lookup_setitem, bool_decide_eq_true_2; [done|].
  apply elem_of_getsyns. by left.
Qed.


(** A write leaves every key either as it was or bound to the new value. *)
Lemma lookup_setitem_cases sd k v k' :
  SynoDict.items (SynoDict.setitem sd k v) !! k' = Some v \/
  SynoDict.items (SynoDict.setitem sd k v) !! k' = SynoDict.items sd !! k'.
Proof. rewrite lookup_setitem. case_bool_decide; [by left|by right]. Qed.

Lemma syns_setitem sd k v :
  SynoDict.syns (SynoDict.setitem sd k v) = SynoDict.syns sd.
Proof. done. Qed.

Lemma delitem_loop_absent m (to_del : list key) k :
  k ∈ to_del -> m !! k = None ->
  exists k', (SynoDict.delitem_loop m to_del).2 = Some (KeyError k').
Proof.
  revert m. induction to_del as [|k0 rest IH]; intros m Hin Hk; simpl.
  - by apply elem_of_nil in Hin.
  - destruct (m !! k0) as [a|] eqn:Hk0; [|by exists k0].
    apply elem_of_cons in Hin as [->|Hin]; [congruence|].
    apply IH; [done|]. rewrite lookup_delete_ne; [done|]. congruence.
Qed.

Lemma delitem_loop_dup m (to_del : list key) :
  ~ NoDup to_del ->
  exists k', (SynoDict.delitem_loop m to_del).2 = Some (KeyError k').
Proof.
  revert m. induction to_del as [|k0 rest IH]; intros m Hdup; simpl.
  - destruct Hdup. constructor.
  - destruct (m !! k0) as [a|] eqn:Hk0; [|by exists k0].
    destruct (decide (k0 ∈ rest)) as [Hin|Hnin].
    + apply (delitem_loop_absent _ _ k0); [done|]. apply lookup_delete_eq.
    + apply IH. intros Hnd. apply Hdup. by constructor.
Qed.

(** [__getsyns] lists the key twice as soon as a registered list holds it, so
    [__delitem__] through such a key always ends in a [KeyError]. *)
Lemma delitem_registered_raises sd synlist k :
  synlist ∈ SynoDict.syns sd -> k ∈ synlist ->
  exists k', (SynoDict.delitem sd k).2 = Some (KeyError k').
Proof.
  intros Hreg Hk. unfold SynoDict.delitem.
  destruct (SynoDict.delitem_loop (SynoDict.items sd) (SynoDict.getsyns sd k))
    as [m e] eqn:Hloop. simpl.
  destruct (delitem_loop_dup (SynoDict.items sd) (SynoDict.getsyns sd k)) as [k' Hk'].
  - unfold SynoDict.getsyns. rewrite getsyns_loop_app. simpl.
    intros Hnd. apply NoDup_cons in Hnd as [Hnin _]. apply Hnin.
    apply elem_of_getsyns_loop. right. by exists synlist.
  - exists k'. by rewrite Hloop in Hk'.
Qed.

(** *** The copy [to_dict] returns *)

Lemma getsyns_sym sd k k' :
  k' ∈ SynoDict.getsyns sd k -> k ∈ SynoDict.getsyns sd k'.
Proof.
  rewrite !elem_of_getsyns. intros [->|(sl & ? & ? & ?)]; [by left|].
  right. by exists sl.
Qed.

Lemma getsyns_same_syns sd sd' k :
  SynoDict.syns sd = SynoDict.syns sd' ->
  SynoDict.getsyns sd k = SynoDict.getsyns sd' k.
Proof. unfold SynoDict.getsyns. by intros ->. Qed.

(** The iteration yields the stored items, each of them once, whatever the
    order. *)
Lemma elem_of_iteritems order m k v :
  (k, v) ∈ SynoDict.iteritems order m <-> m !! k = Some v.
Proof.
  unfold SynoDict.iteritems.
  rewrite elem_of_app, list_elem_of_omap, list_elem_of_filter,
    elem_of_map_to_list. simpl. split.
  - intros [(k0 & _ & Hf)|[_ H]]; [|done].
    destruct (m !! k0) as [a|] eqn:E; [|done]. simpl in Hf. by simplify_eq.
  - intros Hm. destruct (decide (k ∈ order)) as [Hin|Hnin]; [left|by right].
    exists k. rewrite elem_of_remove_dups. split; [done|]. by rewrite Hm.
Qed.

Lemma iteritems_Permutation order m :
  SynoDict.iteritems order m ≡ₚ map_to_list m.
Proof.
  apply NoDup_Permutation.
  - unfold SynoDict.iteritems. apply NoDup_app. split; [|split].
    + apply (NoDup_fmap_1 fst).
      assert (forall l : list key, NoDup l ->
        NoDup ((omap (fun k0 => pair k0 <$> m !! k0) l).*1)) as Hnd.
      { induction 1 as [|k0 l Hnin _ IH]; [constructor|]. simpl.
        destruct (m !! k0) as [a|]; [|done]. simpl. constructor; [|done].
        intros ((k1 & a1) & Heq & Hin)%list_elem_of_fmap. simpl in Heq. subst k1.
        apply list_elem_of_omap in Hin as (k2 & Hk2 & Hf).
        destruct (m !! k2); [|done]. simpl in Hf. by simplify_eq. }
      apply Hnd, NoDup_remove_dups.
    + intros [k0 a] (k1 & Hk1 & Hf)%list_elem_of_omap [Hnin _]%list_elem_of_filter.
      destruct (m !! k1); [|done]. simpl in Hf. simplify_eq.
      apply Hnin. simpl. by apply elem_of_remove_dups.
    + apply NoDup_filter, NoDup_map_to_list.
  - apply NoDup_map_to_list.
  - intros [k0 a]. by rewrite elem_of_iteritems, elem_of_map_to_list.
Qed.

(** Every arrangement of the items is the iteration of some order: the one
    that lists its keys. *)
Lemma iteritems_any (l : list (key * A)) m :
  l ≡ₚ map_to_list m -> SynoDict.iteritems l.*1 m = l.
Proof.
  intros Hperm. unfold SynoDict.iteritems.
  assert (NoDup l.*1) as Hnd.
  { rewrite Hperm. apply NoDup_fst_map_to_list. }
  assert (remove_dups l.*1 = l.*1) as ->.
  { induction Hnd as [|k0 ks Hnin _ IH]; [done|]. simpl.
    destruct (decide_rel elem_of k0 ks); [done|]. by rewrite IH. }
  assert (forall l' : list (key * A), (forall kv, kv ∈ l' -> kv.1 ∈ l.*1) ->
    filter (fun kv : key * A => kv.1 ∉ l.*1) l' = []) as Hnone.
  { induction l' as [|kv l' IH]; intros Hin; [done|].
    rewrite filter_cons, decide_False.
    - apply IH. intros kv' ?. apply Hin. by right.
    - intros Hnin. apply Hnin, Hin. left. }
  rewrite Hnone.
  2:{ intros kv Hin. apply list_elem_of_fmap. exists kv. split; [done|].
      by rewrite Hperm. }
  rewrite app_nil_r.
  assert (forall l' : list (key * A), (forall kv, kv ∈ l' -> m !! kv.1 = Some kv.2) ->
    omap (fun k0 => pair k0 <$> m !! k0) l'.*1 = l') as Hall.
  { induction l' as [|[k0 a] l' IH]; intros Hin; [done|]. simpl.
    pose proof (Hin (k0, a) ltac:(left)) as Hk0. simpl in Hk0.
    rewrite Hk0. simpl. f_equal. apply IH.
    intros kv ?. apply Hin. by right. }
  apply Hall. intros [k0 a] Hin. apply elem_of_map_to_list. by rewrite <- Hperm.
Qed.

Lemma syns_foldl_setitem (y : SynoDict.t A) (l : list (key * A)) :
  SynoDict.syns (foldl (fun y kv => SynoDict.setitem y kv.1 kv.2) y l) =
  SynoDict.syns y.
Proof. revert y. induction l as [|kv l IH]; intros y; [done|]. simpl. by rewrite IH. Qed.

(** A key is missing after a run of writes when it was missing before and no
    write had it among its synonyms. *)
Lemma lookup_foldl_setitem_None (y : SynoDict.t A) (l : list (key * A)) k :
  SynoDict.items (foldl (fun y kv => SynoDict.setitem y kv.1 kv.2) y l) !! k = None <->
  SynoDict.items y !! k = None /\
  forall k0 v0, (k0, v0) ∈ l -> k ∉ SynoDict.getsyns y k0.
Proof.
  revert y. induction l as [|[k0 v0] l IH]; intros y.
  - simpl. split; [|by intros [? _]]. intros ?. split; [done|].
    intros ?? Hin. by apply elem_of_nil in Hin.
  - cbn [foldl fst snd]. rewrite IH, lookup_setitem. split.
    + intros [Hk Hl]. case_bool_decide as Hin; [done|]. split; [done|].
      intros k1 v1 [Heq|Hin1]%elem_of_cons.
      * by simplify_eq.
      * rewrite (getsyns_same_syns y (SynoDict.setitem y k0 v0)) by done.
        by apply (Hl k1 v1).
    + intros [Hk Hl]. rewrite bool_decide_eq_false_2 by (apply (Hl k0 v0); left).
      split; [done|]. intros k1 v1 Hin1.
      rewrite <- (getsyns_same_syns y (SynoDict.setitem y k0 v0)) by done.
      apply (Hl k1 v1). by right.
Qed.

(** A value found after a run of writes was there before or was written by
    one of them. *)
Lemma lookup_foldl_setitem_Some (y : SynoDict.t A) (l : list (key * A)) k v :
  SynoDict.items (foldl (fun y kv => SynoDict.setitem y kv.1 kv.2) y l) !! k = Some v ->
  SynoDict.items y !! k = Some v \/
  exists k0, (k0, v) ∈ l /\ k ∈ SynoDict.getsyns y k0.
Proof.
  revert y. induction l as [|[k0 v0] l IH]; intros y; [by left|].
  cbn [foldl fst snd]. intros [Hk|(k1 & Hin & Hk1)]%IH.
  - rewrite lookup_setitem in Hk. case_bool_decide as Hin; [|by left].
    right. exists k0. simplify_eq. split; [left|done].
  - right. exists k1. split; [by right|].
    by rewrite (getsyns_same_syns y (SynoDict.setitem y k0 v0)).
Qed.

(** When all the writes that reach a key carry one value, the key holds that
    value afterwards, provided it held it before or some write reaches it. *)
Lemma lookup_foldl_setitem_agreed (y : SynoDict.t A) (l : list (key * A)) k v :
  (forall k0 v0, (k0, v0) ∈ l -> k ∈ SynoDict.getsyns y k0 -> v0 = v) ->
  SynoDict.items y !! k = Some v \/
    (exists k0 v0, (k0, v0) ∈ l /\ k ∈ SynoDict.getsyns y k0) ->
  SynoDict.items (foldl (fun y kv => SynoDict.setitem y kv.1 kv.2) y l) !! k = Some v.
Proof.
  revert y. induction l as [|[k0 v0] l IH]; intros y Hall Hsome.
  - destruct Hsome as [?|(? & ? & Hin & _)]; [done|]. by apply elem_of_nil in Hin.
  - cbn [foldl fst snd]. apply IH.
    + intros k1 v1 Hin1 Hk1. apply (Hall k1 v1); [by right|].
      by rewrite (getsyns_same_syns y (SynoDict.setitem y k0 v0)).
    + rewrite lookup_setitem. case_bool_decide as Hin.
      * left. f_equal. apply (Hall k0 v0); [left|done].
      * destruct Hsome as [?|(k1 & v1 & [Heq|Hin1]%elem_of_cons & Hk1)].
        -- by left.
        -- by simplify_eq.
        -- right. exists k1, v1. split; [done|].
           by rewrite <- (getsyns_same_syns y (SynoDict.setitem y k0 v0)).
Qed.

(** A value of the copy is the stored value of a key that has the key among
    its synonyms. *)
Lemma to_dict_lookup_Some order sd k v :
  SynoDict.to_dict order sd !! k = Some v ->
  exists k0, SynoDict.items sd !! k0 = Some v /\ k ∈ SynoDict.getsyns sd k0.
Proof.
  unfold SynoDict.to_dict. intros [Hk|(k0 & Hin & Hk0)]%lookup_foldl_setitem_Some.
  - simpl in Hk. by rewrite lookup_empty in Hk.
  - exists k0. split; [by apply elem_of_iteritems in Hin|done].
Qed.

(** A key is missing from the copy when no stored key has it among its
    synonyms. *)
Lemma to_dict_lookup_None order sd k :
  SynoDict.to_dict order sd !! k = None <->
  forall k0, k ∈ SynoDict.getsyns sd k0 -> SynoDict.items sd !! k0 = None.
Proof.
  unfold SynoDict.to_dict. rewrite lookup_foldl_setitem_None. split.
  - intros [_ Hl] k0 Hk0. destruct (SynoDict.items sd !! k0) as [v0|] eqn:E; [|done].
    destruct (Hl k0 v0); [by apply elem_of_iteritems|done].
  - intros Hall. split; [apply lookup_empty|].
    intros k0 v0 Hin%elem_of_iteritems Hk0.
    rewrite (Hall k0) in Hin; [done|exact Hk0].
Qed.

(** When the stored keys that have [k] among their synonyms all hold [v], and
    there is one, the copy binds [k] to [v]. *)
Lemma to_dict_lookup_agreed order sd k v :
  (exists k0, is_Some (SynoDict.items sd !! k0) /\ k ∈ SynoDict.getsyns sd k0) ->
  (forall k0 v0, SynoDict.items sd !! k0 = Some v0 -> k ∈ SynoDict.getsyns sd k0 ->
     v0 = v) ->
  SynoDict.to_dict order sd !! k = Some v.
Proof.
  intros (k0 & [v0 Hv0] & Hk0) Hall. unfold SynoDict.to_dict.
  apply lookup_foldl_setitem_agreed.
  - intros k1 v1 Hin%elem_of_iteritems Hk1. by apply (Hall k1 v1).
  - right. exists k0, v0. split; [by apply elem_of_iteritems|done].
Qed.

(** A key that is in no registered list together with another key is copied
    as it is stored. *)
Lemma to_dict_lookup_alone order sd k :
  (forall k0, k ∈ SynoDict.getsyns sd k0 -> k0 = k) ->
  SynoDict.to_dict order sd !! k = SynoDict.items sd !! k.
Proof.
  intros Halone. destruct (SynoDict.items sd !! k) as [v|] eqn:Hk.
  - apply to_dict_lookup_agreed.
    + exists k. split; [by rewrite Hk|]. apply elem_of_getsyns. by left.
    + intros k0 v0 Hv0 Hk0. apply Halone in Hk0 as ->. congruence.
  - apply to_dict_lookup_None. by intros k0 ->%Halone.
Qed.

(** When every stored value is also stored under all the synonyms of its key,
    the copy is the stored dictionary, in whatever order it is made. *)
Lemma to_dict_consistent order sd :
  (forall k0 v0 k, SynoDict.items sd !! k0 = Some v0 -> k ∈ SynoDict.getsyns sd k0 ->
     SynoDict.items sd !! k = Some v0) ->
  SynoDict.to_dict order sd = SynoDict.items sd.
Proof.
  intros Hcons. apply map_eq. intros k.
  destruct (SynoDict.items sd !! k) as [v|] eqn:Hk.
  - apply to_dict_lookup_agreed.
    + exists k. split; [by rewrite Hk|]. apply elem_of_getsyns. by left.
    + intros k0 v0 Hv0 Hk0. pose proof (Hcons _ _ _ Hv0 Hk0). congruence.
  - apply to_dict_lookup_None. intros k0 Hk0.
    destruct (SynoDict.items sd !! k0) as [v0|] eqn:Hv0; [|done].
    pose proof (Hcons _ _ _ Hv0 Hk0). congruence.
Qed.

(** With no synonyms registered the copy is the stored dictionary. *)
Lemma to_dict_no_syns order sd :
  SynoDict.syns sd = [] -> SynoDict.to_dict order sd = SynoDict.items sd.
Proof.
  intros Hsyns. apply to_dict_consistent. intros k0 v0 k Hv0 Hk.
  unfold SynoDict.getsyns in Hk. rewrite Hsyns in Hk. simpl in Hk.
  by apply list_elem_of_singleton in Hk as ->.
Qed.



(** *** Keys whose synonyms all agree *)

Lemma settled_to_dict order sd k v :
  settled sd k v -> SynoDict.to_dict order sd !! k = Some v.
Proof.
  intros Hset. apply to_dict_lookup_agreed.
  - exists k. split; [|apply elem_of_getsyns; by left].
    rewrite (Hset k); [done|]. apply elem_of_getsyns. by left.
  - intros k0 v0 Hv0 Hk0. rewrite (Hset k0 Hk0) in Hv0. congruence.
Qed.

(** Right after a write through [k], the key [k] is settled. *)
Lemma settled_setitem_self sd k v : settled (SynoDict.setitem sd k v) k v.
Proof.
  intros k0 Hk0. rewrite lookup_setitem, bool_decide_eq_true_2; [done|].
  apply getsyns_sym. by rewrite (getsyns_same_syns sd (SynoDict.setitem sd k v)).
Qed.

(** A further write of the same value keeps a key settled. *)
Lemma settled_setitem_same sd k v k' :
  settled sd k v -> settled (SynoDict.setitem sd k' v) k v.
Proof.
  intros Hset k0 Hk0. rewrite lookup_setitem. case_bool_decide; [done|].
  apply Hset. by rewrite (getsyns_same_syns sd (SynoDict.setitem sd k' v)).
Qed.

(** A write that reaches none of the keys around [k] keeps it settled. *)
Lemma settled_setitem_apart sd k v k' v' :
  (forall k0, k ∈ SynoDict.getsyns sd k0 -> k0 ∉ SynoDict.getsyns sd k') ->
  settled sd k v -> settled (SynoDict.setitem sd k' v') k v.
Proof.
  intros Hapart Hset k0 Hk0.
  rewrite (getsyns_same_syns (SynoDict.setitem sd k' v') sd) in Hk0 by done.
  rewrite lookup_setitem, bool_decide_eq_false_2 by by apply Hapart.
  by apply Hset.
Qed.

End SynoDictFacts.

(** ** MarkedList: the tokens ahead of the mark *)

Lemma remaining_nil ml :
  remaining ml = [] ->
  MarkedList.nonzero ml = false /\ MarkedList.get ml = (None, ml).
Proof.
  unfold remaining, MarkedList.nonzero, MarkedList.get. intros Hnil.
  apply drop_nil_inv in Hnil as Hlen.
  rewrite bool_decide_eq_false_2 by lia.
  by rewrite bool_decide_eq_true_2 by lia.
Qed.

Lemma remaining_cons ml tok rest :
  remaining ml = tok :: rest ->
  MarkedList.nonzero ml = true /\
  MarkedList.get ml =
    (Some tok, MarkedList.Build (MarkedList.lst ml) (MarkedList.mark ml + 1)) /\
  drop (MarkedList.mark ml + 1) (MarkedList.lst ml) = rest /\
  MarkedList.mark ml + 1 <= length (MarkedList.lst ml).
Proof.
  unfold remaining, MarkedList.nonzero, MarkedList.get. intros Hcons.
  assert (MarkedList.mark ml < length (MarkedList.lst ml)) as Hlt.
  { destruct (decide (MarkedList.mark ml < length (MarkedList.lst ml))); [done|].
    rewrite drop_ge in Hcons by lia. done. }
  assert (MarkedList.lst ml !! MarkedList.mark ml = Some tok) as Hlook.
  { rewrite <- (Nat.add_0_r (MarkedList.mark ml)), <- lookup_drop.
    by rewrite Hcons. }
  rewrite bool_decide_eq_true_2 by done.
  rewrite bool_decide_eq_false_2 by lia. rewrite Hlook.
  repeat split; [|lia].
  rewrite <- drop_drop, Hcons. done.
Qed.

Lemma nonzero_true_remaining ml :
  MarkedList.nonzero ml = true -> exists tok rest, remaining ml = tok :: rest.
Proof.
  intros Hnz. destruct (remaining ml) as [|tok rest] eqn:Hrem; [|by eauto].
  apply remaining_nil in Hrem as [Hf _]. congruence.
Qed.

(** Once [__nonzero__] holds, [get] returns a token. *)
Lemma get_nonzero ml :
  MarkedList.nonzero ml = true ->
  exists tok ml', MarkedList.get ml = (Some tok, ml').
Proof.
  intros (tok & rest & Hrem)%nonzero_true_remaining.
  apply remaining_cons in Hrem as (_ & Hget & _). eauto.
Qed.

Lemma remaining_insert_at_mark ml x :
  MarkedList.mark ml <= length (MarkedList.lst ml) ->
  remaining (MarkedList.insert_at_mark ml x) = x :: remaining ml.
Proof.
  intros Hle. unfold remaining, MarkedList.insert_at_mark, list_insert_at. simpl.
  rewrite drop_app_length'; [done|]. rewrite length_take. lia.
Qed.

Lemma mark_insert_at_mark_le ml x :
  MarkedList.mark ml <= length (MarkedList.lst ml) ->
  MarkedList.mark (MarkedList.insert_at_mark ml x)
    <= length (MarkedList.lst (MarkedList.insert_at_mark ml x)).
Proof.
  intros Hle. unfold MarkedList.insert_at_mark, list_insert_at. simpl.
  rewrite length_app, length_take. simpl. rewrite length_drop. lia.
Qed.

(** ** The classifier *)

Lemma classify_positional_nonempty cur :
  ArgLoader.classify cur = Ok ArgLoader.Positional -> 0 < String.length cur.
Proof. destruct cur; [discriminate|]. simpl. lia. Qed.

Lemma classify_1char_inv cur :
  ArgLoader.classify cur = Ok ArgLoader.OneChar ->
  exists c tail, cur = String "-" (String c tail) /\ c <> "-"%char.
Proof.
  unfold ArgLoader.classify, str_index.
  destruct cur as [|c0 [|c1 tail]]; simpl; try discriminate.
  destruct (Ascii.eqb_spec c0 "-") as [->|]; simpl; [|discriminate].
  destruct (Ascii.eqb_spec c1 "-") as [->|Hne]; simpl.
  - destruct tail; simpl; discriminate.
  - intros _. by exists c1, tail.
Qed.

Lemma classify_nchar_inv cur :
  ArgLoader.classify cur = Ok ArgLoader.NChar ->
  exists tail, cur = String "-" (String "-" tail) /\ tail <> EmptyString.
Proof.
  unfold ArgLoader.classify, str_index.
  destruct cur as [|c0 [|c1 tail]]; simpl; try discriminate.
  destruct (Ascii.eqb_spec c0 "-") as [->|]; simpl; [|discriminate].
  destruct (Ascii.eqb_spec c1 "-") as [->|Hne]; simpl.
  - destruct tail; simpl; [discriminate|]. intros _. eexists. split; done.
  - discriminate.
Qed.

(** The first-character accesses of the classifier are in bounds on every
    token but the empty one. *)
Lemma classify_IndexError_iff cur :
  ArgLoader.classify cur = Raise IndexError <-> cur = EmptyString.
Proof.
  unfold ArgLoader.classify, str_index. split; [|by intros ->].
  destruct cur as [|c0 [|c1 tail]]; simpl; try done.
  destruct (Ascii.eqb c0 "-"); simpl; [|done].
  destruct (Ascii.eqb c1 "-"); simpl; [|done].
  destruct tail; done.
Qed.

Lemma classify_total cur :
  cur <> EmptyString -> exists cls, ArgLoader.classify cur = Ok cls.
Proof.
  intros Hne. unfold ArgLoader.classify, str_index.
  destruct cur as [|c0 [|c1 tail]]; simpl; [done|by eauto|].
  destruct (Ascii.eqb c0 "-"); simpl; [|by eauto].
  destruct (Ascii.eqb c1 "-"); simpl; [|by eauto].
  destruct tail; simpl; by eauto.
Qed.

(** A flag token ["-" ++ c ++ tail] with [c] other than the dash. *)
Lemma classify_1char c tail :
  c <> "-"%char ->
  ArgLoader.classify (String "-" (String c tail)) = Ok ArgLoader.OneChar.
Proof.
  intros Hne. unfold ArgLoader.classify, str_index. simpl.
  destruct (Ascii.eqb_spec c "-"); [done|]. done.
Qed.

(** A long flag token ["--" ++ name]. *)
Lemma classify_nchar name :
  name <> EmptyString ->
  ArgLoader.classify ("--" +:+ name) = Ok ArgLoader.NChar.
Proof. intros Hne. destruct name; [done|]. done. Qed.

(** ** One iteration of the loop *)

Lemma load_one_unfold self cur rest :
  remaining (ArgLoader.ml_args self) = cur :: rest ->
  ArgLoader.load_one self =
    let self' := ArgLoader.set_ml_args self
      (MarkedList.Build (MarkedList.lst (ArgLoader.ml_args self))
                        (MarkedList.mark (ArgLoader.ml_args self) + 1)) in
    cls ← ArgLoader.classify cur;
    match cls with
    | ArgLoader.Positional => ArgLoader.load_one_positional self' cur
    | ArgLoader.OneChar => ArgLoader.load_one_1char self' cur
    | ArgLoader.NChar => ArgLoader.load_one_nchar self' cur
    end.
Proof.
  intros (_ & Hget & _)%remaining_cons. unfold ArgLoader.load_one.
  by rewrite Hget.
Qed.

Lemma try_grab_next_Ok self name param self' :
  ArgLoader.try_grab_next self name = Ok (param, self') ->
  remaining (ArgLoader.ml_args self)
    = param :: remaining (ArgLoader.ml_args self') /\
  ArgLoader.sd_out self' = ArgLoader.sd_out self /\
  ArgLoader.sd_descs self' = ArgLoader.sd_descs self /\
  ArgLoader.arg_descs self' = ArgLoader.arg_descs self /\
  ArgLoader.cur_positional self' = ArgLoader.cur_positional self.
Proof.
  unfold ArgLoader.try_grab_next.
  destruct (MarkedList.nonzero (ArgLoader.ml_args self)) eqn:Hnz; [|done].
  apply nonzero_true_remaining in Hnz as (tok & rest & Hrem).
  apply remaining_cons in Hrem as Hfacts. destruct Hfacts as (_ & Hget & Hrest & _).
  rewrite Hget. intros [= <- <-]. by rewrite Hrem, <- Hrest.
Qed.

Lemma try_grab_next_unfold self name param rest :
  remaining (ArgLoader.ml_args self) = param :: rest ->
  ArgLoader.try_grab_next self name =
    Ok (param, ArgLoader.set_ml_args self
      (MarkedList.Build (MarkedList.lst (ArgLoader.ml_args self))
                        (MarkedList.mark (ArgLoader.ml_args self) + 1))).
Proof.
  intros (Hnz & Hget & _)%remaining_cons. unfold ArgLoader.try_grab_next.
  by rewrite Hnz, Hget.
Qed.

Lemma try_grab_next_exhausted self name :
  remaining (ArgLoader.ml_args self) = [] ->
  ArgLoader.try_grab_next self name = Raise (RuntimeError (msg_no_value name)).
Proof.
  intros (Hnz & _)%remaining_nil. unfold ArgLoader.try_grab_next.
  by rewrite Hnz.
Qed.

(** What an iteration that does not raise has done: it resolved a positional
    token, or a flag (with or without a grabbed value), or it spliced the two
    halves of a bundle back in front of the mark. *)
Lemma load_one_inv self self' :
  ArgLoader.load_one self = Ok self' ->
  exists cur rest,
    remaining (ArgLoader.ml_args self) = cur :: rest /\
    cur <> EmptyString /\
    ArgLoader.sd_descs self' = ArgLoader.sd_descs self /\
    ArgLoader.arg_descs self' = ArgLoader.arg_descs self /\
    ((ArgLoader.classify cur = Ok ArgLoader.Positional /\
      remaining (ArgLoader.ml_args self') = rest /\
      ArgLoader.cur_positional self' = (ArgLoader.cur_positional self + 1)%Z /\
      exists val,
        ArgLoader.sd_out self' =
          SynoDict.setitem (ArgLoader.sd_out self)
            (KInt (ArgLoader.cur_positional self)) val)
     \/
     (ArgLoader.classify cur <> Ok ArgLoader.Positional /\
      ArgLoader.cur_positional self' = ArgLoader.cur_positional self /\
      (exists name val,
        ArgLoader.sd_out self' =
          SynoDict.setitem (ArgLoader.sd_out self) (KStr name) val /\
        ((cur = String "-" name /\ String.length name = 1) \/
         cur = String "-" (String "-" name))) /\
      (remaining (ArgLoader.ml_args self') = rest \/
       exists param, rest = param :: remaining (ArgLoader.ml_args self')))
     \/
     (exists c tail,
        cur = String "-" (String c tail) /\ c <> "-"%char /\
        tail <> EmptyString /\
        ArgLoader.cur_positional self' = ArgLoader.cur_positional self /\
        ArgLoader.sd_out self' = ArgLoader.sd_out self /\
        (remaining (ArgLoader.ml_args self')
           = String "-" (String c EmptyString) :: tail :: rest \/
         remaining (ArgLoader.ml_args self')
           = String "-" (String c EmptyString) :: String "-" tail :: rest))).
Proof.
  intros Hload.
  destruct (remaining (ArgLoader.ml_args self)) as [|cur rest] eqn:Hrem.
  { apply remaining_nil in Hrem as [_ Hget]. unfold ArgLoader.load_one in Hload.
    by rewrite Hget in Hload. }
  rewrite (load_one_unfold _ _ _ Hrem) in Hload.
  apply remaining_cons in Hrem as Hfacts.
  destruct Hfacts as (_ & _ & Hrest & Hmark).
  exists cur, rest. split; [done|].
  destruct (ArgLoader.classify cur) as [cls|e] eqn:Hcls; [|done].
  assert (cur <> EmptyString) as Hne by (by intros ->).
  split; [done|]. cbn [mbind result_bind] in Hload.
  set (self1 := ArgLoader.set_ml_args self _) in Hload.
  assert (remaining (ArgLoader.ml_args self1) = rest) as Hrem1 by done.
  assert (MarkedList.mark (ArgLoader.ml_args self1)
          <= length (MarkedList.lst (ArgLoader.ml_args self1))) as Hmark1 by done.
  destruct cls.
  - (* positional *)
    unfold ArgLoader.load_one_positional in Hload.
    destruct (ArgLoader.try_recognize self1 _ _) as [argdesc|]; [|done].
    cbn [mbind result_bind] in Hload.
    destruct (ArgLoader.try_translate _ _ _) as [val|]; [|done].
    injection Hload as <-. do 2 (split; [done|]). left.
    repeat split; [done|]. by exists val.
  - (* -XXX *)
    assert (ArgLoader.classify cur <> Ok ArgLoader.Positional) as Hnp
      by by rewrite Hcls.
    apply classify_1char_inv in Hcls as Hshape.
    destruct Hshape as (c & tail & -> & Hc).
    unfold ArgLoader.load_one_1char, str_index in Hload. simpl in Hload.
    destruct (ArgLoader.try_recognize self1 _ _) as [argdesc|]; [|done].
    cbn [mbind result_bind] in Hload.
    destruct (Desc.t argdesc) as [conv|], tail as [|c' tail']; simpl in Hload.
    + destruct (ArgLoader.try_grab_next self1 _) as [[param self2]|] eqn:Hgrab;
        [|done].
      cbn [mbind result_bind] in Hload.
      destruct (ArgLoader.try_translate _ _ _) as [val|]; [|done].
      injection Hload as <-.
      apply try_grab_next_Ok in Hgrab as (Hr & Hout & Hd & Ha & Hp).
      simpl. do 2 (split; [done|]). right; left.
      split; [first [done|exact Hnp]|]. split; [done|]. split.
      * eexists _, val. split; [by rewrite Hout|by left].
      * right. exists param. by rewrite <- Hrem1.
    + injection Hload as <-. do 2 (split; [done|]). right; right.
      exists c, (String c' tail'). do 5 (split; [done|]). left. simpl.
      rewrite !remaining_insert_at_mark; [by rewrite <- Hrem1|exact Hmark1|].
      apply mark_insert_at_mark_le. exact Hmark1.
    + injection Hload as <-. do 2 (split; [done|]). right; left.
      split; [first [done|exact Hnp]|]. split; [done|].
      split; [|by left]. eexists _, _. split; [done|by left].
    + injection Hload as <-. do 2 (split; [done|]). right; right.
      exists c, (String c' tail'). do 5 (split; [done|]). right. simpl.
      rewrite !remaining_insert_at_mark; [by rewrite <- Hrem1|exact Hmark1|].
      apply mark_insert_at_mark_le. exact Hmark1.
  - (* --XXX *)
    assert (ArgLoader.classify cur <> Ok ArgLoader.Positional) as Hnp
      by by rewrite Hcls.
    apply classify_nchar_inv in Hcls as Hshape.
    destruct Hshape as (tail & -> & Htail).
    unfold ArgLoader.load_one_nchar in Hload. simpl in Hload.
    destruct (ArgLoader.try_recognize self1 _ _) as [argdesc|]; [|done].
    cbn [mbind result_bind] in Hload.
    destruct (Desc.t argdesc) as [conv|].
    + destruct (ArgLoader.try_grab_next self1 _) as [[param self2]|] eqn:Hgrab;
        [|done].
      cbn [mbind result_bind] in Hload.
      destruct (ArgLoader.try_translate _ _ _) as [val|]; [|done].
      injection Hload as <-.
      apply try_grab_next_Ok in Hgrab as (Hr & Hout & Hd & Ha & Hp).
      simpl. do 2 (split; [done|]). right; left.
      split; [first [done|exact Hnp]|]. split; [done|]. split.
      * eexists _, val. split; [by rewrite Hout|by right].
      * right. exists param. by rewrite <- Hrem1.
    + injection Hload as <-. do 2 (split; [done|]). right; left.
      split; [first [done|exact Hnp]|]. split; [done|].
      split; [|by left]. eexists _, _. split; [done|by right].
Qed.

(** ** Termination of the loop *)

Lemma string_length_pos (s : string) : s <> EmptyString -> 0 < String.length s.
Proof. destruct s; [done|]. simpl. lia. Qed.

(** Every iteration that does not raise lowers the measure. *)
Lemma load_one_measure self self' :
  ArgLoader.load_one self = Ok self' ->
  ArgLoader.measure self' < ArgLoader.measure self.
Proof.
  intros (cur & rest & Hrem & Hne & _ & _ & Hcases)%load_one_inv.
  apply string_length_pos in Hne.
  unfold ArgLoader.measure. fold (remaining (ArgLoader.ml_args self)).
  fold (remaining (ArgLoader.ml_args self')). rewrite Hrem.
  cbn [ArgLoader.weight foldr]. fold (ArgLoader.weight rest).
  destruct Hcases as [(_ & -> & _)|[(_ & _ & _ & [->|[param ->]])|Hsplice]].
  - nia.
  - nia.
  - cbn [ArgLoader.weight foldr].
    fold (ArgLoader.weight (remaining (ArgLoader.ml_args self'))). nia.
  - destruct Hsplice as (c & tail & -> & _ & Htail & _ & _ & [->| ->]);
      apply string_length_pos in Htail;
      cbn [ArgLoader.weight foldr String.length]; fold (ArgLoader.weight rest);
      nia.
Qed.

Lemma load_all_fuel_enough {order : list key} fuel self :
  ArgLoader.measure self < fuel -> is_Some (ArgLoader.load_all_fuel order fuel self).
Proof.
  revert self. induction fuel as [|fuel IH]; intros self Hlt; [lia|].
  simpl. destruct (MarkedList.nonzero _); [|by eauto].
  destruct (ArgLoader.load_one self) as [self'|e] eqn:Hone; [|by eauto].
  apply IH. apply load_one_measure in Hone. lia.
Qed.

Lemma load_all_fuel_mono {order : list key} n m self r :
  ArgLoader.load_all_fuel order n self = Some r -> n <= m ->
  ArgLoader.load_all_fuel order m self = Some r.
Proof.
  revert m self. induction n as [|n IH]; intros m self Hn Hle.
  - destruct m; [done|]. simpl in *.
    by destruct (MarkedList.nonzero _).
  - destruct m as [|m]; [lia|]. simpl in *.
    destruct (MarkedList.nonzero _); [|done].
    destruct (ArgLoader.load_one self); [|done]. apply IH; [done|lia].
Qed.

(** The loop ends: the fuel [load_all] starts with is never used up. *)
Lemma load_all_total {order : list key} self : is_Some (ArgLoader.load_all order self).
Proof. apply load_all_fuel_enough. lia. Qed.

(** The result does not depend on the fuel, once there is enough of it. *)
Lemma load_all_fuel_load_all {order : list key} n self r :
  ArgLoader.load_all_fuel order n self = Some r -> ArgLoader.load_all order self = Some r.
Proof.
  intros Hn. destruct (load_all_total (order:=order) self) as [r' Hr'].
  unfold ArgLoader.load_all in *.
  destruct (Nat.le_ge_cases n (S (ArgLoader.measure self))) as [Hle|Hge].
  - by apply (load_all_fuel_mono n).
  - pose proof (load_all_fuel_mono _ n _ _ Hr' Hge) as Hn'. congruence.
Qed.

Lemma process_total {order : list key} arg_descs args : is_Some (process order arg_descs args).
Proof.
  unfold process. destruct (ArgLoader.init arg_descs args); [|by eauto].
  apply load_all_total.
Qed.

(** The loop, one iteration at a time. *)
Lemma load_all_done {order : list key} self :
  remaining (ArgLoader.ml_args self) = [] ->
  ArgLoader.load_all order self = Some (Ok (SynoDict.to_dict order (ArgLoader.sd_out self))).
Proof.
  intros [Hnz _]%remaining_nil. apply (load_all_fuel_load_all 0). simpl.
  by rewrite Hnz.
Qed.

Lemma load_all_step {order : list key} self self' :
  ArgLoader.load_one self = Ok self' ->
  ArgLoader.load_all order self = ArgLoader.load_all order self'.
Proof.
  intros Hone. destruct (load_all_total (order:=order) self') as [r Hr]. rewrite Hr.
  apply (load_all_fuel_load_all (S (S (ArgLoader.measure self')))).
  apply load_one_inv in Hone as Hinv. destruct Hinv as (cur & rest & Hrem & _).
  apply remaining_cons in Hrem as [Hnz _].
  cbn [ArgLoader.load_all_fuel]. by rewrite Hnz, Hone.
Qed.

Lemma load_all_raise {order : list key} self e :
  MarkedList.nonzero (ArgLoader.ml_args self) = true ->
  ArgLoader.load_one self = Raise e ->
  ArgLoader.load_all order self = Some (Raise e).
Proof.
  intros Hnz Hone. apply (load_all_fuel_load_all 1). simpl.
  by rewrite Hnz, Hone.
Qed.

(** ** Setting up the two dictionaries *)

Lemma setup_name_Ok {A : Type} (sdict : SynoDict.t A) desc sdict' name :
  setup_name sdict desc = Ok (sdict', name) ->
  canonical_key desc = Some name /\
  SynoDict.items sdict' = SynoDict.items sdict /\
  forall synlist, synlist ∈ SynoDict.syns sdict' <->
    synlist ∈ SynoDict.syns sdict \/
    exists ss, Desc.n desc = Desc.NTuple ss /\ synlist = KStr <$> ss.
Proof.
  unfold setup_name, canonical_key.
  destruct (Desc.n desc) as [z|s|[|s ss]]; [| |done|]; intros [= <- <-];
    (split; [done|split; [done|]]); intros synlist; simpl.
  - split; [by left|]. by intros [?|(? & ? & _)].
  - split; [by left|]. by intros [?|(? & ? & _)].
  - rewrite elem_of_app, list_elem_of_singleton. split.
    + intros [?| ->]; [by left|]. right. by eexists.
    + intros [?|(ss' & [= <-] & ->)]; [by left|by right].
Qed.

(** Both set-up loops fail on the same schemas: those with an empty tuple
    for a name. *)
Lemma setup_name_agree {A B : Type} (sd1 : SynoDict.t A) (sd2 : SynoDict.t B)
    desc sd1' name :
  setup_name sd1 desc = Ok (sd1', name) ->
  exists sd2', setup_name sd2 desc = Ok (sd2', name).
Proof.
  unfold setup_name. destruct (Desc.n desc) as [z|s|[|s ss]]; [| |done|];
    intros [= _ <-]; by eexists.
Qed.

Lemma setup_output_loop_Ok sd1 sd2 arg_descs sd1' :
  setup_argdesc_loop sd1 arg_descs = Ok sd1' ->
  exists sd2', setup_output_loop sd2 arg_descs = Ok sd2'.
Proof.
  revert sd1 sd2. induction arg_descs as [|desc rest IH]; intros sd1 sd2; simpl.
  - by eauto.
  - destruct (setup_name sd1 desc) as [[sd1a name]|] eqn:Hname; [|done].
    destruct (setup_name_agree sd1 sd2 _ _ _ Hname) as [sd2a ->].
    cbn [mbind result_bind]. intros Hloop.
    destruct (Desc.d desc); by eapply IH.
Qed.

Lemma setup_output_loop_syns sd arg_descs sd' :
  setup_output_loop sd arg_descs = Ok sd' ->
  forall synlist, synlist ∈ SynoDict.syns sd' <->
    synlist ∈ SynoDict.syns sd \/
    exists desc ss, desc ∈ arg_descs /\ Desc.n desc = Desc.NTuple ss /\
      synlist = KStr <$> ss.
Proof.
  revert sd. induction arg_descs as [|desc rest IH]; intros sd; simpl.
  - intros [= <-] sl. split; [by left|].
    intros [?|(? & ? & Hin & _)]; [done|]. by apply elem_of_nil in Hin.
  - destruct (setup_name sd desc) as [[sda name]|] eqn:Hname; [|done].
    cbn [mbind result_bind]. intros Hloop sl.
    apply setup_name_Ok in Hname as (_ & _ & Hsyns).
    assert (sl ∈ SynoDict.syns sd' <->
            sl ∈ SynoDict.syns sda \/
            exists desc' ss, desc' ∈ rest /\ Desc.n desc' = Desc.NTuple ss /\
              sl = KStr <$> ss) as ->.
    { destruct (Desc.d desc); by apply (IH _ Hloop sl). }
    rewrite Hsyns. split.
    + intros [[?|(ss & ? & ?)]|(desc' & ss & ? & ? & ?)]; [by left| |].
      * right. exists desc, ss. split; [left|done].
      * right. exists desc', ss. split; [by right|done].
    + intros [?|(desc' & ss & Hin & ? & ?)]; [by left; left|].
      apply elem_of_cons in Hin as [->|?].
      * left; right. by exists ss.
      * right. by exists desc', ss.
Qed.

(** A recognized name means that both dictionaries were set up, and gives
    the loader [process] starts from. *)
Lemma recognized_init arg_descs name argdesc :
  recognized arg_descs name = Some argdesc ->
  exists sd_out sd_descs,
    setup_output_sdict arg_descs = Ok sd_out /\
    setup_argdesc_sdict arg_descs = Ok sd_descs /\
    SynoDict.items sd_descs !! name = Some argdesc /\
    forall args, ArgLoader.init arg_descs args =
      Ok (ArgLoader.Build (MarkedList.init args) arg_descs sd_out sd_descs 1).
Proof.
  unfold recognized, ArgLoader.init.
  destruct (setup_argdesc_sdict arg_descs) as [sdd|] eqn:Hdescs; [|done].
  intros Hlook.
  destruct (setup_output_loop_Ok _ SynoDict.init _ _ Hdescs) as [so Hout].
  exists so, sdd. unfold setup_output_sdict. rewrite Hout. done.
Qed.

(** ** The branches of [load_one], one rule each *)

Section Rules.
Variable self : ArgLoader.t.
Variable rest : list string.

Lemma load_one_positional_rule cur argdesc val :
  remaining (ArgLoader.ml_args self) = cur :: rest ->
  ArgLoader.classify cur = Ok ArgLoader.Positional ->
  SynoDict.items (ArgLoader.sd_descs self)
    !! KInt (ArgLoader.cur_positional self) = Some argdesc ->
  ArgLoader.try_translate cur argdesc (KInt (ArgLoader.cur_positional self))
    = Ok val ->
  ArgLoader.load_one self =
    Ok (ArgLoader.set_cur_positional
          (ArgLoader.set_sd_out (advance self)
             (SynoDict.setitem (ArgLoader.sd_out self)
                (KInt (ArgLoader.cur_positional self)) val))
          (ArgLoader.cur_positional self + 1)).
Proof.
  intros Hrem Hcls Hdesc Hval. rewrite (load_one_unfold _ _ _ Hrem), Hcls.
  cbn [mbind result_bind]. unfold ArgLoader.load_one_positional.
  unfold ArgLoader.try_recognize. simpl. rewrite Hdesc.
  cbn [mbind result_bind]. simpl in Hval. by rewrite Hval.
Qed.

Lemma load_one_unrecognized_slot cur :
  remaining (ArgLoader.ml_args self) = cur :: rest ->
  ArgLoader.classify cur = Ok ArgLoader.Positional ->
  SynoDict.items (ArgLoader.sd_descs self)
    !! KInt (ArgLoader.cur_positional self) = None ->
  ArgLoader.load_one self =
    Raise (RuntimeError
      (msg_not_recognized (str_of_int (ArgLoader.cur_positional self)))).
Proof.
  intros Hrem Hcls Hdesc. rewrite (load_one_unfold _ _ _ Hrem), Hcls.
  cbn [mbind result_bind]. unfold ArgLoader.load_one_positional.
  unfold ArgLoader.try_recognize. simpl. by rewrite Hdesc.
Qed.

Lemma load_one_switch_rule c argdesc :
  remaining (ArgLoader.ml_args self)
    = String "-" (String c EmptyString) :: rest ->
  c <> "-"%char ->
  SynoDict.items (ArgLoader.sd_descs self) !! KStr (String c EmptyString)
    = Some argdesc ->
  Desc.t argdesc = None ->
  ArgLoader.load_one self =
    Ok (ArgLoader.set_sd_out (advance self)
          (SynoDict.setitem (ArgLoader.sd_out self)
             (KStr (String c EmptyString)) (VBool true))).
Proof.
  intros Hrem Hc Hdesc Ht.
  rewrite (load_one_unfold _ _ _ Hrem), classify_1char by done.
  cbn [mbind result_bind]. unfold ArgLoader.load_one_1char, str_index. simpl.
  unfold ArgLoader.try_recognize. simpl. rewrite Hdesc.
  cbn [mbind result_bind]. by rewrite Ht.
Qed.

Lemma load_one_bundle_switch_rule c c' tail argdesc :
  remaining (ArgLoader.ml_args self)
    = String "-" (String c (String c' tail)) :: rest ->
  c <> "-"%char ->
  SynoDict.items (ArgLoader.sd_descs self) !! KStr (String c EmptyString)
    = Some argdesc ->
  Desc.t argdesc = None ->
  ArgLoader.load_one self =
    Ok (ArgLoader.set_ml_args (advance self)
          (MarkedList.insert_at_mark
             (MarkedList.insert_at_mark (ArgLoader.ml_args (advance self))
                (String "-" (String c' tail)))
             (String "-" (String c EmptyString)))).
Proof.
  intros Hrem Hc Hdesc Ht.
  rewrite (load_one_unfold _ _ _ Hrem), classify_1char by done.
  cbn [mbind result_bind]. unfold ArgLoader.load_one_1char, str_index. simpl.
  unfold ArgLoader.try_recognize. simpl. rewrite Hdesc.
  cbn [mbind result_bind]. by rewrite Ht.
Qed.

Lemma load_one_bundle_valued_rule c c' tail argdesc conv :
  remaining (ArgLoader.ml_args self)
    = String "-" (String c (String c' tail)) :: rest ->
  c <> "-"%char ->
  SynoDict.items (ArgLoader.sd_descs self) !! KStr (String c EmptyString)
    = Some argdesc ->
  Desc.t argdesc = Some conv ->
  ArgLoader.load_one self =
    Ok (ArgLoader.set_ml_args (advance self)
          (MarkedList.insert_at_mark
             (MarkedList.insert_at_mark (ArgLoader.ml_args (advance self))
                (String c' tail))
             (String "-" (String c EmptyString)))).
Proof.
  intros Hrem Hc Hdesc Ht.
  rewrite (load_one_unfold _ _ _ Hrem), classify_1char by done.
  cbn [mbind result_bind]. unfold ArgLoader.load_one_1char, str_index. simpl.
  unfold ArgLoader.try_recognize. simpl. rewrite Hdesc.
  cbn [mbind result_bind]. by rewrite Ht.
Qed.

Lemma load_one_valued_rule c param rest' argdesc conv :
  remaining (ArgLoader.ml_args self)
    = String "-" (String c EmptyString) :: rest ->
  rest = param :: rest' ->
  c <> "-"%char ->
  SynoDict.items (ArgLoader.sd_descs self) !! KStr (String c EmptyString)
    = Some argdesc ->
  Desc.t argdesc = Some conv ->
  ArgLoader.load_one self =
    match conv param with
    | Some val =>
        Ok (ArgLoader.set_sd_out (advance (advance self))
              (SynoDict.setitem (ArgLoader.sd_out self)
                 (KStr (String c EmptyString)) val))
    | None =>
        Raise (RuntimeError
          (msg_not_understood (String "-" (String c EmptyString)) param))
    end.
Proof.
  intros Hrem -> Hc Hdesc Ht.
  rewrite (load_one_unfold _ _ _ Hrem), classify_1char by done.
  apply remaining_cons in Hrem as (_ & _ & Hrest & _).
  cbn [mbind result_bind]. unfold ArgLoader.load_one_1char, str_index. simpl.
  unfold ArgLoader.try_recognize. simpl. rewrite Hdesc.
  cbn [mbind result_bind]. rewrite Ht.
  erewrite try_grab_next_unfold by exact Hrest.
  cbn [mbind result_bind]. unfold ArgLoader.try_translate. rewrite Ht.
  by destruct (conv param).
Qed.

Lemma load_one_long_switch_rule name argdesc :
  remaining (ArgLoader.ml_args self) = ("--" +:+ name) :: rest ->
  name <> EmptyString ->
  SynoDict.items (ArgLoader.sd_descs self) !! KStr name = Some argdesc ->
  Desc.t argdesc = None ->
  ArgLoader.load_one self =
    Ok (ArgLoader.set_sd_out (advance self)
          (SynoDict.setitem (ArgLoader.sd_out self) (KStr name) (VBool true))).
Proof.
  intros Hrem Hname Hdesc Ht.
  rewrite (load_one_unfold _ _ _ Hrem), classify_nchar by done.
  change ("--" +:+ name) with (String "-" (String "-" name)) in *.
  cbn [mbind result_bind]. unfold ArgLoader.load_one_nchar. simpl.
  unfold ArgLoader.try_recognize. simpl. rewrite Hdesc.
  cbn [mbind result_bind]. by rewrite Ht.
Qed.

Lemma load_one_long_valued_rule name param rest' argdesc conv :
  remaining (ArgLoader.ml_args self) = ("--" +:+ name) :: rest ->
  rest = param :: rest' ->
  name <> EmptyString ->
  SynoDict.items (ArgLoader.sd_descs self) !! KStr name = Some argdesc ->
  Desc.t argdesc = Some conv ->
  ArgLoader.load_one self =
    match conv param with
    | Some val =>
        Ok (ArgLoader.set_sd_out (advance (advance self))
              (SynoDict.setitem (ArgLoader.sd_out self) (KStr name) val))
    | None => Raise (RuntimeError (msg_not_understood ("--" +:+ name) param))
    end.
Proof.
  intros Hrem -> Hname Hdesc Ht.
  rewrite (load_one_unfold _ _ _ Hrem), classify_nchar by done.
  change ("--" +:+ name) with (String "-" (String "-" name)) in *.
  apply remaining_cons in Hrem as (_ & _ & Hrest & _).
  cbn [mbind result_bind]. unfold ArgLoader.load_one_nchar. simpl.
  unfold ArgLoader.try_recognize. simpl. rewrite Hdesc.
  cbn [mbind result_bind]. rewrite Ht.
  erewrite try_grab_next_unfold by exact Hrest.
  cbn [mbind result_bind]. unfold ArgLoader.try_translate. rewrite Ht.
  by destruct (conv param).
Qed.

End Rules.

Lemma setup_argdesc_loop_Ok sd1 sd2 arg_descs sd2' :
  setup_output_loop sd2 arg_descs = Ok sd2' ->
  exists sd1', setup_argdesc_loop sd1 arg_descs = Ok sd1'.
Proof.
  revert sd1 sd2. induction arg_descs as [|desc rest IH]; intros sd1 sd2; simpl.
  - by eauto.
  - destruct (setup_name sd2 desc) as [[sd2a name]|] eqn:Hname; [|done].
    destruct (setup_name_agree sd2 sd1 _ _ _ Hname) as [sd1a ->].
    cbn [mbind result_bind]. intros Hloop.
    destruct (Desc.d desc); by eapply IH.
Qed.

(** ** Parsing no token at all *)

(** With no token the loop body never runs: the result is the seeded output,
    whatever the schema asks for. *)
Lemma process_no_tokens {order : list key} arg_descs sd_out :
  setup_output_sdict arg_descs = Ok sd_out ->
  process order arg_descs [] = Some (Ok (SynoDict.to_dict order sd_out)).
Proof.
  intros Hout. unfold process, ArgLoader.init. rewrite Hout.
  destruct (setup_argdesc_loop_Ok SynoDict.init _ _ _ Hout) as [sdd Hdescs].
  unfold setup_argdesc_sdict. rewrite Hdescs. cbn [mbind result_bind].
  by apply load_all_done.
Qed.

(** ** A switch given on its own *)

Lemma switch_given_true {order : list key} arg_descs c argdesc :
  c <> "-"%char ->
  recognized arg_descs (KStr (String c EmptyString)) = Some argdesc ->
  Desc.t argdesc = None ->
  exists sd_out,
    setup_output_sdict arg_descs = Ok sd_out /\
    process order arg_descs [String "-" (String c EmptyString)] =
      Some (Ok (SynoDict.to_dict order
        (SynoDict.setitem sd_out (KStr (String c EmptyString)) (VBool true)))).
Proof.
  intros Hc (so & sdd & Hout & Hdescs & Hlook & Hinit)%recognized_init Ht.
  exists so. split; [done|]. unfold process. rewrite Hinit.
  erewrite load_all_step
    by (eapply (load_one_switch_rule _ []); [reflexivity|done..]).
  by apply load_all_done.
Qed.

(** C1, the token list [["-a"]]: the switch is bound to [True].  The token
    list [[]]: the output has no key ['a'] at all, where the docstring of
    [process] promises [False]; [setup_output_sdict] seeds declared defaults
    only, so a declared default is what the key is bound to. *)
Theorem switch_absent_when_not_given (order : list key) :
  process order [switch "a"] ["-a"] = Some (Ok {[ KStr "a" := VBool true ]}) /\
  process order [switch "a"] [] = Some (Ok ∅) /\
  (∅ : gmap key value) !! KStr "a" = None /\
  process order [switch_with_default "a" (VStr "no")] []
    = Some (Ok {[ KStr "a" := VStr "no" ]}).
Proof.
  split; [|split; [|split]].
  - destruct (switch_given_true (order:=order) [switch "a"] "a"%char (switch "a"))
      as (so & Hso & ->); [done|reflexivity|reflexivity|].
    injection Hso as <-. by rewrite to_dict_no_syns.
  - rewrite (process_no_tokens _ SynoDict.init) by reflexivity.
    by rewrite to_dict_no_syns.
  - done.
  - rewrite (process_no_tokens _
               (SynoDict.setitem SynoDict.init (KStr "a") (VStr "no")))
      by reflexivity.
    by rewrite to_dict_no_syns.
Qed.

(** C2, deleting through a registered synonym: with [('a', 'all')]
    registered and both names bound, [del sd['a']] removes ['a'], raises
    [KeyError] on meeting ['a'] a second time, and leaves ['all'] bound. *)
Theorem delitem_through_synonym_raises :
  SynoDict.items sd_a_all
    = <[ KStr "a" := VInt 1 ]> {[ KStr "all" := VInt 1 ]} /\
  SynoDict.delitem sd_a_all (KStr "a")
    = (SynoDict.Build {[ KStr "all" := VInt 1 ]} [[KStr "a"; KStr "all"]],
       Some (KeyError (KStr "a"))).
Proof. split; by vm_compute. Qed.

(** ** A value attached to its flag *)

(** C3: for a valued ['o'], the token ["-o" ++ v] with [v] non-empty parses
    as the two tokens ["-o"], [v] do; when the converter accepts [v] (as
    [str] always does) both bind ['o'] to the converted value.  The two
    parses write the same keys in the same sequence, so their dictionaries
    are iterated alike: one [order] stands for both. *)
Theorem attached_value_same_as_separate (order : list key) arg_descs argdesc conv v :
  recognized arg_descs (KStr "o") = Some argdesc ->
  Desc.t argdesc = Some conv ->
  v <> EmptyString ->
  process order arg_descs ["-o" +:+ v] = process order arg_descs ["-o"; v] /\
  (forall val, conv v = Some val ->
     exists m, process order arg_descs ["-o"; v] = Some (Ok m) /\
               m !! KStr "o" = Some val).
Proof.
  intros (so & sdd & Hout & Hdescs & Hlook & Hinit)%recognized_init Ht Hv.
  destruct v as [|c' tail]; [done|].
  change ("-o" +:+ String c' tail) with (String "-" (String "o" (String c' tail))).
  unfold process. rewrite !Hinit.
  erewrite (load_all_step (ArgLoader.Build (MarkedList.init [_]) _ _ _ _))
    by (eapply (load_one_bundle_valued_rule _ []); [reflexivity|done..]).
  set (left1 := ArgLoader.set_ml_args _ _).
  set (right0 := ArgLoader.Build (MarkedList.init ["-o"; _]) _ _ _ _).
  pose proof (load_one_valued_rule left1 [String c' tail] "o" (String c' tail) []
                argdesc conv eq_refl eq_refl ltac:(done) Hlook Ht) as Hleft.
  pose proof (load_one_valued_rule right0 [String c' tail] "o" (String c' tail) []
                argdesc conv eq_refl eq_refl ltac:(done) Hlook Ht) as Hright.
  destruct (conv (String c' tail)) as [val|] eqn:Hconv.
  - rewrite (load_all_step _ _ Hleft), (load_all_step _ _ Hright).
    rewrite !load_all_done by reflexivity. split; [done|].
    intros val' [= <-]. eexists. split; [done|].
    apply settled_to_dict, settled_setitem_self.
  - split; [|done].
    rewrite (load_all_raise left1 _ eq_refl Hleft).
    by rewrite (load_all_raise right0 _ eq_refl Hright).
Qed.

Lemma attached_value_same_as_separate_witness :
  process [] [valued "o" conv_str] ["-oval"]
    = process [] [valued "o" conv_str] ["-o"; "val"] /\
  exists m, process [] [valued "o" conv_str] ["-o"; "val"] = Some (Ok m) /\
            m !! KStr "o" = Some (VStr "val").
Proof.
  destruct (attached_value_same_as_separate [] [valued "o" conv_str]
              (valued "o" conv_str) conv_str "val") as [Heq Hval];
    [reflexivity|reflexivity|discriminate|].
  split; [exact Heq|]. apply Hval. reflexivity.
Defined.

(** ** A bundle of switches *)

(** C4: when ['a'], ['b'] and ['c'] are switches, [["-abc"]] binds each of
    them to [True].  The first iteration splices ["-a"], ["-bc"] in front of
    the mark, the third one ["-b"], ["-c"]; every spliced token is then
    resolved as a switch of its own. *)
Theorem bundled_switches_all_true (order : list key) arg_descs da db dc :
  recognized arg_descs (KStr "a") = Some da -> Desc.t da = None ->
  recognized arg_descs (KStr "b") = Some db -> Desc.t db = None ->
  recognized arg_descs (KStr "c") = Some dc -> Desc.t dc = None ->
  (exists st0 st1 st2 st3,
     ArgLoader.init arg_descs ["-abc"] = Ok st0 /\
     ArgLoader.load_one st0 = Ok st1 /\
     remaining (ArgLoader.ml_args st1) = ["-a"; "-bc"] /\
     ArgLoader.load_one st1 = Ok st2 /\
     ArgLoader.load_one st2 = Ok st3 /\
     remaining (ArgLoader.ml_args st3) = ["-b"; "-c"]) /\
  exists m,
    process order arg_descs ["-abc"] = Some (Ok m) /\
    m !! KStr "a" = Some (VBool true) /\
    m !! KStr "b" = Some (VBool true) /\
    m !! KStr "c" = Some (VBool true).
Proof.
  intros (so & sdd & Hout & Hdescs & Ha & Hinit)%recognized_init Hta Hb Htb Hc Htc.
  unfold recognized in Hb, Hc. rewrite Hdescs in Hb, Hc.
  set (st0 := ArgLoader.Build (MarkedList.init ["-abc"]) arg_descs so sdd 1).
  pose proof (load_one_bundle_switch_rule st0 [] "a" "b" "c" da
                eq_refl ltac:(done) Ha Hta) as H1.
  set (st1 := ArgLoader.set_ml_args _ _) in H1.
  pose proof (load_one_switch_rule st1 ["-bc"] "a" da
                eq_refl ltac:(done) Ha Hta) as H2.
  set (st2 := ArgLoader.set_sd_out _ _) in H2.
  pose proof (load_one_bundle_switch_rule st2 [] "b" "c" "" db
                eq_refl ltac:(done) Hb Htb) as H3.
  set (st3 := ArgLoader.set_ml_args _ _) in H3.
  pose proof (load_one_switch_rule st3 ["-c"] "b" db
                eq_refl ltac:(done) Hb Htb) as H4.
  set (st4 := ArgLoader.set_sd_out _ _) in H4.
  pose proof (load_one_switch_rule st4 [] "c" dc
                eq_refl ltac:(done) Hc Htc) as H5.
  set (st5 := ArgLoader.set_sd_out _ _) in H5.
  split.
  - exists st0, st1, st2, st3. by rewrite Hinit.
  - exists (SynoDict.to_dict order (ArgLoader.sd_out st5)). split.
    + unfold process. rewrite Hinit. fold st0.
      rewrite (load_all_step _ _ H1), (load_all_step _ _ H2),
        (load_all_step _ _ H3), (load_all_step _ _ H4), (load_all_step _ _ H5).
      by apply load_all_done.
    + change (ArgLoader.sd_out st5) with
        (SynoDict.setitem
           (SynoDict.setitem
              (SynoDict.setitem so (KStr "a") (VBool true))
              (KStr "b") (VBool true))
           (KStr "c") (VBool true)).
      split; [|split]; apply settled_to_dict.
      * do 2 apply settled_setitem_same. apply settled_setitem_self.
      * apply settled_setitem_same. apply settled_setitem_self.
      * apply settled_setitem_self.
Qed.

Lemma bundled_switches_all_true_witness :
  (exists st0 st1 st2 st3,
     ArgLoader.init [switch "a"; switch "b"; switch "c"] ["-abc"] = Ok st0 /\
     ArgLoader.load_one st0 = Ok st1 /\
     remaining (ArgLoader.ml_args st1) = ["-a"; "-bc"] /\
     ArgLoader.load_one st1 = Ok st2 /\
     ArgLoader.load_one st2 = Ok st3 /\
     remaining (ArgLoader.ml_args st3) = ["-b"; "-c"]) /\
  exists m,
    process [] [switch "a"; switch "b"; switch "c"] ["-abc"] = Some (Ok m) /\
    m !! KStr "a" = Some (VBool true) /\
    m !! KStr "b" = Some (VBool true) /\
    m !! KStr "c" = Some (VBool true).
Proof.
  exact (bundled_switches_all_true [] [switch "a"; switch "b"; switch "c"]
           (switch "a") (switch "b") (switch "c")
           eq_refl eq_refl eq_refl eq_refl eq_refl eq_refl).
Defined.

(** ** Positional slots *)

(** The registered synonyms are tuples of strings: a slot has no synonym. *)
Lemma setup_output_sdict_int_not_syn arg_descs sd synlist z :
  setup_output_sdict arg_descs = Ok sd ->
  synlist ∈ SynoDict.syns sd -> KInt z ∉ synlist.
Proof.
  intros Hsetup Hsl.
  apply (setup_output_loop_syns _ _ _ Hsetup) in Hsl
    as [Hsl|(desc & ss & _ & _ & ->)]; [by apply elem_of_nil in Hsl|].
  by intros (s & ? & _)%list_elem_of_fmap.
Qed.

Lemma lookup_setitem_slot {A : Type} (sd : SynoDict.t A) k z v :
  (forall synlist, synlist ∈ SynoDict.syns sd -> KInt z ∉ synlist) ->
  k <> KInt z ->
  SynoDict.items (SynoDict.setitem sd k v) !! KInt z
    = SynoDict.items sd !! KInt z.
Proof.
  intros Hsyns Hne. rewrite lookup_setitem, bool_decide_eq_false_2; [done|].
  intros [?|(sl & Hsl & _ & Hz)]%elem_of_getsyns; [done|]. by apply (Hsyns sl).
Qed.

(** A slot is in no list of synonyms: the copy has it as it is stored. *)
Lemma to_dict_lookup_slot {A : Type} order (sd : SynoDict.t A) z :
  (forall synlist, synlist ∈ SynoDict.syns sd -> KInt z ∉ synlist) ->
  SynoDict.to_dict order sd !! KInt z = SynoDict.items sd !! KInt z.
Proof.
  intros Hsyns. apply to_dict_lookup_alone.
  intros k0 [?|(sl & Hsl & _ & Hz)]%elem_of_getsyns; [done|].
  by destruct (Hsyns sl Hsl).
Qed.

(** The counter moves on positional tokens only, by one, and the slot
    written is the one the counter named. *)
Lemma load_one_cur_positional self self' :
  ArgLoader.load_one self = Ok self' ->
  exists cur rest,
    remaining (ArgLoader.ml_args self) = cur :: rest /\
    ((ArgLoader.classify cur = Ok ArgLoader.Positional /\
      ArgLoader.cur_positional self' = (ArgLoader.cur_positional self + 1)%Z /\
      exists val,
        ArgLoader.sd_out self' =
          SynoDict.setitem (ArgLoader.sd_out self)
            (KInt (ArgLoader.cur_positional self)) val)
     \/
     (ArgLoader.classify cur <> Ok ArgLoader.Positional /\
      ArgLoader.cur_positional self' = ArgLoader.cur_positional self)).
Proof.
  intros (cur & rest & Hrem & _ & _ & _ & Hcases)%load_one_inv.
  exists cur, rest. split; [done|].
  destruct Hcases as [(? & _ & ? & ?)|[(? & ? & _)|Hsplice]];
    [by left|by right|].
  destruct Hsplice as (c & tail & -> & Hc & _ & Hpos & _). right.
  split; [|done]. by rewrite classify_1char.
Qed.

(** C5: the positional counter starts at 1 and moves on positional tokens
    only.  With slots 1 and 2 declared without converter, two positional
    tokens [x], [y] are bound to slots 1 and 2, also when a switch token
    stands between them; a third positional token fails with the
    unrecognized-argument error when slot 3 is not declared. *)
Theorem positional_slots_in_order (order : list key) arg_descs d1 d2 x y :
  recognized arg_descs (KInt 1) = Some d1 -> Desc.t d1 = None ->
  recognized arg_descs (KInt 2) = Some d2 -> Desc.t d2 = None ->
  ArgLoader.classify x = Ok ArgLoader.Positional ->
  ArgLoader.classify y = Ok ArgLoader.Positional ->
  (exists sd_out,
     setup_output_sdict arg_descs = Ok sd_out /\
     process order arg_descs [x; y] =
       Some (Ok (SynoDict.to_dict order
         (SynoDict.setitem (SynoDict.setitem sd_out (KInt 1) (VStr x))
            (KInt 2) (VStr y))))) /\
  (exists m, process order arg_descs [x; y] = Some (Ok m) /\
     m !! KInt 1 = Some (VStr x) /\ m !! KInt 2 = Some (VStr y)) /\
  (forall z, ArgLoader.classify z = Ok ArgLoader.Positional ->
     recognized arg_descs (KInt 3) = None ->
     process order arg_descs [x; y; z] =
       Some (Raise (RuntimeError "Argument 3 not recognized!"))) /\
  (forall c dc, c <> "-"%char ->
     recognized arg_descs (KStr (String c EmptyString)) = Some dc ->
     Desc.t dc = None ->
     exists m,
       process order arg_descs [x; String "-" (String c EmptyString); y]
         = Some (Ok m) /\
       m !! KInt 1 = Some (VStr x) /\ m !! KInt 2 = Some (VStr y)) /\
  (forall args self, ArgLoader.init arg_descs args = Ok self ->
     ArgLoader.cur_positional self = 1%Z) /\
  (forall self self', ArgLoader.load_one self = Ok self' ->
     exists cur rest,
       remaining (ArgLoader.ml_args self) = cur :: rest /\
       ArgLoader.cur_positional self' =
         match ArgLoader.classify cur with
         | Ok ArgLoader.Positional => (ArgLoader.cur_positional self + 1)%Z
         | _ => ArgLoader.cur_positional self
         end).
Proof.
  intros (so & sdd & Hout & Hdescs & H1 & Hinit)%recognized_init Ht1 H2 Ht2 Hx Hy.
  unfold recognized in H2. rewrite Hdescs in H2.
  assert (forall sl z, sl ∈ SynoDict.syns so -> KInt z ∉ sl) as Hsyns.
  { intros sl z. by apply setup_output_sdict_int_not_syn with arg_descs. }
  assert (forall args, exists st2,
    ArgLoader.load_all order
      (ArgLoader.Build (MarkedList.init (x :: y :: args)) arg_descs so sdd 1)
      = ArgLoader.load_all order st2 /\
    remaining (ArgLoader.ml_args st2) = args /\
    ArgLoader.sd_descs st2 = sdd /\
    ArgLoader.cur_positional st2 = 3%Z /\
    ArgLoader.sd_out st2 =
      SynoDict.setitem (SynoDict.setitem so (KInt 1) (VStr x))
        (KInt 2) (VStr y)) as Htwo.
  { intros args.
    set (st0 := ArgLoader.Build (MarkedList.init (x :: y :: args)) _ _ _ _).
    pose proof (load_one_positional_rule st0 (y :: args) x d1 (VStr x)
                  eq_refl Hx H1) as S1.
    unfold ArgLoader.try_translate in S1. rewrite Ht1 in S1.
    specialize (S1 eq_refl). set (st1 := ArgLoader.set_cur_positional _ _) in S1.
    pose proof (load_one_positional_rule st1 args y d2 (VStr y)
                  eq_refl Hy H2) as S2.
    unfold ArgLoader.try_translate in S2. rewrite Ht2 in S2.
    specialize (S2 eq_refl). set (st2 := ArgLoader.set_cur_positional _ _) in S2.
    exists st2. by rewrite (load_all_step _ _ S1), (load_all_step _ _ S2). }
  assert (process order arg_descs [x; y] =
    Some (Ok (SynoDict.to_dict order
      (SynoDict.setitem (SynoDict.setitem so (KInt 1) (VStr x))
         (KInt 2) (VStr y))))) as Hxy.
  { unfold process. rewrite Hinit.
    destruct (Htwo []) as (st2 & -> & Hrem & _ & _ & <-).
    by apply load_all_done. }
  split; [by exists so|]. split; [|split; [|split; [|split]]].
  - eexists. split; [exact Hxy|].
    rewrite !to_dict_lookup_slot by (intros sl; apply Hsyns). split.
    + rewrite lookup_setitem_slot; [apply lookup_setitem_self| |done].
      intros sl. apply Hsyns.
    + apply lookup_setitem_self.
  - intros z Hz H3. unfold recognized in H3. rewrite Hdescs in H3.
    unfold process. rewrite Hinit.
    destruct (Htwo [z]) as (st2 & -> & Hrem & Hsdd & Hpos & _).
    apply load_all_raise; [by apply remaining_cons in Hrem as [? _]|].
    erewrite load_one_unrecognized_slot; [|exact Hrem|done|];
      rewrite Hpos; [done|]. by rewrite Hsdd.
  - intros c dc Hc Hrec Htc. unfold recognized in Hrec. rewrite Hdescs in Hrec.
    unfold process. rewrite Hinit.
    set (tok := String "-" (String c EmptyString)).
    set (st0 := ArgLoader.Build (MarkedList.init [x; tok; y]) _ _ _ _).
    pose proof (load_one_positional_rule st0 [tok; y] x d1 (VStr x)
                  eq_refl Hx H1) as S1.
    unfold ArgLoader.try_translate in S1. rewrite Ht1 in S1.
    specialize (S1 eq_refl). set (st1 := ArgLoader.set_cur_positional _ _) in S1.
    pose proof (load_one_switch_rule st1 [y] c dc eq_refl Hc Hrec Htc) as S2.
    set (st2 := ArgLoader.set_sd_out _ _) in S2.
    pose proof (load_one_positional_rule st2 [] y d2 (VStr y)
                  eq_refl Hy H2) as S3.
    unfold ArgLoader.try_translate in S3. rewrite Ht2 in S3.
    specialize (S3 eq_refl). set (st3 := ArgLoader.set_cur_positional _ _) in S3.
    rewrite (load_all_step _ _ S1), (load_all_step _ _ S2),
      (load_all_step _ _ S3), load_all_done by reflexivity.
    eexists. split; [done|].
    change (ArgLoader.sd_out st3) with
      (SynoDict.setitem
         (SynoDict.setitem (SynoDict.setitem so (KInt 1) (VStr x))
            (KStr (String c EmptyString)) (VBool true))
         (KInt 2) (VStr y)).
    rewrite !to_dict_lookup_slot by (intros sl; apply Hsyns).
    split; [|apply lookup_setitem_self].
    do 2 (rewrite lookup_setitem_slot; [|intros sl; apply Hsyns|done]).
    apply lookup_setitem_self.
  - intros args self. rewrite Hinit. by intros [= <-].
  - intros self self' (cur & rest & Hrem & Hcases)%load_one_cur_positional.
    exists cur, rest. split; [done|].
    destruct Hcases as [(-> & -> & _)|(Hnp & ->)]; [done|].
    by destruct (ArgLoader.classify cur) as [[]|].
Qed.

Lemma positional_slots_in_order_witness :
  process [] [positional 1; positional 2] ["x"; "y"]
    = Some (Ok (<[ KInt 1 := VStr "x" ]> {[ KInt 2 := VStr "y" ]})) /\
  (exists m, process [] [positional 1; positional 2] ["x"; "y"] = Some (Ok m) /\
     m !! KInt 1 = Some (VStr "x") /\ m !! KInt 2 = Some (VStr "y")) /\
  process [] [positional 1; positional 2] ["x"; "y"; "z"]
    = Some (Raise (RuntimeError "Argument 3 not recognized!")).
Proof.
  destruct (positional_slots_in_order [] [positional 1; positional 2]
              (positional 1) (positional 2) "x" "y")
    as (_ & Hxy & Hthird & _); try reflexivity.
  split; [reflexivity|]. split; [exact Hxy|].
  apply (Hthird "z"); reflexivity.
Defined.

(** ** The synonyms of the output dictionary *)

(** The synonyms the output dictionary finds for a key are linked to it by
    the schema. *)
Lemma getsyns_linked arg_descs sd_out k0 k :
  setup_output_sdict arg_descs = Ok sd_out ->
  k ∈ SynoDict.getsyns sd_out k0 -> linked arg_descs k0 k.
Proof.
  intros Hsetup [->|(sl & Hsl & Hk0 & Hk)]%elem_of_getsyns; [by left|]. right.
  apply (setup_output_loop_syns _ _ _ Hsetup) in Hsl
    as [Hsl|(desc & ss & ? & ? & ->)]; [by apply elem_of_nil in Hsl|].
  by exists desc, ss.
Qed.


(** ** The errors of the scan *)

Lemma classify_Raise cur e :
  ArgLoader.classify cur = Raise e -> e = IndexError /\ cur = EmptyString.
Proof.
  destruct (decide (cur = EmptyString)) as [->|Hne]; [by intros [= <-]|].
  destruct (classify_total cur Hne) as [cls ->]. done.
Qed.

Lemma try_recognize_Raise self name print_name e :
  ArgLoader.try_recognize self name print_name = Raise e -> scan_error e.
Proof.
  unfold ArgLoader.try_recognize.
  destruct (SynoDict.items _ !! name); [done|]. intros [= <-]. left. by eexists.
Qed.

Lemma try_translate_Raise param argdesc name e :
  ArgLoader.try_translate param argdesc name = Raise e -> scan_error e.
Proof.
  unfold ArgLoader.try_translate.
  destruct (Desc.t argdesc) as [conv|]; [|done].
  destruct (conv param); [done|]. intros [= <-]. right; right. by eexists _, _.
Qed.

Lemma try_grab_next_Raise self name e :
  ArgLoader.try_grab_next self name = Raise e -> scan_error e.
Proof.
  unfold ArgLoader.try_grab_next.
  destruct (MarkedList.nonzero _) eqn:Hnz.
  - destruct (get_nonzero _ Hnz) as (tok & ml & ->). done.
  - intros [= <-]. right; left. by eexists.
Qed.

(** An iteration raises one of the three errors of the scan, or
    [IndexError] on the empty token. *)
Lemma load_one_Raise self cur rest e :
  remaining (ArgLoader.ml_args self) = cur :: rest ->
  ArgLoader.load_one self = Raise e ->
  scan_error e \/ (e = IndexError /\ cur = EmptyString).
Proof.
  intros Hrem. rewrite (load_one_unfold _ _ _ Hrem).
  destruct (ArgLoader.classify cur) as [cls|e'] eqn:Hcls.
  2:{ intros [= <-]. right. by apply classify_Raise. }
  cbn [mbind result_bind]. set (self1 := ArgLoader.set_ml_args self _).
  intros Hraise. left. destruct cls.
  - unfold ArgLoader.load_one_positional in Hraise.
    destruct (ArgLoader.try_recognize self1 _ _) as [argdesc|e1] eqn:Hrec.
    2:{ injection Hraise as <-. by eapply try_recognize_Raise. }
    cbn [mbind result_bind] in Hraise.
    destruct (ArgLoader.try_translate _ _ _) as [val|e1] eqn:Htr; [done|].
    injection Hraise as <-. by eapply try_translate_Raise.
  - apply classify_1char_inv in Hcls as (c & tail & -> & Hc).
    unfold ArgLoader.load_one_1char, str_index in Hraise. simpl in Hraise.
    destruct (ArgLoader.try_recognize self1 _ _) as [argdesc|e1] eqn:Hrec.
    2:{ injection Hraise as <-. by eapply try_recognize_Raise. }
    cbn [mbind result_bind] in Hraise.
    destruct (Desc.t argdesc) as [conv|], tail as [|c' tail'];
      simpl in Hraise; try done.
    destruct (ArgLoader.try_grab_next self1 _) as [[param self2]|e1] eqn:Hgrab.
    2:{ injection Hraise as <-. by eapply try_grab_next_Raise. }
    cbn [mbind result_bind] in Hraise.
    destruct (ArgLoader.try_translate _ _ _) as [val|e1] eqn:Htr; [done|].
    injection Hraise as <-. by eapply try_translate_Raise.
  - unfold ArgLoader.load_one_nchar in Hraise.
    destruct (ArgLoader.try_recognize self1 _ _) as [argdesc|e1] eqn:Hrec.
    2:{ injection Hraise as <-. by eapply try_recognize_Raise. }
    cbn [mbind result_bind] in Hraise.
    destruct (Desc.t argdesc) as [conv|]; [|done].
    destruct (ArgLoader.try_grab_next self1 _) as [[param self2]|e1] eqn:Hgrab.
    2:{ injection Hraise as <-. by eapply try_grab_next_Raise. }
    cbn [mbind result_bind] in Hraise.
    destruct (ArgLoader.try_translate _ _ _) as [val|e1] eqn:Htr; [done|].
    injection Hraise as <-. by eapply try_translate_Raise.
Qed.

(** The tokens ahead of the mark stay non-empty through an iteration: what a
    splice puts there is never the empty string. *)
Lemma load_one_nonempty self self' :
  Forall (fun tok => tok <> EmptyString) (remaining (ArgLoader.ml_args self)) ->
  ArgLoader.load_one self = Ok self' ->
  Forall (fun tok => tok <> EmptyString) (remaining (ArgLoader.ml_args self')).
Proof.
  intros Hall (cur & rest & Hrem & _ & _ & _ & Hcases)%load_one_inv.
  rewrite Hrem in Hall. apply Forall_cons in Hall as [_ Hrest].
  destruct Hcases as [(_ & -> & _)|[(_ & _ & _ & [->|[param ->]])|Hsplice]];
    [done|done|by apply Forall_cons in Hrest as [_ ?]|].
  destruct Hsplice as (c & tail & _ & _ & Htail & _ & _ & [->| ->]);
    by repeat (apply Forall_cons; split; [done|]).
Qed.

Lemma load_all_fuel_Raise {order : list key} fuel self e :
  ArgLoader.load_all_fuel order fuel self = Some (Raise e) ->
  scan_error e \/
  (e = IndexError /\
   ~ Forall (fun tok => tok <> EmptyString) (remaining (ArgLoader.ml_args self))).
Proof.
  revert self. induction fuel as [|fuel IH]; intros self; simpl.
  - by destruct (MarkedList.nonzero _).
  - destruct (MarkedList.nonzero _) eqn:Hnz; [|done].
    apply nonzero_true_remaining in Hnz as (cur & rest & Hrem).
    destruct (ArgLoader.load_one self) as [self'|e'] eqn:Hone.
    + intros [?|[-> Hne]]%IH; [by left|]. right. split; [done|].
      intros Hall. apply Hne. by eapply load_one_nonempty.
    + intros [= <-].
      destruct (load_one_Raise _ _ _ _ Hrem Hone) as [?|[-> ->]]; [by left|].
      right. split; [done|]. rewrite Hrem.
      by intros [? _]%Forall_cons.
Qed.

(** ** The fields the parse reads *)










(** ** The keys a token list can write *)








(** ** Termination *)

(** What a splice leaves in front of the mark: the flag on its own and the
    rest of the bundle, shorter than the token that was split. *)
Lemma load_one_splice_shortens self self' cur rest :
  remaining (ArgLoader.ml_args self) = cur :: rest ->
  ArgLoader.load_one self = Ok self' ->
  length rest < length (remaining (ArgLoader.ml_args self')) ->
  exists c tail second,
    cur = String "-" (String c tail) /\ tail <> EmptyString /\
    remaining (ArgLoader.ml_args self')
      = String "-" (String c EmptyString) :: second :: rest /\
    (second = tail \/ second = String "-" tail) /\
    String.length second + 1 <= String.length cur.
Proof.
  intros Hrem (cur' & rest' & Hrem' & _ & _ & _ & Hcases)%load_one_inv Hlen.
  rewrite Hrem in Hrem'. injection Hrem' as <- <-.
  destruct Hcases as [(_ & Hr & _)|[(_ & _ & _ & [Hr|[param Hr]])|Hsplice]].
  - rewrite Hr in Hlen. lia.
  - rewrite Hr in Hlen. lia.
  - rewrite Hr in Hlen. simpl in Hlen. lia.
  - destruct Hsplice as (c & tail & -> & _ & Htail & _ & _ & [Hr|Hr]);
      eexists c, tail, _; (split; [done|]); (split; [done|]);
      (split; [exact Hr|]); simpl; (split; [by eauto|lia]).
Qed.

(** C9: the parse loop terminates, for every schema and every token list.
    [process] always returns; an iteration that does not raise lowers the
    measure of the tokens ahead of the mark; a splice puts back the flag and a
    remainder at least one character shorter than the bundle; and the loop
    returns exactly when the cursor is exhausted, going round once more
    otherwise. *)
Theorem parse_loop_terminates (order : list key) arg_descs args :
  is_Some (process order arg_descs args) /\
  (forall self self', ArgLoader.load_one self = Ok self' ->
     ArgLoader.measure self' < ArgLoader.measure self) /\
  (forall self self' cur rest,
     remaining (ArgLoader.ml_args self) = cur :: rest ->
     ArgLoader.load_one self = Ok self' ->
     length rest < length (remaining (ArgLoader.ml_args self')) ->
     exists c tail second,
       cur = String "-" (String c tail) /\ tail <> EmptyString /\
       remaining (ArgLoader.ml_args self')
         = String "-" (String c EmptyString) :: second :: rest /\
       (second = tail \/ second = String "-" tail) /\
       String.length second + 1 <= String.length cur) /\
  (forall self, MarkedList.nonzero (ArgLoader.ml_args self) = false ->
     ArgLoader.load_all order self
       = Some (Ok (SynoDict.to_dict order (ArgLoader.sd_out self)))) /\
  (forall self, MarkedList.nonzero (ArgLoader.ml_args self) = true ->
     ArgLoader.load_all order self =
       match ArgLoader.load_one self with
       | Ok self' => ArgLoader.load_all order self'
       | Raise e => Some (Raise e)
       end) /\
  (forall fuel self r, ArgLoader.load_all_fuel order fuel self = Some r ->
     ArgLoader.load_all order self = Some r).
Proof.
  split; [apply process_total|]. split; [apply load_one_measure|].
  split; [apply load_one_splice_shortens|]. split; [|split].
  - intros self Hnz. apply (load_all_fuel_load_all 0). simpl. by rewrite Hnz.
  - intros self Hnz.
    destruct (ArgLoader.load_one self) as [self'|e] eqn:Hone.
    + by apply load_all_step.
    + by apply load_all_raise.
  - apply load_all_fuel_load_all.
Qed.

Lemma parse_loop_terminates_witness :
  is_Some (process [] [switch "a"; switch "b"; switch "c"] ["-abc"]) /\
  ArgLoader.measure
    (ArgLoader.Build (MarkedList.Build ["-abc"; "-a"; "-bc"] 1)
       [switch "a"] SynoDict.init (SynoDict.Build {[ KStr "a" := switch "a" ]} []) 1)
  < ArgLoader.measure
      (ArgLoader.Build (MarkedList.Build ["-abc"] 0)
         [switch "a"] SynoDict.init (SynoDict.Build {[ KStr "a" := switch "a" ]} []) 1).
Proof.
  destruct (parse_loop_terminates [] [switch "a"; switch "b"; switch "c"] ["-abc"])
    as (Hsome & Hdecr & _).
  split; [exact Hsome|]. apply Hdecr. reflexivity.
Defined.

(** ** The empty token *)

(** C10 as stated fails: [["-o", ""]] holds the empty string, which the
    valued flag grabs as its value; the classifier never sees it and the
    parse returns a mapping. *)
Lemma empty_token_need_not_raise :
  ~ (forall order arg_descs args,
       EmptyString ∈ args ->
       process order arg_descs args = Some (Raise IndexError)).
Proof.
  intros Hall.
  specialize (Hall [] [valued "o" conv_str] ["-o"; ""] ltac:(right; left)).
  vm_compute in Hall. discriminate.
Qed.

Lemma load_one_empty_token self rest :
  remaining (ArgLoader.ml_args self) = EmptyString :: rest ->
  ArgLoader.load_one self = Raise IndexError.
Proof. intros Hrem. by rewrite (load_one_unfold _ _ _ Hrem). Qed.

(** C10, amended: the classifier reads the first character unguarded, so the
    parse raises [IndexError], which is none of the three errors of the scan,
    whenever the token the loop pulls for classification is the empty string,
    as it is when the token list starts with it.  When all tokens are
    non-empty every token the classifier meets is, the spliced ones included,
    and no [IndexError] is raised. *)
Theorem empty_token_classification (order : list key) arg_descs args self :
  ArgLoader.init arg_descs args = Ok self ->
  (forall cur, ArgLoader.classify cur = Raise IndexError <-> cur = EmptyString) /\
  (forall st rest,
     remaining (ArgLoader.ml_args st) = EmptyString :: rest ->
     ArgLoader.load_one st = Raise IndexError /\
     ArgLoader.load_all order st = Some (Raise IndexError)) /\
  (forall rest, args = EmptyString :: rest ->
     process order arg_descs args = Some (Raise IndexError)) /\
  ~ scan_error IndexError /\
  (Forall (fun tok => tok <> EmptyString) args ->
   process order arg_descs args <> Some (Raise IndexError) /\
   forall fuel st,
     Forall (fun tok => tok <> EmptyString) (remaining (ArgLoader.ml_args st)) ->
     ArgLoader.load_all_fuel order fuel st <> Some (Raise IndexError)).
Proof.
  intros Hinit.
  assert (~ scan_error IndexError) as Hnot.
  { by intros [[? ?]|[[? ?]|(? & ? & ?)]]. }
  assert (forall st rest,
     remaining (ArgLoader.ml_args st) = EmptyString :: rest ->
     ArgLoader.load_one st = Raise IndexError /\
     ArgLoader.load_all order st = Some (Raise IndexError)) as Hempty.
  { intros st rest Hrem. pose proof (load_one_empty_token _ _ Hrem) as Hone.
    split; [done|]. apply load_all_raise; [|done].
    by apply remaining_cons in Hrem as [? _]. }
  assert (forall fuel st,
     Forall (fun tok => tok <> EmptyString) (remaining (ArgLoader.ml_args st)) ->
     ArgLoader.load_all_fuel order fuel st <> Some (Raise IndexError)) as Hfuel.
  { intros fuel st Hall [?|[_ Hne]]%load_all_fuel_Raise; [by apply Hnot|].
    by apply Hne. }
  split; [apply classify_IndexError_iff|]. split; [exact Hempty|].
  split; [|split; [exact Hnot|]].
  - intros rest ->. unfold process. rewrite Hinit.
    apply (Hempty self rest).
    unfold ArgLoader.init in Hinit.
    destruct (setup_output_sdict arg_descs); [|done].
    destruct (setup_argdesc_sdict arg_descs); [|done].
    by injection Hinit as <-.
  - intros Hall. split; [|exact Hfuel].
    unfold process. rewrite Hinit. apply Hfuel.
    unfold ArgLoader.init in Hinit.
    destruct (setup_output_sdict arg_descs); [|done].
    destruct (setup_argdesc_sdict arg_descs); [|done].
    by injection Hinit as <-.
Qed.

Lemma empty_token_classification_witness :
  process [] [switch "a"] [""; "-a"] = Some (Raise IndexError) /\
  process [] [switch "a"] ["-a"] <> Some (Raise IndexError).
Proof.
  split.
  - destruct (empty_token_classification [] [switch "a"] [""; "-a"]
      (ArgLoader.Build (MarkedList.init [""; "-a"]) [switch "a"] SynoDict.init
         (SynoDict.Build {[ KStr "a" := switch "a" ]} []) 1))
      as (_ & _ & Hfirst & _); [reflexivity|].
    by apply (Hfirst ["-a"]).
  - destruct (empty_token_classification [] [switch "a"] ["-a"]
      (ArgLoader.Build (MarkedList.init ["-a"]) [switch "a"] SynoDict.init
         (SynoDict.Build {[ KStr "a" := switch "a" ]} []) 1))
      as (_ & _ & _ & _ & Hnonempty); [reflexivity|].
    destruct Hnonempty as [Hrun _]; [|exact Hrun].
    apply Forall_cons. split; [discriminate|apply Forall_nil_2].
Defined.

(** * Further properties of the code *)

(** ** MarkedList: reading and splicing *)

(** X1: [get_silently] returns what [get] returns; [__nonzero__] holds
    exactly when there is a token to return; [get] then moves the mark by
    one and keeps the list, and past the end it returns [None] and changes
    nothing. *)
Theorem get_follows_nonzero (ml : MarkedList.t) :
  (MarkedList.get ml).1 = MarkedList.get_silently ml /\
  (MarkedList.nonzero ml = true <-> is_Some (MarkedList.get_silently ml)) /\
  (MarkedList.nonzero ml = true ->
     (MarkedList.get ml).2
       = MarkedList.Build (MarkedList.lst ml) (MarkedList.mark ml + 1)) /\
  (MarkedList.nonzero ml = false -> MarkedList.get ml = (None, ml)).
Proof.
  unfold MarkedList.get, MarkedList.get_silently, MarkedList.nonzero.
  destruct (decide (MarkedList.mark ml < length (MarkedList.lst ml))) as [Hlt|Hge].
  - rewrite (bool_decide_eq_true_2 _ Hlt).
    rewrite bool_decide_eq_false_2 by lia.
    split; [done|]. split; [|done].
    split; [|done]. intros _. by apply lookup_lt_is_Some_2.
  - rewrite (bool_decide_eq_false_2 _ Hge).
    rewrite bool_decide_eq_true_2 by lia.
    split; [done|]. split; [|done].
    split; [done|]. by intros [? ?].
Qed.

(** X2: two tokens inserted at the mark, [y] first and [x] second, are read
    back [x] first and [y] second, before the tokens that were pending; the
    tokens already read and the mark are left alone. *)
Theorem inserted_tokens_read_first (ml : MarkedList.t) (x y : string) :
  MarkedList.mark ml <= length (MarkedList.lst ml) ->
  MarkedList.mark (MarkedList.insert_at_mark (MarkedList.insert_at_mark ml y) x)
    = MarkedList.mark ml /\
  take (MarkedList.mark ml)
       (MarkedList.lst
          (MarkedList.insert_at_mark (MarkedList.insert_at_mark ml y) x))
    = take (MarkedList.mark ml) (MarkedList.lst ml) /\
  remaining (MarkedList.insert_at_mark (MarkedList.insert_at_mark ml y) x)
    = x :: y :: remaining ml /\
  exists ml1 ml2,
    MarkedList.get (MarkedList.insert_at_mark (MarkedList.insert_at_mark ml y) x)
      = (Some x, ml1) /\
    MarkedList.get ml1 = (Some y, ml2) /\
    remaining ml2 = remaining ml.
Proof.
  intros Hle. split; [done|].
  pose proof (mark_insert_at_mark_le ml y Hle) as Hle1.
  assert (remaining (MarkedList.insert_at_mark (MarkedList.insert_at_mark ml y) x)
          = x :: y :: remaining ml) as Hrem.
  { by rewrite !remaining_insert_at_mark. }
  split; [|split; [done|]].
  - assert (forall (z : string) (l : list string) i, i <= length l ->
      take i (list_insert_at i z l) = take i l) as Htake.
    { intros z l i Hl. unfold list_insert_at.
      rewrite take_app_length'; [done|]. rewrite length_take. lia. }
    unfold MarkedList.insert_at_mark in *. simpl in *.
    by rewrite !Htake.
  - apply remaining_cons in Hrem as (_ & Hget & Hrest & _).
    eexists _, _. split; [exact Hget|].
    set (ml1 := MarkedList.Build _ _) in *.
    assert (remaining ml1 = y :: remaining ml) as Hrem1 by done.
    apply remaining_cons in Hrem1 as (_ & Hget1 & Hrest1 & _).
    split; [exact Hget1|]. exact Hrest1.
Qed.

Lemma inserted_tokens_read_first_witness :
  exists ml1 ml2,
    MarkedList.get
      (MarkedList.insert_at_mark
         (MarkedList.insert_at_mark (MarkedList.Build ["-ab"; "z"] 1) "-b") "-a")
      = (Some "-a", ml1) /\
    MarkedList.get ml1 = (Some "-b", ml2) /\
    remaining ml2 = ["z"].
Proof.
  destruct (inserted_tokens_read_first (MarkedList.Build ["-ab"; "z"] 1)
              "-a" "-b") as (_ & _ & _ & Hread); [simpl; lia|].
  exact Hread.
Defined.

(** ** SynoDict: writes and deletions *)

(** X3: after [sd[k] = v], a key reads [v] when it is [k] or shares a
    registered list with [k], and reads what it read before otherwise; the
    registered lists are unchanged.  Sharing is not chained: a key that only
    shares a list with a synonym of [k] is left alone. *)
Theorem setitem_writes_exactly_the_synonyms {A : Type} (sd : SynoDict.t A)
    (k k' : key) (v : A) :
  ((k' = k \/
    exists synlist, synlist ∈ SynoDict.syns sd /\ k ∈ synlist /\ k' ∈ synlist) ->
   SynoDict.items (SynoDict.setitem sd k v) !! k' = Some v) /\
  (~ (k' = k \/
      exists synlist, synlist ∈ SynoDict.syns sd /\ k ∈ synlist /\ k' ∈ synlist) ->
   SynoDict.items (SynoDict.setitem sd k v) !! k' = SynoDict.items sd !! k') /\
  SynoDict.syns (SynoDict.setitem sd k v) = SynoDict.syns sd.
Proof.
  split; [|split; [|done]]; intros Hk; rewrite lookup_setitem.
  - rewrite bool_decide_eq_true_2; [done|]. by apply elem_of_getsyns.
  - rewrite bool_decide_eq_false_2; [done|]. by rewrite elem_of_getsyns.
Qed.

Lemma delitem_loop_singleton {A : Type} (m : gmap key A) (k : key) :
  SynoDict.delitem_loop m [k] =
    match m !! k with
    | Some _ => (delete k m, None)
    | None => (m, Some (KeyError k))
    end.
Proof. simpl. by destruct (m !! k). Qed.

Lemma getsyns_plain {A : Type} (sd : SynoDict.t A) (k : key) :
  (forall synlist, synlist ∈ SynoDict.syns sd -> k ∉ synlist) ->
  SynoDict.getsyns sd k = [k].
Proof.
  unfold SynoDict.getsyns. generalize [k] as acc.
  induction (SynoDict.syns sd) as [|sl reg IH]; intros acc Hplain; [done|].
  simpl. rewrite bool_decide_eq_false_2 by (apply Hplain; left).
  apply IH. intros sl' Hin. apply Hplain. by right.
Qed.

(** X4: a key that is in no registered list behaves as in a plain [dict]:
    writing it is an insertion, deleting it removes it when it is bound and
    raises [KeyError] on it, changing nothing, when it is not. *)
Theorem plain_key_as_in_dict {A : Type} (sd : SynoDict.t A) (k : key) (v : A) :
  (forall synlist, synlist ∈ SynoDict.syns sd -> k ∉ synlist) ->
  SynoDict.items (SynoDict.setitem sd k v) = <[k := v]> (SynoDict.items sd) /\
  SynoDict.delitem sd k =
    match SynoDict.items sd !! k with
    | Some _ =>
        (SynoDict.Build (delete k (SynoDict.items sd)) (SynoDict.syns sd), None)
    | None => (SynoDict.Build (SynoDict.items sd) (SynoDict.syns sd),
               Some (KeyError k))
    end.
Proof.
  intros Hplain. unfold SynoDict.setitem, SynoDict.delitem.
  rewrite (getsyns_plain sd k Hplain). split; [done|].
  rewrite delitem_loop_singleton. by destruct (SynoDict.items sd !! k).
Qed.

Lemma plain_key_as_in_dict_witness :
  SynoDict.items (SynoDict.setitem sd_a_all (KInt 1) (VStr "x"))
    = <[KInt 1 := VStr "x"]> (SynoDict.items sd_a_all) /\
  SynoDict.delitem sd_a_all (KInt 1)
    = (SynoDict.Build (SynoDict.items sd_a_all) (SynoDict.syns sd_a_all),
       Some (KeyError (KInt 1))).
Proof.
  apply (plain_key_as_in_dict sd_a_all (KInt 1) (VStr "x")).
  intros synlist Hin. apply list_elem_of_singleton in Hin as ->.
  intros Hk. apply elem_of_cons in Hk as [?|Hk]; [done|].
  by apply list_elem_of_singleton in Hk.
Defined.

(** X5: a second write through the same key replaces the first one
    entirely, and two writes of one value commute. *)
Theorem setitem_overwrites_and_commutes {A : Type} (sd : SynoDict.t A)
    (k k1 k2 : key) (v1 v2 v : A) :
  SynoDict.setitem (SynoDict.setitem sd k v1) k v2 = SynoDict.setitem sd k v2 /\
  SynoDict.setitem (SynoDict.setitem sd k1 v) k2 v
    = SynoDict.setitem (SynoDict.setitem sd k2 v) k1 v.
Proof.
  assert (forall (s1 s2 : SynoDict.t A),
    SynoDict.syns s1 = SynoDict.syns s2 ->
    (forall k', SynoDict.items s1 !! k' = SynoDict.items s2 !! k') -> s1 = s2)
    as Hext.
  { intros [m1 r1] [m2 r2]; simpl. intros -> Hm. f_equal. by apply map_eq. }
  assert (forall (s : SynoDict.t A) a b w,
    SynoDict.getsyns (SynoDict.setitem s a w) b = SynoDict.getsyns s b) as Hget
    by done.
  split; apply Hext; try done; intros k'; rewrite !lookup_setitem, !Hget;
    repeat case_bool_decide; done.
Qed.

Lemma delitem_loop_subseteq {A : Type} (m : gmap key A) (to_del : list key) :
  (SynoDict.delitem_loop m to_del).1 ⊆ m.
Proof.
  revert m. induction to_del as [|k rest IH]; intros m; simpl; [done|].
  destruct (m !! k); [|done].
  etrans; [apply IH|]. apply delete_subseteq.
Qed.

(** X6: deleting through a key of a registered list never completes:
    [__getsyns] names the key twice, so a [KeyError] is always raised.  The
    key itself is unbound afterwards and no key has been added, but its
    synonyms may still be bound. *)
Theorem delitem_registered_key_always_raises {A : Type} (sd : SynoDict.t A)
    (synlist : list key) (k : key) :
  synlist ∈ SynoDict.syns sd -> k ∈ synlist ->
  (exists k', (SynoDict.delitem sd k).2 = Some (KeyError k')) /\
  SynoDict.items (SynoDict.delitem sd k).1 !! k = None /\
  SynoDict.items (SynoDict.delitem sd k).1 ⊆ SynoDict.items sd /\
  SynoDict.syns (SynoDict.delitem sd k).1 = SynoDict.syns sd.
Proof.
  intros Hreg Hk. split; [by eapply delitem_registered_raises|].
  unfold SynoDict.delitem.
  pose proof (delitem_loop_subseteq (SynoDict.items sd) (SynoDict.getsyns sd k))
    as Hsub.
  assert ((SynoDict.delitem_loop (SynoDict.items sd) (SynoDict.getsyns sd k)).1
            !! k = None) as Hgone.
  { unfold SynoDict.getsyns. rewrite getsyns_loop_app. simpl.
    destruct (SynoDict.items sd !! k) eqn:Hlook; [|done].
    eapply lookup_weaken_None; [|apply delitem_loop_subseteq].
    apply lookup_delete_eq. }
  by destruct (SynoDict.delitem_loop _ _).
Qed.

Lemma delitem_registered_key_always_raises_witness :
  (exists k', (SynoDict.delitem sd_a_all (KStr "all")).2 = Some (KeyError k')) /\
  SynoDict.items (SynoDict.delitem sd_a_all (KStr "all")).1 !! KStr "all" = None.
Proof.
  destruct (delitem_registered_key_always_raises sd_a_all
              [KStr "a"; KStr "all"] (KStr "all")) as (Hraise & Hgone & _).
  - left.
  - right. left.
  - by split.
Defined.

(** ** The copy [to_dict] returns *)

(** X21: [to_dict] does not hand back the stored dictionary: it writes every
    stored item again through [__setitem__], in iteration order.  Whatever
    that order is, the items iterated are the stored ones, each once, and
    any arrangement of them is the iteration of some order; a key is missing
    from the copy exactly when no stored key has it among its synonyms; a
    value of the copy is the stored value of a key that has the key among
    its synonyms; a key whose synonyms all hold one value has that value in
    the copy; and when every stored value is also stored under all the
    synonyms of its key, the copy is the stored dictionary.  Otherwise the
    copy differs: when [('b', 'a')] is registered after ['a'] was bound, the
    copy binds ['b'] as well; and with [('c', 'a')], [('k', 'a')] and
    [('b', 'k')] registered and ['a'], ['c'] holding ['V'] while ['k'],
    ['b'] hold [True], the copy made in the order a, c, k, b binds ['a'] to
    [True], the one made in the order k, a, c, b binds it to ['V']. *)
Theorem to_dict_writes_items_again (order : list key) (sd : SynoDict.t value) :
  SynoDict.iteritems order (SynoDict.items sd) ≡ₚ map_to_list (SynoDict.items sd) /\
  (forall l, l ≡ₚ map_to_list (SynoDict.items sd) ->
     SynoDict.iteritems l.*1 (SynoDict.items sd) = l) /\
  (forall k, SynoDict.to_dict order sd !! k = None <->
     forall k0, k ∈ SynoDict.getsyns sd k0 -> SynoDict.items sd !! k0 = None) /\
  (forall k v, SynoDict.to_dict order sd !! k = Some v ->
     exists k0, SynoDict.items sd !! k0 = Some v /\ k ∈ SynoDict.getsyns sd k0) /\
  (forall k v, settled sd k v -> SynoDict.to_dict order sd !! k = Some v) /\
  ((forall k0 v0 k, SynoDict.items sd !! k0 = Some v0 ->
      k ∈ SynoDict.getsyns sd k0 -> SynoDict.items sd !! k = Some v0) ->
   SynoDict.to_dict order sd = SynoDict.items sd) /\
  (let sd1 := SynoDict.register
                (SynoDict.setitem SynoDict.init (KStr "a") (VInt 1))
                [KStr "b"; KStr "a"] in
   SynoDict.items sd1 !! KStr "b" = None /\
   SynoDict.to_dict order sd1 !! KStr "b" = Some (VInt 1)) /\
  (let sd2 := SynoDict.Build
                (<[ KStr "a" := VStr "V" ]> (<[ KStr "c" := VStr "V" ]>
                   (<[ KStr "k" := VBool true ]> {[ KStr "b" := VBool true ]})))
                [[KStr "c"; KStr "a"]; [KStr "k"; KStr "a"];
                 [KStr "b"; KStr "k"]] in
   SynoDict.to_dict [KStr "a"; KStr "c"; KStr "k"; KStr "b"] sd2 !! KStr "a"
     = Some (VBool true) /\
   SynoDict.to_dict [KStr "k"; KStr "a"; KStr "c"; KStr "b"] sd2 !! KStr "a"
     = Some (VStr "V")).
Proof.
  split; [apply iteritems_Permutation|]. split; [intros l; apply iteritems_any|].
  split; [apply to_dict_lookup_None|]. split; [apply to_dict_lookup_Some|].
  split; [apply settled_to_dict|]. split; [apply to_dict_consistent|].
  split; [|split; by vm_compute].
  split; [done|]. apply to_dict_lookup_agreed.
  - exists (KStr "a"). split; [exists (VInt 1); reflexivity|].
    apply elem_of_getsyns. right. exists [KStr "b"; KStr "a"].
    split; [left|]. split; [right; left|left].
  - intros k0 v0 Hv0 _.
    change (({[ KStr "a" := VInt 1 ]} : gmap key value) !! k0 = Some v0) in Hv0.
    by apply lookup_singleton_Some in Hv0 as [_ <-].
Qed.

(** ** The two dictionaries of a schema *)

Lemma setup_name_Raise {A : Type} (sd : SynoDict.t A) desc e :
  setup_name sd desc = Raise e ->
  e = IndexError /\ Desc.n desc = Desc.NTuple [].
Proof.
  unfold setup_name. destruct (Desc.n desc) as [z|s|[|s ss]]; try done.
  by intros [= <-].
Qed.

Lemma setup_argdesc_loop_Raise sd arg_descs e :
  setup_argdesc_loop sd arg_descs = Raise e ->
  e = IndexError /\
  exists desc, desc ∈ arg_descs /\ Desc.n desc = Desc.NTuple [].
Proof.
  revert sd. induction arg_descs as [|desc rest IH]; intros sd; simpl; [done|].
  destruct (setup_name sd desc) as [[sda name]|e'] eqn:Hname.
  - cbn [mbind result_bind]. intros (-> & desc' & Hin & Hn)%IH.
    split; [done|]. exists desc'. split; [by right|done].
  - intros [= <-]. apply setup_name_Raise in Hname as [-> Hn].
    split; [done|]. exists desc. split; [left|done].
Qed.

Lemma setup_argdesc_loop_no_empty sd arg_descs sd' desc :
  setup_argdesc_loop sd arg_descs = Ok sd' ->
  desc ∈ arg_descs -> Desc.n desc <> Desc.NTuple [].
Proof.
  revert sd. induction arg_descs as [|d0 rest IH]; intros sd; simpl.
  - intros _ Hin. by apply elem_of_nil in Hin.
  - destruct (setup_name sd d0) as [[sda name]|] eqn:Hname; [|done].
    cbn [mbind result_bind]. intros Hloop Hin.
    apply elem_of_cons in Hin as [->|Hin]; [|by eapply IH].
    unfold setup_name in Hname. intros Hn. by rewrite Hn in Hname.
Qed.

(** X7: a schema can be set up exactly when no descriptor has the empty
    tuple for a name.  With such a descriptor both set-up functions raise
    [IndexError], and so does [process], whatever the tokens. *)
Theorem empty_synonym_tuple_raises (order : list key) (arg_descs : list Desc.argdesc) :
  ((exists desc, desc ∈ arg_descs /\ Desc.n desc = Desc.NTuple []) ->
   setup_argdesc_sdict arg_descs = Raise IndexError /\
   setup_output_sdict arg_descs = Raise IndexError /\
   forall args, process order arg_descs args = Some (Raise IndexError)) /\
  (~ (exists desc, desc ∈ arg_descs /\ Desc.n desc = Desc.NTuple []) ->
   exists sd_descs sd_out,
     setup_argdesc_sdict arg_descs = Ok sd_descs /\
     setup_output_sdict arg_descs = Ok sd_out).
Proof.
  destruct (setup_argdesc_sdict arg_descs) as [sdd|e] eqn:Hdescs.
  - destruct (setup_output_loop_Ok _ SynoDict.init _ _ Hdescs) as [so Hout].
    split; [|by eauto].
    intros (desc & Hin & Hn).
    by destruct (setup_argdesc_loop_no_empty _ _ _ _ Hdescs Hin).
  - apply setup_argdesc_loop_Raise in Hdescs as Hwhy.
    destruct Hwhy as [-> Hex]. split; [|done]. intros _.
    assert (setup_output_sdict arg_descs = Raise IndexError) as Hout.
    { destruct (setup_output_sdict arg_descs) as [so|e] eqn:Hout.
      - destruct (setup_argdesc_loop_Ok SynoDict.init _ _ _ Hout) as [sdd Hok].
        unfold setup_argdesc_sdict in Hdescs. congruence.
      - f_equal. destruct (setup_output_sdict arg_descs) eqn:Hagain; [done|].
        injection Hout as ->.
        unfold setup_output_sdict in Hagain.
        clear -Hagain. revert Hagain. generalize (@SynoDict.init value).
        induction arg_descs as [|d0 rest IH]; intros sd; simpl; [done|].
        destruct (setup_name sd d0) as [[sda name]|e'] eqn:Hname.
        + cbn [mbind result_bind]. destruct (Desc.d d0); apply IH.
        + intros [= <-]. by apply setup_name_Raise in Hname as [-> _]. }
    split; [done|]. split; [done|]. intros args.
    unfold process, ArgLoader.init. by rewrite Hout.
Qed.

Lemma setup_argdesc_loop_syns sd arg_descs sd' :
  setup_argdesc_loop sd arg_descs = Ok sd' ->
  forall synlist, synlist ∈ SynoDict.syns sd' <->
    synlist ∈ SynoDict.syns sd \/
    exists desc ss, desc ∈ arg_descs /\ Desc.n desc = Desc.NTuple ss /\
      synlist = KStr <$> ss.
Proof.
  revert sd. induction arg_descs as [|desc rest IH]; intros sd; simpl.
  - intros [= <-] sl. split; [by left|].
    intros [?|(? & ? & Hin & _)]; [done|]. by apply elem_of_nil in Hin.
  - destruct (setup_name sd desc) as [[sda name]|] eqn:Hname; [|done].
    cbn [mbind result_bind]. intros Hloop sl.
    apply setup_name_Ok in Hname as (_ & _ & Hsyns).
    rewrite (IH _ Hloop sl). simpl. rewrite Hsyns. split.
    + intros [[?|(ss & ? & ?)]|(desc' & ss & ? & ? & ?)]; [by left| |].
      * right. exists desc, ss. split; [left|done].
      * right. exists desc', ss. split; [by right|done].
    + intros [?|(desc' & ss & Hin & ? & ?)]; [by left; left|].
      apply elem_of_cons in Hin as [->|?].
      * left; right. by exists ss.
      * right. by exists desc', ss.
Qed.

Lemma setup_argdesc_loop_sound sd arg_descs sd' k d :
  setup_argdesc_loop sd arg_descs = Ok sd' ->
  SynoDict.items sd' !! k = Some d ->
  SynoDict.items sd !! k = Some d \/
  (d ∈ arg_descs /\
   exists name, canonical_key d = Some name /\
     (name = k \/
      exists synlist, synlist ∈ SynoDict.syns sd' /\
        name ∈ synlist /\ k ∈ synlist)).
Proof.
  revert sd. induction arg_descs as [|desc rest IH]; intros sd; simpl.
  - intros [= <-] ?. by left.
  - destruct (setup_name sd desc) as [[sda name]|] eqn:Hname; [|done].
    cbn [mbind result_bind]. intros Hloop Hk.
    apply setup_name_Ok in Hname as (Hcan & Hitems & Hsyns).
    destruct (IH _ Hloop Hk) as [Hold|(Hin & name' & ? & ?)].
    + rewrite lookup_setitem in Hold. case_bool_decide as Hsyn.
      * injection Hold as <-. right. split; [left|]. exists name.
        split; [done|]. apply elem_of_getsyns in Hsyn as [->|(sl & ? & ? & ?)];
          [by left|]. right. exists sl. split; [|done].
        apply (setup_argdesc_loop_syns _ _ _ Hloop). by left.
      * left. by rewrite <- Hitems.
    + right. split; [by right|]. by exists name'.
Qed.

(** X8: what [sd_descs] holds under a key is always a descriptor of the
    schema, and the key is that descriptor's canonical name or shares a tuple
    of synonyms with it. *)
Theorem recognized_descriptor_is_declared (arg_descs : list Desc.argdesc)
    (k : key) (d : Desc.argdesc) :
  recognized arg_descs k = Some d ->
  d ∈ arg_descs /\
  exists name, canonical_key d = Some name /\ linked arg_descs name k.
Proof.
  unfold recognized.
  destruct (setup_argdesc_sdict arg_descs) as [sdd|] eqn:Hdescs; [|done].
  intros Hk.
  destruct (setup_argdesc_loop_sound _ _ _ _ _ Hdescs Hk)
    as [Hinit|(Hin & name & Hcan & Hlink)]; [done|].
  split; [done|]. exists name. split; [done|].
  destruct Hlink as [->|(sl & Hsl & Hname & Hksl)]; [by left|]. right.
  apply (setup_argdesc_loop_syns _ _ _ Hdescs) in Hsl
    as [Hsl|(desc & ss & ? & ? & ->)]; [by apply elem_of_nil in Hsl|].
  by exists desc, ss.
Qed.

Lemma recognized_descriptor_is_declared_witness :
  switch_a_all ∈ [switch "v"; switch_a_all] /\
  exists name, canonical_key switch_a_all = Some name /\
    linked [switch "v"; switch_a_all] name (KStr "all").
Proof.
  apply (recognized_descriptor_is_declared [switch "v"; switch_a_all]
           (KStr "all") switch_a_all).
  reflexivity.
Defined.

Lemma setup_name_declares {A : Type} (sd sda : SynoDict.t A) desc name k :
  setup_name sd desc = Ok (sda, name) ->
  declares desc k -> k ∈ SynoDict.getsyns sda name.
Proof.
  unfold setup_name, declares.
  destruct (Desc.n desc) as [z|s|[|s ss]]; try done; intros [= <- <-].
  - intros ->. apply elem_of_getsyns. by left.
  - intros ->. apply elem_of_getsyns. by left.
  - intros Hk. apply elem_of_getsyns. right. exists (KStr <$> s :: ss).
    split; [|split; [left|done]]. simpl. apply elem_of_app. right. left.
Qed.

Lemma setup_argdesc_loop_keeps sd arg_descs sd' k :
  setup_argdesc_loop sd arg_descs = Ok sd' ->
  is_Some (SynoDict.items sd !! k) -> is_Some (SynoDict.items sd' !! k).
Proof.
  revert sd. induction arg_descs as [|desc rest IH]; intros sd; simpl.
  - by intros [= <-].
  - destruct (setup_name sd desc) as [[sda name]|] eqn:Hname; [|done].
    cbn [mbind result_bind]. intros Hloop Hk. apply (IH _ Hloop).
    apply setup_name_Ok in Hname as (_ & Hitems & _).
    destruct (lookup_setitem_cases sda name desc k) as [->| ->]; [done|].
    by rewrite Hitems.
Qed.

Lemma setup_argdesc_loop_app sd pre post :
  setup_argdesc_loop sd (pre ++ post) =
    sd1 ← setup_argdesc_loop sd pre; setup_argdesc_loop sd1 post.
Proof.
  revert sd. induction pre as [|desc rest IH]; intros sd; simpl; [done|].
  destruct (setup_name sd desc) as [[sda name]|]; [|done].
  cbn [mbind result_bind]. apply IH.
Qed.

Lemma setup_output_loop_app sd pre post :
  setup_output_loop sd (pre ++ post) =
    sd1 ← setup_output_loop sd pre; setup_output_loop sd1 post.
Proof.
  revert sd. induction pre as [|desc rest IH]; intros sd; simpl; [done|].
  destruct (setup_name sd desc) as [[sda name]|]; [|done].
  cbn [mbind result_bind]. destruct (Desc.d desc); apply IH.
Qed.

(** X9: once the schema is set up, every key a descriptor declares (its
    slot, its name, each of its synonyms) is recognized, and the keys of the
    last descriptor of the list resolve to that descriptor. *)
Theorem declared_names_are_recognized (arg_descs : list Desc.argdesc)
    (sd_descs : SynoDict.t Desc.argdesc) :
  setup_argdesc_sdict arg_descs = Ok sd_descs ->
  (forall k, declared arg_descs k -> is_Some (recognized arg_descs k)) /\
  (forall pre desc k, arg_descs = pre ++ [desc] -> declares desc k ->
     recognized arg_descs k = Some desc).
Proof.
  intros Hsetup. unfold recognized. rewrite Hsetup. split.
  - intros k (desc & Hin & Hk).
    apply list_elem_of_split in Hin as (pre & post & ->).
    unfold setup_argdesc_sdict in Hsetup.
    rewrite setup_argdesc_loop_app in Hsetup.
    destruct (setup_argdesc_loop SynoDict.init pre) as [sd1|]; [|done].
    cbn [mbind result_bind] in Hsetup. simpl in Hsetup.
    destruct (setup_name sd1 desc) as [[sda name]|] eqn:Hname; [|done].
    cbn [mbind result_bind] in Hsetup.
    apply (setup_argdesc_loop_keeps _ _ _ _ Hsetup).
    rewrite lookup_setitem, bool_decide_eq_true_2; [done|].
    by eapply setup_name_declares.
  - intros pre desc k -> Hk.
    unfold setup_argdesc_sdict in Hsetup.
    rewrite setup_argdesc_loop_app in Hsetup.
    destruct (setup_argdesc_loop SynoDict.init pre) as [sd1|]; [|done].
    cbn [mbind result_bind] in Hsetup. simpl in Hsetup.
    destruct (setup_name sd1 desc) as [[sda name]|] eqn:Hname; [|done].
    cbn [mbind result_bind] in Hsetup. injection Hsetup as <-.
    rewrite lookup_setitem, bool_decide_eq_true_2; [done|].
    by eapply setup_name_declares.
Qed.

Lemma declared_names_are_recognized_witness :
  recognized [switch "v"; switch_a_all] (KStr "all") = Some switch_a_all /\
  is_Some (recognized [switch "v"; switch_a_all] (KStr "v")).
Proof.
  destruct (declared_names_are_recognized [switch "v"; switch_a_all]
              (SynoDict.setitem
                 (SynoDict.register
                    (SynoDict.setitem SynoDict.init (KStr "v") (switch "v"))
                    [KStr "a"; KStr "all"])
                 (KStr "a") switch_a_all))
    as [Hall Hlast]; [reflexivity|].
  split.
  - apply (Hlast [switch "v"]); [reflexivity|]. right. left.
  - apply Hall. exists (switch "v"). split; [left|reflexivity].
Defined.

Lemma setup_output_loop_sound sd arg_descs sd' k v :
  setup_output_loop sd arg_descs = Ok sd' ->
  SynoDict.items sd' !! k = Some v ->
  SynoDict.items sd !! k = Some v \/
  exists desc name, desc ∈ arg_descs /\ Desc.d desc = Some v /\
    canonical_key desc = Some name /\
    (name = k \/
     exists synlist, synlist ∈ SynoDict.syns sd' /\
       name ∈ synlist /\ k ∈ synlist).
Proof.
  revert sd. induction arg_descs as [|desc rest IH]; intros sd; simpl.
  - intros [= <-] ?. by left.
  - destruct (setup_name sd desc) as [[sda name]|] eqn:Hname; [|done].
    cbn [mbind result_bind]. intros Hloop Hk.
    apply setup_name_Ok in Hname as (Hcan & Hitems & Hsyns).
    assert (forall sd1, setup_output_loop sd1 rest = Ok sd' ->
      SynoDict.items sd1 !! k = Some v \/
      exists desc0 name0, desc0 ∈ desc :: rest /\ Desc.d desc0 = Some v /\
        canonical_key desc0 = Some name0 /\
        (name0 = k \/
         exists synlist, synlist ∈ SynoDict.syns sd' /\
           name0 ∈ synlist /\ k ∈ synlist)) as Hrest.
    { intros sd1 Hloop1.
      destruct (IH _ Hloop1 Hk) as [?|(d0 & n0 & ? & ? & ? & ?)]; [by left|].
      right. exists d0, n0. split; [by right|done]. }
    destruct (Desc.d desc) as [dflt|] eqn:Hd.
    + destruct (Hrest _ Hloop) as [Hold|?]; [|by right].
      rewrite lookup_setitem in Hold. case_bool_decide as Hsyn.
      * injection Hold as <-. right. exists desc, name.
        split; [left|]. split; [done|]. split; [done|].
        apply elem_of_getsyns in Hsyn as [->|(sl & ? & ? & ?)]; [by left|].
        right. exists sl. split; [|done].
        apply (setup_output_loop_syns _ _ _ Hloop). by left.
      * left. by rewrite <- Hitems.
    + destruct (Hrest _ Hloop) as [Hold|?]; [|by right].
      left. by rewrite <- Hitems.
Qed.

(** X10: the output starts from the declared defaults and nothing else.
    Parsing no token returns the copy of the seeded dictionary.  Every value
    stored by the set-up is the ['d'] of a descriptor whose canonical name is
    the key or shares a tuple of synonyms with it, and the default of the
    last descriptor is stored under each key that descriptor declares.  The
    copy writes each stored value again under the synonyms registered by
    then: every value of the returned mapping is the ['d'] of a descriptor
    whose canonical name is joined to the key by a chain of tuples, and the
    default of the last descriptor is returned under its canonical name. *)
Theorem defaults_seed_the_output (order : list key) (arg_descs : list Desc.argdesc)
    (sd_out : SynoDict.t value) :
  setup_output_sdict arg_descs = Ok sd_out ->
  process order arg_descs [] = Some (Ok (SynoDict.to_dict order sd_out)) /\
  (forall k v, SynoDict.items sd_out !! k = Some v ->
     exists desc name, desc ∈ arg_descs /\ Desc.d desc = Some v /\
       canonical_key desc = Some name /\ linked arg_descs name k) /\
  (forall pre desc v k, arg_descs = pre ++ [desc] ->
     Desc.d desc = Some v -> declares desc k ->
     SynoDict.items sd_out !! k = Some v) /\
  (forall k v, SynoDict.to_dict order sd_out !! k = Some v ->
     exists desc name, desc ∈ arg_descs /\ Desc.d desc = Some v /\
       canonical_key desc = Some name /\ connected arg_descs name k) /\
  (forall pre desc v k, arg_descs = pre ++ [desc] ->
     Desc.d desc = Some v -> canonical_key desc = Some k ->
     SynoDict.to_dict order sd_out !! k = Some v).
Proof.
  intros Hsetup.
  assert (forall k v, SynoDict.items sd_out !! k = Some v ->
     exists desc name, desc ∈ arg_descs /\ Desc.d desc = Some v /\
       canonical_key desc = Some name /\ linked arg_descs name k) as Hseeds.
  { intros k v Hk.
    destruct (setup_output_loop_sound _ _ _ _ _ Hsetup Hk)
      as [Hinit|(desc & name & Hin & Hd & Hcan & Hlink)]; [done|].
    exists desc, name. do 3 (split; [done|]).
    destruct Hlink as [->|(sl & Hsl & Hname & Hksl)]; [by left|]. right.
    apply (setup_output_loop_syns _ _ _ Hsetup) in Hsl
      as [Hsl|(desc' & ss & ? & ? & ->)]; [by apply elem_of_nil in Hsl|].
    by exists desc', ss. }
  split; [by apply process_no_tokens|]. split; [exact Hseeds|].
  split; [|split].
  - intros pre desc v k -> Hd Hk.
    unfold setup_output_sdict in Hsetup.
    rewrite setup_output_loop_app in Hsetup.
    destruct (setup_output_loop SynoDict.init pre) as [sd1|]; [|done].
    cbn [mbind result_bind] in Hsetup. simpl in Hsetup.
    destruct (setup_name sd1 desc) as [[sda name]|] eqn:Hname; [|done].
    cbn [mbind result_bind] in Hsetup. rewrite Hd in Hsetup.
    injection Hsetup as <-.
    rewrite lookup_setitem, bool_decide_eq_true_2; [done|].
    by eapply setup_name_declares.
  - intros k v (k0 & Hk0 & Hin)%to_dict_lookup_Some.
    destruct (Hseeds _ _ Hk0) as (desc & name & ? & ? & ? & Hlink).
    exists desc, name. do 3 (split; [done|]).
    apply rtc_r with k0; [by apply rtc_once|].
    by apply (getsyns_linked arg_descs sd_out).
  - intros pre desc v k -> Hd Hk.
    unfold setup_output_sdict in Hsetup.
    rewrite setup_output_loop_app in Hsetup.
    destruct (setup_output_loop SynoDict.init pre) as [sd1|]; [|done].
    cbn [mbind result_bind] in Hsetup. simpl in Hsetup.
    destruct (setup_name sd1 desc) as [[sda name]|] eqn:Hname; [|done].
    cbn [mbind result_bind] in Hsetup. rewrite Hd in Hsetup.
    injection Hsetup as <-.
    apply setup_name_Ok in Hname as (Hcan & _). rewrite Hk in Hcan.
    injection Hcan as <-. apply settled_to_dict, settled_setitem_self.
Qed.

Lemma defaults_seed_the_output_witness :
  process [] [switch "v"; switch_with_default "a" (VStr "no")] []
    = Some (Ok {[ KStr "a" := VStr "no" ]}) /\
  process [] [switch_with_default "a" (VInt 1);
              Desc.Build (Desc.NTuple ["b"; "a"]) None None None None None] []
    = Some (Ok (<[ KStr "a" := VInt 1 ]> {[ KStr "b" := VInt 1 ]})).
Proof.
  split.
  - destruct (defaults_seed_the_output []
                [switch "v"; switch_with_default "a" (VStr "no")]
                (SynoDict.setitem SynoDict.init (KStr "a") (VStr "no")))
      as [Hrun _]; [reflexivity|].
    exact Hrun.
  - destruct (defaults_seed_the_output []
                [switch_with_default "a" (VInt 1);
                 Desc.Build (Desc.NTuple ["b"; "a"]) None None None None None]
                (SynoDict.register
                   (SynoDict.setitem SynoDict.init (KStr "a") (VInt 1))
                   [KStr "b"; KStr "a"]))
      as [Hrun _]; [reflexivity|].
    exact Hrun.
Defined.

(** ** The tokens already read do not matter *)

Lemma try_grab_next_pending t1 t2 name :
  same_pending t1 t2 ->
  (exists e, ArgLoader.try_grab_next t1 name = Raise e /\
             ArgLoader.try_grab_next t2 name = Raise e) \/
  (exists param u1 u2,
     ArgLoader.try_grab_next t1 name = Ok (param, u1) /\
     ArgLoader.try_grab_next t2 name = Ok (param, u2) /\
     same_pending u1 u2).
Proof.
  intros (Hrem & Hout & Hdescs & Hpos).
  destruct (remaining (ArgLoader.ml_args t2)) as [|param rest] eqn:Hrem2.
  - left. eexists. by rewrite !try_grab_next_exhausted.
  - right. eexists param, _, _.
    rewrite (try_grab_next_unfold t1 name param rest Hrem).
    rewrite (try_grab_next_unfold t2 name param rest Hrem2).
    do 2 (split; [done|]).
    apply remaining_cons in Hrem as (_ & _ & Hr1 & _).
    apply remaining_cons in Hrem2 as (_ & _ & Hr2 & _).
    split; [|done]. unfold remaining. simpl. by rewrite Hr1, Hr2.
Qed.

Lemma insert_twice_pending t1 t2 x y :
  same_pending t1 t2 ->
  MarkedList.mark (ArgLoader.ml_args t1)
    <= length (MarkedList.lst (ArgLoader.ml_args t1)) ->
  MarkedList.mark (ArgLoader.ml_args t2)
    <= length (MarkedList.lst (ArgLoader.ml_args t2)) ->
  same_pending
    (ArgLoader.set_ml_args t1
       (MarkedList.insert_at_mark
          (MarkedList.insert_at_mark (ArgLoader.ml_args t1) y) x))
    (ArgLoader.set_ml_args t2
       (MarkedList.insert_at_mark
          (MarkedList.insert_at_mark (ArgLoader.ml_args t2) y) x)).
Proof.
  intros (Hrem & Hout & Hdescs & Hpos) H1 H2. split; [|done]. simpl.
  rewrite !remaining_insert_at_mark;
    [by rewrite Hrem|done|by apply mark_insert_at_mark_le|done
    |by apply mark_insert_at_mark_le].
Qed.

(** Loaders that agree on what is ahead take the same step. *)
Lemma load_one_pending s1 s2 :
  same_pending s1 s2 ->
  result_rel same_pending (ArgLoader.load_one s1) (ArgLoader.load_one s2).
Proof.
  intros Hsame. pose proof Hsame as (Hrem & Hout & Hdescs & Hpos).
  destruct (remaining (ArgLoader.ml_args s2)) as [|cur rest] eqn:Hrem2.
  { apply remaining_nil in Hrem as [_ Hget1].
    apply remaining_nil in Hrem2 as [_ Hget2].
    unfold ArgLoader.load_one. by rewrite Hget1, Hget2. }
  rewrite (load_one_unfold s1 cur rest Hrem), (load_one_unfold s2 cur rest Hrem2).
  apply remaining_cons in Hrem as (_ & _ & Hr1 & Hm1).
  apply remaining_cons in Hrem2 as (_ & _ & Hr2 & Hm2).
  cbv zeta. fold (advance s1). fold (advance s2).
  assert (same_pending (advance s1) (advance s2)) as Hadv.
  { split; [|done]. unfold remaining. simpl. by rewrite Hr1, Hr2. }
  assert (MarkedList.mark (ArgLoader.ml_args (advance s1))
          <= length (MarkedList.lst (ArgLoader.ml_args (advance s1)))) as Ha1
    by done.
  assert (MarkedList.mark (ArgLoader.ml_args (advance s2))
          <= length (MarkedList.lst (ArgLoader.ml_args (advance s2)))) as Ha2
    by done.
  generalize dependent (advance s1). generalize dependent (advance s2).
  clear. intros t2 Ha2 t1 Hadv Ha1.
  pose proof Hadv as (Hrem & Hout & Hdescs & Hpos).
  destruct (ArgLoader.classify cur) as [[]|]; cbn [mbind result_bind]; [| | |done].
  - unfold ArgLoader.load_one_positional, ArgLoader.try_recognize.
    rewrite Hdescs, Hpos.
    destruct (SynoDict.items _ !! _) as [argdesc|]; [|done].
    cbn [mbind result_bind].
    destruct (ArgLoader.try_translate _ _ _); [|done].
    cbn [mbind result_bind result_rel]. rewrite Hout.
    split; [|split; [|split]]; simpl; congruence.
  - unfold ArgLoader.load_one_1char.
    destruct (str_index (str_from 1 cur) 0) as [focus|]; [|done].
    cbn [mbind result_bind]. unfold ArgLoader.try_recognize. rewrite Hdescs.
    destruct (SynoDict.items _ !! _) as [argdesc|]; [|done].
    cbn [mbind result_bind].
    destruct (Desc.t argdesc) as [conv|] eqn:Ht; destruct (Nat.eqb _ 1).
    + destruct (try_grab_next_pending t1 t2 ("-" +:+ focus) Hadv)
        as [(e & -> & ->)|(param & u1 & u2 & -> & -> & Hu)]; [done|].
      cbn [mbind result_bind].
      destruct (ArgLoader.try_translate _ _ _); [|done].
      cbn [mbind result_bind result_rel].
      destruct Hu as (? & Hou & ? & ?). rewrite Hou.
      split; [|split; [|split]]; simpl; congruence.
    + by apply insert_twice_pending.
    + cbn [result_rel]. rewrite Hout.
      split; [|split; [|split]]; simpl; congruence.
    + by apply insert_twice_pending.
  - unfold ArgLoader.load_one_nchar, ArgLoader.try_recognize. rewrite Hdescs.
    destruct (SynoDict.items _ !! _) as [argdesc|]; [|done].
    cbn [mbind result_bind].
    destruct (Desc.t argdesc) as [conv|] eqn:Ht.
    + destruct (try_grab_next_pending t1 t2 ("--" +:+ str_from 2 cur) Hadv)
        as [(e & -> & ->)|(param & u1 & u2 & -> & -> & Hu)]; [done|].
      cbn [mbind result_bind].
      destruct (ArgLoader.try_translate _ _ _); [|done].
      cbn [mbind result_bind result_rel].
      destruct Hu as (? & Hou & ? & ?). rewrite Hou.
      split; [|split; [|split]]; simpl; congruence.
    + cbn [result_rel]. rewrite Hout.
      split; [|split; [|split]]; simpl; congruence.
Qed.

Lemma load_all_fuel_pending {order : list key} fuel s1 s2 :
  same_pending s1 s2 ->
  ArgLoader.load_all_fuel order fuel s1 = ArgLoader.load_all_fuel order fuel s2.
Proof.
  revert s1 s2. induction fuel as [|fuel IH]; intros s1 s2 Hsame;
    pose proof Hsame as (Hrem & Hout & _); simpl; rewrite Hout;
    (assert (MarkedList.nonzero (ArgLoader.ml_args s1)
             = MarkedList.nonzero (ArgLoader.ml_args s2)) as ->;
     [destruct (remaining (ArgLoader.ml_args s2)) as [|tok rest] eqn:Hrem2;
      [apply remaining_nil in Hrem as [-> _];
       by apply remaining_nil in Hrem2 as [-> _]
      |apply remaining_cons in Hrem as [-> _];
       by apply remaining_cons in Hrem2 as [-> _]]|]); [done|].
  destruct (MarkedList.nonzero _); [|done].
  pose proof (load_one_pending _ _ Hsame) as Hone.
  destruct (ArgLoader.load_one s1), (ArgLoader.load_one s2); try done.
  - by apply IH.
  - simpl in Hone. by subst.
Qed.

Lemma load_all_pending {order : list key} s1 s2 :
  same_pending s1 s2 -> ArgLoader.load_all order s1 = ArgLoader.load_all order s2.
Proof.
  intros Hsame. unfold ArgLoader.load_all, ArgLoader.measure.
  fold (remaining (ArgLoader.ml_args s1)). fold (remaining (ArgLoader.ml_args s2)).
  destruct Hsame as (Hrem & Hrest). rewrite Hrem.
  apply load_all_fuel_pending. by split.
Qed.

(** ** Bundles, in front of any tokens *)

(** X11: a token ["-" ++ c ++ more] with [more] non-empty parses as its two
    halves given as separate tokens, whatever follows: ["-c"] and
    ["-" ++ more] when [c] is a switch, ["-c"] and [more] when [c] takes a
    value.  The two parses write the same keys in the same sequence, so
    their dictionaries are iterated alike: one [order] stands for both. *)
Theorem bundle_parses_as_its_halves (order : list key) (arg_descs : list Desc.argdesc)
    (c c' : ascii) (tail : string) (rest : list string) (d : Desc.argdesc) :
  c <> "-"%char ->
  recognized arg_descs (KStr (String c EmptyString)) = Some d ->
  process order arg_descs (String "-" (String c (String c' tail)) :: rest) =
  process order arg_descs
    (String "-" (String c EmptyString)
     :: match Desc.t d with
        | Some _ => String c' tail
        | None => String "-" (String c' tail)
        end
     :: rest).
Proof.
  intros Hc (so & sdd & Hout & Hdescs & Hlook & Hinit)%recognized_init.
  unfold process. rewrite !Hinit.
  destruct (Desc.t d) as [conv|] eqn:Ht.
  - erewrite load_all_step
      by (eapply (load_one_bundle_valued_rule _ rest); [reflexivity|done..]).
    by apply load_all_pending.
  - erewrite load_all_step
      by (eapply (load_one_bundle_switch_rule _ rest); [reflexivity|done..]).
    by apply load_all_pending.
Qed.

Lemma bundle_parses_as_its_halves_witness :
  process [] [switch "a"; valued "o" conv_str] ["-aoval"; "x"]
    = process [] [switch "a"; valued "o" conv_str] ["-a"; "-oval"; "x"] /\
  process [] [switch "a"; valued "o" conv_str] ["-oval"; "x"]
    = process [] [switch "a"; valued "o" conv_str] ["-o"; "val"; "x"].
Proof.
  split.
  - apply (bundle_parses_as_its_halves [] [switch "a"; valued "o" conv_str]
             "a" "o" "val" ["x"] (switch "a")); [discriminate|reflexivity].
  - apply (bundle_parses_as_its_halves [] [switch "a"; valued "o" conv_str]
             "o" "v" "al" ["x"] (valued "o" conv_str));
      [discriminate|reflexivity].
Defined.

(** ** A flag on its own: recognized or not, with or without its value *)

Lemma classify_flag_for name flag :
  flag_for name flag ->
  ArgLoader.classify flag = Ok ArgLoader.OneChar /\
    (exists c, flag = String "-" (String c EmptyString) /\ c <> "-"%char /\
               name = String c EmptyString) \/
  ArgLoader.classify flag = Ok ArgLoader.NChar /\
    flag = String "-" (String "-" name) /\ name <> EmptyString.
Proof.
  intros [[-> Hne]|(c & -> & Hc & ->)].
  - right. split; [by apply (classify_nchar name)|done].
  - left. split; [by apply classify_1char|]. by exists c.
Qed.

Lemma load_one_flag_unrecognized self flag name rest :
  remaining (ArgLoader.ml_args self) = flag :: rest ->
  flag_for name flag ->
  SynoDict.items (ArgLoader.sd_descs self) !! KStr name = None ->
  ArgLoader.load_one self = Raise (RuntimeError (msg_not_recognized flag)).
Proof.
  intros Hrem Hflag Hlook. rewrite (load_one_unfold _ _ _ Hrem).
  destruct (classify_flag_for _ _ Hflag)
    as [(-> & c & -> & Hc & ->)|(-> & -> & Hne)]; cbn [mbind result_bind].
  - unfold ArgLoader.load_one_1char, str_index, ArgLoader.try_recognize. simpl.
    by rewrite Hlook.
  - unfold ArgLoader.load_one_nchar, ArgLoader.try_recognize. simpl.
    by rewrite Hlook.
Qed.

Lemma load_one_flag_valued self flag name rest d conv :
  remaining (ArgLoader.ml_args self) = flag :: rest ->
  flag_for name flag ->
  SynoDict.items (ArgLoader.sd_descs self) !! KStr name = Some d ->
  Desc.t d = Some conv ->
  ArgLoader.load_one self =
    match rest with
    | [] => Raise (RuntimeError (msg_no_value flag))
    | param :: _ =>
        match conv param with
        | Some val =>
            Ok (ArgLoader.set_sd_out (advance (advance self))
                  (SynoDict.setitem (ArgLoader.sd_out self) (KStr name) val))
        | None => Raise (RuntimeError (msg_not_understood flag param))
        end
    end.
Proof.
  intros Hrem Hflag Hlook Ht.
  destruct rest as [|param rest'].
  - rewrite (load_one_unfold _ _ _ Hrem).
    apply remaining_cons in Hrem as (_ & _ & Hrest & _).
    destruct (classify_flag_for _ _ Hflag)
      as [(-> & c & -> & Hc & ->)|(-> & -> & Hne)]; cbn [mbind result_bind].
    + unfold ArgLoader.load_one_1char, str_index, ArgLoader.try_recognize.
      simpl. rewrite Hlook. cbn [mbind result_bind]. rewrite Ht.
      by rewrite try_grab_next_exhausted.
    + unfold ArgLoader.load_one_nchar, ArgLoader.try_recognize. simpl.
      rewrite Hlook. cbn [mbind result_bind]. rewrite Ht.
      by rewrite try_grab_next_exhausted.
  - destruct Hflag as [[-> Hne]|(c & -> & Hc & ->)].
    + by apply (load_one_long_valued_rule self (param :: rest') name param rest' d).
    + by apply (load_one_valued_rule self (param :: rest') c param rest' d).
Qed.

(** X12: a valued flag, short or long, takes the token after it as its
    value without looking at its form.  With no token after it the parse
    fails with the couldn't-grab-value error naming the flag; with a token
    the converter accepts, the name is bound to the converted value; with one
    it rejects, the parse fails with the error naming the flag and the
    token. *)
Theorem valued_flag_takes_the_next_token (order : list key) (arg_descs : list Desc.argdesc)
    (name flag : string) (d : Desc.argdesc) (conv : string -> option value) :
  flag_for name flag ->
  recognized arg_descs (KStr name) = Some d ->
  Desc.t d = Some conv ->
  process order arg_descs [flag]
    = Some (Raise (RuntimeError ("Couldn't grab value for " +:+ flag +:+ "!"))) /\
  (forall tok val, conv tok = Some val ->
     exists sd_out,
       setup_output_sdict arg_descs = Ok sd_out /\
       process order arg_descs [flag; tok]
         = Some (Ok (SynoDict.to_dict order (SynoDict.setitem sd_out (KStr name) val)))) /\
  (forall tok rest, conv tok = None ->
     process order arg_descs (flag :: tok :: rest)
       = Some (Raise (RuntimeError
           ("Value given for argument " +:+ flag +:+ " ('" +:+ tok
              +:+ "') could not be understood!")))).
Proof.
  intros Hflag (so & sdd & Hout & Hdescs & Hlook & Hinit)%recognized_init Ht.
  unfold process. split; [|split].
  - rewrite Hinit. apply load_all_raise; [done|].
    by rewrite (load_one_flag_valued _ flag name [] d conv).
  - intros tok val Hconv. exists so. split; [done|]. rewrite Hinit.
    pose proof (load_one_flag_valued
      (ArgLoader.Build (MarkedList.init [flag; tok]) arg_descs so sdd 1)
      flag name [tok] d conv eq_refl Hflag Hlook Ht) as Hone.
    cbv beta iota in Hone. rewrite Hconv in Hone.
    rewrite (load_all_step _ _ Hone). by apply load_all_done.
  - intros tok rest Hconv. rewrite Hinit. apply load_all_raise; [done|].
    rewrite (load_one_flag_valued _ flag name (tok :: rest) d conv);
      try done. cbv beta iota. by rewrite Hconv.
Qed.

Lemma valued_flag_takes_the_next_token_witness :
  process [] [switch "a"; valued "o" conv_str] ["-o"]
    = Some (Raise (RuntimeError "Couldn't grab value for -o!")) /\
  exists sd_out,
    setup_output_sdict [switch "a"; valued "o" conv_str] = Ok sd_out /\
    process [] [switch "a"; valued "o" conv_str] ["-o"; "-a"]
      = Some (Ok (SynoDict.to_dict []
          (SynoDict.setitem sd_out (KStr "o") (VStr "-a")))).
Proof.
  destruct (valued_flag_takes_the_next_token [] [switch "a"; valued "o" conv_str]
              "o" "-o" (valued "o" conv_str) conv_str) as (Hnone & Hsome & _).
  - right. exists "o"%char. by repeat split.
  - reflexivity.
  - reflexivity.
  - split; [exact Hnone|]. by apply (Hsome "-a").
Defined.

(** X13: a flag, short or long, that the schema does not declare fails the
    parse with the not-recognized error naming the flag with its dashes,
    whatever follows; of a bundle only the first flag is named. *)
Theorem unrecognized_flag_is_named (order : list key) (arg_descs : list Desc.argdesc)
    (sd_descs : SynoDict.t Desc.argdesc) (name flag : string)
    (rest : list string) :
  setup_argdesc_sdict arg_descs = Ok sd_descs ->
  SynoDict.items sd_descs !! KStr name = None ->
  flag_for name flag ->
  process order arg_descs (flag :: rest)
    = Some (Raise (RuntimeError ("Argument " +:+ flag +:+ " not recognized!"))) /\
  (forall c more, name = String c EmptyString -> c <> "-"%char ->
     process order arg_descs (String "-" (String c more) :: rest)
       = Some (Raise (RuntimeError
           ("Argument -" +:+ name +:+ " not recognized!")))).
Proof.
  intros Hdescs Hlook Hflag.
  destruct (setup_output_loop_Ok _ SynoDict.init _ _ Hdescs) as [so Hout].
  unfold process, ArgLoader.init, setup_output_sdict.
  rewrite Hout, Hdescs. cbn [mbind result_bind]. split.
  - apply load_all_raise; [done|].
    by apply (load_one_flag_unrecognized _ flag name rest).
  - intros c more -> Hc. apply load_all_raise; [done|].
    erewrite load_one_unfold by reflexivity.
    rewrite classify_1char by done. cbn [mbind result_bind].
    unfold ArgLoader.load_one_1char, str_index, ArgLoader.try_recognize. simpl.
    by rewrite Hlook.
Qed.

Lemma unrecognized_flag_is_named_witness :
  process [] [switch "a"] ["--all"; "x"]
    = Some (Raise (RuntimeError "Argument --all not recognized!")) /\
  process [] [switch "a"] ["-xa"]
    = Some (Raise (RuntimeError "Argument -x not recognized!")).
Proof.
  split.
  - destruct (unrecognized_flag_is_named [] [switch "a"]
      (SynoDict.setitem SynoDict.init (KStr "a") (switch "a"))
      "all" "--all" ["x"]) as [Hflag _]; [reflexivity|reflexivity| |exact Hflag].
    left. by split.
  - destruct (unrecognized_flag_is_named [] [switch "a"]
      (SynoDict.setitem SynoDict.init (KStr "a") (switch "a"))
      "x" "-x" []) as [_ Hbundle]; [reflexivity|reflexivity| |].
    + right. exists "x"%char. by repeat split.
    + by apply (Hbundle "x"%char "a").
Defined.

(** ** The keys of the result *)

Lemma load_one_writes self self' :
  ArgLoader.load_one self = Ok self' ->
  ArgLoader.sd_descs self' = ArgLoader.sd_descs self /\
  (ArgLoader.sd_out self' = ArgLoader.sd_out self \/
   exists k val,
     is_Some (SynoDict.items (ArgLoader.sd_descs self) !! k) /\
     ArgLoader.sd_out self' = SynoDict.setitem (ArgLoader.sd_out self) k val).
Proof.
  unfold ArgLoader.load_one.
  destruct (MarkedList.get (ArgLoader.ml_args self)) as [[cur|] ml]; [|done].
  destruct (ArgLoader.classify cur) as [cls|]; [|done].
  cbn [mbind result_bind]. set (self1 := ArgLoader.set_ml_args self ml).
  assert (ArgLoader.sd_descs self1 = ArgLoader.sd_descs self) as Hd1 by done.
  assert (ArgLoader.sd_out self1 = ArgLoader.sd_out self) as Ho1 by done.
  clearbody self1. rewrite <- Hd1, <- Ho1. clear Hd1 Ho1.
  destruct cls.
  - unfold ArgLoader.load_one_positional, ArgLoader.try_recognize.
    destruct (SynoDict.items _ !! _) as [argdesc|] eqn:Hlook; [|done].
    cbn [mbind result_bind].
    destruct (ArgLoader.try_translate _ _ _) as [val|]; [|done].
    intros [= <-]. split; [done|]. right. eexists _, val.
    split; [by rewrite Hlook|done].
  - unfold ArgLoader.load_one_1char.
    destruct (str_index _ 0) as [focus|]; [|done]. cbn [mbind result_bind].
    unfold ArgLoader.try_recognize.
    destruct (SynoDict.items _ !! _) as [argdesc|] eqn:Hlook; [|done].
    cbn [mbind result_bind].
    destruct (Desc.t argdesc) as [conv|]; destruct (Nat.eqb _ 1).
    + destruct (ArgLoader.try_grab_next self1 _) as [[param self2]|] eqn:Hgrab;
        [|done].
      cbn [mbind result_bind].
      destruct (ArgLoader.try_translate _ _ _) as [val|]; [|done].
      intros [= <-].
      apply try_grab_next_Ok in Hgrab as (_ & Hout & Hdescs & _).
      split; [done|]. right. eexists _, val.
      split; [by rewrite Hlook|]. simpl. by rewrite Hout.
    + intros [= <-]. split; [done|]. by left.
    + intros [= <-]. split; [done|]. right. eexists _, _.
      split; [by rewrite Hlook|done].
    + intros [= <-]. split; [done|]. by left.
  - unfold ArgLoader.load_one_nchar, ArgLoader.try_recognize.
    destruct (SynoDict.items _ !! _) as [argdesc|] eqn:Hlook; [|done].
    cbn [mbind result_bind].
    destruct (Desc.t argdesc) as [conv|].
    + destruct (ArgLoader.try_grab_next self1 _) as [[param self2]|] eqn:Hgrab;
        [|done].
      cbn [mbind result_bind].
      destruct (ArgLoader.try_translate _ _ _) as [val|]; [|done].
      intros [= <-].
      apply try_grab_next_Ok in Hgrab as (_ & Hout & Hdescs & _).
      split; [done|]. right. eexists _, val.
      split; [by rewrite Hlook|]. simpl. by rewrite Hout.
    + intros [= <-]. split; [done|]. right. eexists _, _.
      split; [by rewrite Hlook|done].
Qed.

Lemma canonical_key_declares desc k :
  canonical_key desc = Some k -> declares desc k.
Proof.
  unfold canonical_key, declares.
  destruct (Desc.n desc) as [z|s|[|s ss]]; try done; try by intros [= <-].
  intros [= <-]. left.
Qed.

Lemma linked_declared arg_descs desc name k :
  desc ∈ arg_descs -> canonical_key desc = Some name ->
  linked arg_descs name k -> declared arg_descs k.
Proof.
  intros Hin Hcan [<-|(desc' & ss & Hin' & Hn & _ & Hk)].
  - exists desc. split; [done|]. by apply canonical_key_declares.
  - exists desc'. split; [done|]. unfold declares. by rewrite Hn.
Qed.

Lemma load_all_fuel_keys_declared {order : list key} arg_descs fuel self m k :
  (forall k0, is_Some (SynoDict.items (ArgLoader.sd_descs self) !! k0) ->
     declared arg_descs k0) ->
  (forall synlist k0, synlist ∈ SynoDict.syns (ArgLoader.sd_out self) ->
     k0 ∈ synlist -> declared arg_descs k0) ->
  (forall k0, is_Some (SynoDict.items (ArgLoader.sd_out self) !! k0) ->
     declared arg_descs k0) ->
  ArgLoader.load_all_fuel order fuel self = Some (Ok m) ->
  is_Some (m !! k) -> declared arg_descs k.
Proof.
  assert (forall st : ArgLoader.t,
    (forall synlist k0, synlist ∈ SynoDict.syns (ArgLoader.sd_out st) ->
       k0 ∈ synlist -> declared arg_descs k0) ->
    (forall k0, is_Some (SynoDict.items (ArgLoader.sd_out st) !! k0) ->
       declared arg_descs k0) ->
    is_Some (SynoDict.to_dict order (ArgLoader.sd_out st) !! k) ->
    declared arg_descs k) as Hcopy.
  { intros st Hsyns Hout [v (k0 & Hk0 & Hin)%to_dict_lookup_Some].
    apply elem_of_getsyns in Hin as [->|(sl & Hsl & _ & Hk)].
    - apply Hout. by rewrite Hk0.
    - by apply (Hsyns sl). }
  revert self. induction fuel as [|fuel IH]; intros self Hdescs Hsyns Hout; simpl.
  - destruct (MarkedList.nonzero _); [done|]. intros [= <-]. by apply Hcopy.
  - destruct (MarkedList.nonzero _); [|intros [= <-]; by apply Hcopy].
    destruct (ArgLoader.load_one self) as [self'|] eqn:Hone; [|done].
    apply load_one_writes in Hone as [Hd' Ho'].
    apply IH.
    + by rewrite Hd'.
    + destruct Ho' as [->|(k1 & val & _ & ->)]; [done|]. exact Hsyns.
    + destruct Ho' as [->|(k1 & val & Hk1 & ->)]; [done|].
      intros k0. rewrite lookup_setitem. case_bool_decide as Hin; [|apply Hout].
      intros _. apply elem_of_getsyns in Hin as [->|(sl & Hsl & _ & Hk0)].
      * by apply Hdescs.
      * by apply (Hsyns sl).
Qed.

(** X14: every key of a returned mapping is a key the schema declares: a
    slot, a name, or a synonym of some descriptor.  The parse never binds
    anything else. *)
Theorem result_keys_are_declared (order : list key) (arg_descs : list Desc.argdesc)
    (args : list string) (m : gmap key value) (k : key) :
  process order arg_descs args = Some (Ok m) ->
  is_Some (m !! k) -> declared arg_descs k.
Proof.
  unfold process, ArgLoader.init.
  destruct (setup_output_sdict arg_descs) as [so|] eqn:Hout; [|done].
  destruct (setup_argdesc_sdict arg_descs) as [sdd|] eqn:Hdescs; [|done].
  cbn [mbind result_bind]. unfold ArgLoader.load_all.
  apply load_all_fuel_keys_declared; simpl.
  - intros k0 [d Hk0].
    destruct (setup_argdesc_loop_sound _ _ _ _ _ Hdescs Hk0)
      as [?|(Hin & name & Hcan & Hlink)]; [done|].
    apply (linked_declared _ d name); [done..|].
    destruct Hlink as [->|(sl & Hsl & Hname & Hksl)]; [by left|]. right.
    apply (setup_argdesc_loop_syns _ _ _ Hdescs) in Hsl
      as [Hsl|(desc & ss & ? & ? & ->)]; [by apply elem_of_nil in Hsl|].
    by exists desc, ss.
  - intros sl k0 Hsl Hk0.
    apply (setup_output_loop_syns _ _ _ Hout) in Hsl
      as [Hsl|(desc & ss & ? & Hn & ->)]; [by apply elem_of_nil in Hsl|].
    exists desc. split; [done|]. unfold declares. by rewrite Hn.
  - intros k0 [v Hk0].
    destruct (setup_output_loop_sound _ _ _ _ _ Hout Hk0)
      as [?|(desc & name & Hin & _ & Hcan & Hlink)]; [done|].
    apply (linked_declared _ desc name); [done..|].
    destruct Hlink as [->|(sl & Hsl & Hname & Hksl)]; [by left|]. right.
    apply (setup_output_loop_syns _ _ _ Hout) in Hsl
      as [Hsl|(desc' & ss & ? & ? & ->)]; [by apply elem_of_nil in Hsl|].
    by exists desc', ss.
Qed.

Lemma result_keys_are_declared_witness :
  declared [switch_a_all; positional 1] (KStr "all").
Proof.
  apply (result_keys_are_declared [] [switch_a_all; positional 1] ["-a"; "x"]
           (<[KInt 1 := VStr "x"]>
              (<[KStr "a" := VBool true]> {[ KStr "all" := VBool true ]}))).
  - by vm_compute.
  - exists (VBool true). by vm_compute.
Defined.

(** ** Any number of positional tokens *)

Lemma load_all_positionals {order : list key} (xs tail : list string) (self : ArgLoader.t) :
  remaining (ArgLoader.ml_args self) = xs ++ tail ->
  Forall (fun x => ArgLoader.classify x = Ok ArgLoader.Positional) xs ->
  (forall synlist z, synlist ∈ SynoDict.syns (ArgLoader.sd_out self) ->
     KInt z ∉ synlist) ->
  (forall i x, xs !! i = Some x -> exists d v,
     SynoDict.items (ArgLoader.sd_descs self)
       !! KInt (ArgLoader.cur_positional self + Z.of_nat i) = Some d /\
     ArgLoader.try_translate x d
       (KInt (ArgLoader.cur_positional self + Z.of_nat i)) = Ok v) ->
  exists self',
    ArgLoader.load_all order self = ArgLoader.load_all order self' /\
    remaining (ArgLoader.ml_args self') = tail /\
    ArgLoader.sd_descs self' = ArgLoader.sd_descs self /\
    ArgLoader.cur_positional self'
      = (ArgLoader.cur_positional self + Z.of_nat (length xs))%Z /\
    (forall i x d v, xs !! i = Some x ->
       SynoDict.items (ArgLoader.sd_descs self)
         !! KInt (ArgLoader.cur_positional self + Z.of_nat i) = Some d ->
       ArgLoader.try_translate x d
         (KInt (ArgLoader.cur_positional self + Z.of_nat i)) = Ok v ->
       SynoDict.items (ArgLoader.sd_out self')
         !! KInt (ArgLoader.cur_positional self + Z.of_nat i) = Some v) /\
    (forall k,
       (forall i, i < length xs ->
          k <> KInt (ArgLoader.cur_positional self + Z.of_nat i)) ->
       SynoDict.items (ArgLoader.sd_out self') !! k
         = SynoDict.items (ArgLoader.sd_out self) !! k) /\
    SynoDict.syns (ArgLoader.sd_out self')
      = SynoDict.syns (ArgLoader.sd_out self).
Proof.
  revert self. induction xs as [|x xs IH]; intros self Hrem Hpos Hsyns Hslots.
  - exists self. simpl. rewrite Z.add_0_r. by repeat split.
  - apply Forall_cons in Hpos as [Hx Hxs].
    destruct (Hslots 0 x eq_refl) as (d0 & v0 & Hd0 & Hv0).
    rewrite Z.add_0_r in Hd0, Hv0.
    pose proof (load_one_positional_rule self (xs ++ tail) x d0 v0
                  Hrem Hx Hd0 Hv0) as Hone.
    set (self1 := ArgLoader.set_cur_positional _ _) in Hone.
    apply remaining_cons in Hrem as (_ & _ & Hrest & _).
    destruct (IH self1)
      as (self' & Hall & Hrem' & Hdescs' & Hcur' & Hbound & Hframe & Hsyns').
    + exact Hrest.
    + exact Hxs.
    + exact Hsyns.
    + intros i y Hy. destruct (Hslots (S i) y Hy) as (d & v & Hd & Hv).
      exists d, v. simpl.
      by replace (ArgLoader.cur_positional self + 1 + Z.of_nat i)%Z
        with (ArgLoader.cur_positional self + Z.of_nat (S i))%Z by lia.
    + exists self'. split; [by rewrite (load_all_step _ _ Hone)|].
      split; [done|]. split; [done|]. split; [rewrite Hcur'; simpl; lia|].
      subst self1. cbn [length] in Hbound, Hframe.
      cbn [ArgLoader.sd_out ArgLoader.set_cur_positional ArgLoader.set_sd_out
           ArgLoader.cur_positional ArgLoader.sd_descs advance
           ArgLoader.set_ml_args] in Hbound, Hframe.
      split; [|split; [|exact Hsyns']].
      * intros [|i] y d v Hy Hd Hv.
        -- injection Hy as <-. rewrite Z.add_0_r in *.
           rewrite Hframe by (intros i _ [=]; lia).
           rewrite Hd0 in Hd. injection Hd as <-.
           rewrite Hv0 in Hv. injection Hv as <-.
           apply lookup_setitem_self.
        -- replace (ArgLoader.cur_positional self + Z.of_nat (S i))%Z
             with (ArgLoader.cur_positional self + 1 + Z.of_nat i)%Z in * by lia.
           by apply (Hbound i y d v).
      * intros k Hk. rewrite Hframe.
        -- rewrite lookup_setitem, bool_decide_eq_false_2; [done|].
           intros [->|(sl & Hsl & Hz & _)]%elem_of_getsyns.
           ++ apply (Hk 0); [simpl; lia|]. by rewrite Z.add_0_r.
           ++ by apply (Hsyns sl (ArgLoader.cur_positional self)).
        -- intros i Hi ->. apply (Hk (S i)); [simpl; lia|]. f_equal. lia.
Qed.

(** X15: positional tokens fill the slots 1, 2, ... in the order they come:
    when each token has a declared slot whose converter (the identity when
    there is none) accepts it, the parse returns and binds slot [i + 1] to
    the converted [i]-th token.  One more positional token fails the parse
    with the not-recognized error naming the next slot number when that slot
    is not declared, and with the could-not-be-understood error naming the
    slot number and the token when its converter rejects the token. *)
Theorem positional_tokens_fill_the_slots (order : list key) (arg_descs : list Desc.argdesc)
    (sd_descs : SynoDict.t Desc.argdesc) (xs : list string) :
  setup_argdesc_sdict arg_descs = Ok sd_descs ->
  Forall (fun x => ArgLoader.classify x = Ok ArgLoader.Positional) xs ->
  (forall i x, xs !! i = Some x -> exists d v,
     SynoDict.items sd_descs !! KInt (1 + Z.of_nat i) = Some d /\
     ArgLoader.try_translate x d (KInt (1 + Z.of_nat i)) = Ok v) ->
  (exists m, process order arg_descs xs = Some (Ok m) /\
     forall i x d v, xs !! i = Some x ->
       SynoDict.items sd_descs !! KInt (1 + Z.of_nat i) = Some d ->
       ArgLoader.try_translate x d (KInt (1 + Z.of_nat i)) = Ok v ->
       m !! KInt (1 + Z.of_nat i) = Some v) /\
  (forall z rest, ArgLoader.classify z = Ok ArgLoader.Positional ->
     SynoDict.items sd_descs !! KInt (1 + Z.of_nat (length xs)) = None ->
     process order arg_descs (xs ++ z :: rest)
       = Some (Raise (RuntimeError
           ("Argument " +:+ str_of_int (1 + Z.of_nat (length xs))
              +:+ " not recognized!")))) /\
  (forall z rest d conv, ArgLoader.classify z = Ok ArgLoader.Positional ->
     SynoDict.items sd_descs !! KInt (1 + Z.of_nat (length xs)) = Some d ->
     Desc.t d = Some conv -> conv z = None ->
     process order arg_descs (xs ++ z :: rest)
       = Some (Raise (RuntimeError
           ("Value given for argument "
              +:+ str_of_int (1 + Z.of_nat (length xs)) +:+ " ('" +:+ z
              +:+ "') could not be understood!")))).
Proof.
  intros Hdescs Hpos Hslots.
  destruct (setup_output_loop_Ok _ SynoDict.init _ _ Hdescs) as [so Hout].
  assert (forall tail, exists self',
    process order arg_descs (xs ++ tail) = ArgLoader.load_all order self' /\
    remaining (ArgLoader.ml_args self') = tail /\
    ArgLoader.sd_descs self' = sd_descs /\
    ArgLoader.cur_positional self' = (1 + Z.of_nat (length xs))%Z /\
    (forall i x d v, xs !! i = Some x ->
       SynoDict.items sd_descs !! KInt (1 + Z.of_nat i) = Some d ->
       ArgLoader.try_translate x d (KInt (1 + Z.of_nat i)) = Ok v ->
       SynoDict.to_dict order (ArgLoader.sd_out self') !! KInt (1 + Z.of_nat i)
         = Some v)) as Hrun.
  { intros tail. unfold process, ArgLoader.init, setup_output_sdict.
    rewrite Hout, Hdescs. cbn [mbind result_bind].
    assert (forall sl z, sl ∈ SynoDict.syns so -> KInt z ∉ sl) as Hint.
    { intros sl z. by apply setup_output_sdict_int_not_syn with arg_descs. }
    destruct (load_all_positionals (order:=order) xs tail
      (ArgLoader.Build (MarkedList.init (xs ++ tail)) arg_descs so sd_descs 1))
      as (self' & Hall & Hrem & Hd & Hcur & Hbound & _ & Hsyns); try done.
    exists self'. do 4 (split; [done|]). intros i x d v Hx Hd' Hv.
    rewrite to_dict_lookup_slot; [by apply (Hbound i x d v)|].
    intros sl. rewrite Hsyns. apply Hint. }
  split; [|split].
  - destruct (Hrun []) as (self' & Hall & Hrem & _ & _ & Hbound).
    rewrite app_nil_r in Hall. eexists. split; [|exact Hbound].
    rewrite Hall. by apply load_all_done.
  - intros z rest Hz Hnone.
    destruct (Hrun (z :: rest)) as (self' & -> & Hrem & Hd' & Hcur & _).
    apply load_all_raise; [by apply remaining_cons in Hrem as [? _]|].
    rewrite (load_one_unrecognized_slot self' rest z Hrem Hz);
      rewrite Hcur; [done|]. by rewrite Hd'.
  - intros z rest d conv Hz Hd Ht Hconv.
    destruct (Hrun (z :: rest)) as (self' & -> & Hrem & Hd' & Hcur & _).
    apply load_all_raise; [by apply remaining_cons in Hrem as [? _]|].
    rewrite (load_one_unfold _ _ _ Hrem), Hz. cbn [mbind result_bind].
    unfold ArgLoader.load_one_positional, ArgLoader.try_recognize. simpl.
    rewrite Hd', Hcur, Hd. cbn [mbind result_bind].
    unfold ArgLoader.try_translate. by rewrite Ht, Hconv.
Qed.

Lemma positional_tokens_fill_the_slots_witness :
  (exists m,
     process [] [positional 1; positional 2; positional 3] ["x"; "--"; "-"]
       = Some (Ok m) /\
     m !! KInt 1 = Some (VStr "x") /\ m !! KInt 2 = Some (VStr "--") /\
     m !! KInt 3 = Some (VStr "-")) /\
  process [] [positional 1; positional 2; positional 3] ["x"; "--"; "-"; "y"; "-a"]
    = Some (Raise (RuntimeError "Argument 4 not recognized!")).
Proof.
  destruct (positional_tokens_fill_the_slots []
    [positional 1; positional 2; positional 3]
    (SynoDict.setitem
       (SynoDict.setitem
          (SynoDict.setitem SynoDict.init (KInt 1) (positional 1))
          (KInt 2) (positional 2))
       (KInt 3) (positional 3))
    ["x"; "--"; "-"]) as ((m & Hrun & Hbound) & Hnext & _).
  - reflexivity.
  - repeat (apply Forall_cons; split; [reflexivity|]). apply Forall_nil_2.
  - intros [|[|[|i]]] x Hx; try discriminate; injection Hx as <-;
      eexists _, _; split; reflexivity.
  - split.
    + exists m. split; [exact Hrun|]. split; [|split].
      * by apply (Hbound 0 "x" (positional 1)).
      * by apply (Hbound 1 "--" (positional 2)).
      * by apply (Hbound 2 "-" (positional 3)).
    + by apply (Hnext "y" ["-a"]).
Defined.

(** ** The three classes of tokens *)

(** X16: how a token is classified.  It is positional when it has exactly
    one character, or does not start with a dash, or is ["--"]; a bundle of
    short flags when it is a dash, a character other than the dash, and
    anything; a long flag when it is two dashes and at least one more
    character; and the empty token is the only one that makes the classifier
    raise, with [IndexError]. *)
Theorem token_classes (cur : string) :
  (ArgLoader.classify cur = Ok ArgLoader.Positional <->
     String.length cur = 1 \/
     (exists c s, cur = String c s /\ c <> "-"%char) \/
     cur = "--") /\
  (ArgLoader.classify cur = Ok ArgLoader.OneChar <->
     exists c tail, cur = String "-" (String c tail) /\ c <> "-"%char) /\
  (ArgLoader.classify cur = Ok ArgLoader.NChar <->
     exists tail, cur = String "-" (String "-" tail) /\ tail <> EmptyString) /\
  (forall e, ArgLoader.classify cur = Raise e <->
     e = IndexError /\ cur = EmptyString).
Proof.
  split; [|split; [|split]].
  - split.
    + destruct cur as [|c0 [|c1 tail]]; [done|by left|].
      destruct (Ascii.eqb_spec c0 "-") as [->|Hne];
        [|intros _; right; left; by eexists _, _].
      destruct (Ascii.eqb_spec c1 "-") as [->|Hne].
      * destruct tail as [|c2 tail]; [by right; right|]. intros Hcls.
        pose proof (classify_nchar (String c2 tail) ltac:(done)) as Hlong.
        change ("--" +:+ String c2 tail)
          with (String "-" (String "-" (String c2 tail))) in Hlong.
        congruence.
      * by rewrite classify_1char.
    + intros [Hlen|[(c & s & -> & Hc)| ->]]; [| |done].
      * destruct cur as [|c0 [|c1 tail]]; done.
      * unfold ArgLoader.classify, str_index. simpl.
        destruct s; [done|]. simpl.
        by destruct (Ascii.eqb_spec c "-").
  - split; [apply classify_1char_inv|].
    intros (c & tail & -> & Hc). by apply classify_1char.
  - split; [apply classify_nchar_inv|].
    intros (tail & -> & Hne). by apply (classify_nchar tail).
  - intros e. split; [apply classify_Raise|]. by intros [-> ->].
Qed.

(** ** Flags given more than once *)

Lemma setitem_twice {A : Type} (sd : SynoDict.t A) (k : key) (v1 v2 : A) :
  SynoDict.setitem (SynoDict.setitem sd k v1) k v2 = SynoDict.setitem sd k v2.
Proof.
  unfold SynoDict.setitem at 1 3. f_equal. apply map_eq. intros k'.
  change (SynoDict.getsyns (SynoDict.setitem sd k v1) k)
    with (SynoDict.getsyns sd k).
  rewrite !lookup_foldl_insert, lookup_setitem.
  by case_bool_decide.
Qed.

Lemma load_one_flag_switch self flag name rest d :
  remaining (ArgLoader.ml_args self) = flag :: rest ->
  flag_for name flag ->
  SynoDict.items (ArgLoader.sd_descs self) !! KStr name = Some d ->
  Desc.t d = None ->
  ArgLoader.load_one self =
    Ok (ArgLoader.set_sd_out (advance self)
          (SynoDict.setitem (ArgLoader.sd_out self) (KStr name) (VBool true))).
Proof.
  intros Hrem [[-> Hne]|(c & -> & Hc & ->)] Hlook Ht.
  - by apply (load_one_long_switch_rule self rest name d).
  - by apply (load_one_switch_rule self rest c d).
Qed.

(** X17: when a valued flag is given twice, the second value replaces the
    first: provided the converter accepts the first value, the token list
    parses as if the first occurrence and its value were not there.  The
    second write finds its keys in place, so the two parses insert the same
    keys in the same sequence and their dictionaries are iterated alike: one
    [order] stands for both. *)
Theorem last_value_wins (order : list key) (arg_descs : list Desc.argdesc) (name flag : string)
    (d : Desc.argdesc) (conv : string -> option value)
    (v1 v2 : string) (w1 : value) (rest : list string) :
  flag_for name flag ->
  recognized arg_descs (KStr name) = Some d ->
  Desc.t d = Some conv ->
  conv v1 = Some w1 ->
  process order arg_descs (flag :: v1 :: flag :: v2 :: rest)
    = process order arg_descs (flag :: v2 :: rest).
Proof.
  intros Hflag (so & sdd & Hout & Hdescs & Hlook & Hinit)%recognized_init Ht Hv1.
  unfold process. rewrite !Hinit.
  set (l0 := ArgLoader.Build (MarkedList.init (flag :: v1 :: _)) _ _ _ _).
  set (r0 := ArgLoader.Build (MarkedList.init (flag :: v2 :: _)) _ _ _ _).
  pose proof (load_one_flag_valued l0 flag name _ d conv eq_refl Hflag Hlook Ht)
    as L1. cbv beta iota in L1. rewrite Hv1 in L1.
  set (l1 := ArgLoader.set_sd_out _ _) in L1.
  pose proof (load_one_flag_valued l1 flag name (v2 :: rest) d conv
                eq_refl Hflag Hlook Ht) as L2. cbv beta iota in L2.
  pose proof (load_one_flag_valued r0 flag name (v2 :: rest) d conv
                eq_refl Hflag Hlook Ht) as R1. cbv beta iota in R1.
  rewrite (load_all_step _ _ L1).
  destruct (conv v2) as [w2|].
  - rewrite (load_all_step _ _ L2), (load_all_step _ _ R1).
    apply load_all_pending. split; [done|]. split; [|done].
    apply setitem_twice.
  - rewrite (load_all_raise l1 _ eq_refl L2).
    by rewrite (load_all_raise r0 _ eq_refl R1).
Qed.

Lemma last_value_wins_witness :
  process [] [valued "count" conv_int] ["--count"; "1"; "--count"; "2"; "--count"]
    = process [] [valued "count" conv_int] ["--count"; "2"; "--count"].
Proof.
  apply (last_value_wins [] [valued "count" conv_int] "count" "--count"
           (valued "count" conv_int) conv_int "1" "2" (VInt 1) ["--count"]);
    [left; by split|reflexivity|reflexivity|reflexivity].
Defined.

(** X18: a switch given twice parses as given once, whatever follows (the
    second write finds its keys in place, so the two parses insert the same
    keys in the same sequence and one [order] stands for both); and two
    switches given on their own are both returned as [True], in whichever
    order they come and in whatever order the copy is made. *)
Theorem switches_repeat_and_combine (order : list key) (arg_descs : list Desc.argdesc)
    (name1 flag1 name2 flag2 : string) (d1 d2 : Desc.argdesc)
    (rest : list string) :
  flag_for name1 flag1 -> recognized arg_descs (KStr name1) = Some d1 ->
  Desc.t d1 = None ->
  flag_for name2 flag2 -> recognized arg_descs (KStr name2) = Some d2 ->
  Desc.t d2 = None ->
  process order arg_descs (flag1 :: flag1 :: rest)
    = process order arg_descs (flag1 :: rest) /\
  (exists m, process order arg_descs [flag1; flag2] = Some (Ok m) /\
     m !! KStr name1 = Some (VBool true) /\
     m !! KStr name2 = Some (VBool true)) /\
  (exists m, process order arg_descs [flag2; flag1] = Some (Ok m) /\
     m !! KStr name1 = Some (VBool true) /\
     m !! KStr name2 = Some (VBool true)).
Proof.
  intros Hf1 (so & sdd & Hout & Hdescs & Hl1 & Hinit)%recognized_init Ht1
    Hf2 Hl2 Ht2.
  unfold recognized in Hl2. rewrite Hdescs in Hl2.
  unfold process. rewrite !Hinit.
  set (a0 := ArgLoader.Build (MarkedList.init [flag1; flag2]) _ _ _ _).
  set (b0 := ArgLoader.Build (MarkedList.init [flag2; flag1]) _ _ _ _).
  set (c0 := ArgLoader.Build (MarkedList.init (flag1 :: flag1 :: rest)) _ _ _ _).
  set (e0 := ArgLoader.Build (MarkedList.init (flag1 :: rest)) _ _ _ _).
  pose proof (load_one_flag_switch a0 flag1 name1 _ d1 eq_refl Hf1 Hl1 Ht1) as A1.
  set (a1 := ArgLoader.set_sd_out _ _) in A1.
  pose proof (load_one_flag_switch a1 flag2 name2 [] d2 eq_refl Hf2 Hl2 Ht2)
    as A2.
  pose proof (load_one_flag_switch b0 flag2 name2 _ d2 eq_refl Hf2 Hl2 Ht2) as B1.
  set (b1 := ArgLoader.set_sd_out _ _) in B1.
  pose proof (load_one_flag_switch b1 flag1 name1 [] d1 eq_refl Hf1 Hl1 Ht1)
    as B2.
  pose proof (load_one_flag_switch c0 flag1 name1 _ d1 eq_refl Hf1 Hl1 Ht1) as C1.
  set (c1 := ArgLoader.set_sd_out _ _) in C1.
  pose proof (load_one_flag_switch c1 flag1 name1 rest d1 eq_refl Hf1 Hl1 Ht1)
    as C2.
  pose proof (load_one_flag_switch e0 flag1 name1 rest d1 eq_refl Hf1 Hl1 Ht1)
    as E1.
  split; [|split].
  - rewrite (load_all_step _ _ C1), (load_all_step _ _ C2),
      (load_all_step _ _ E1).
    apply load_all_pending. split; [done|]. split; [|done].
    apply setitem_twice.
  - rewrite (load_all_step _ _ A1), (load_all_step _ _ A2),
      load_all_done by done.
    eexists. split; [done|]. split; apply settled_to_dict.
    + apply settled_setitem_same, settled_setitem_self.
    + apply settled_setitem_self.
  - rewrite (load_all_step _ _ B1), (load_all_step _ _ B2),
      load_all_done by done.
    eexists. split; [done|]. split; apply settled_to_dict.
    + apply settled_setitem_self.
    + apply settled_setitem_same, settled_setitem_self.
Qed.

Lemma switches_repeat_and_combine_witness :
  process [] [switch_a_all; switch "v"] ["--all"; "--all"; "-a"]
    = process [] [switch_a_all; switch "v"] ["--all"; "-a"] /\
  exists m, process [] [switch_a_all; switch "v"] ["-v"; "--all"] = Some (Ok m) /\
    m !! KStr "all" = Some (VBool true) /\ m !! KStr "v" = Some (VBool true).
Proof.
  destruct (switches_repeat_and_combine [] [switch_a_all; switch "v"]
              "all" "--all" "v" "-v" switch_a_all (switch "v") ["-a"])
    as (Htwice & _ & Hboth).
  - left. by split.
  - reflexivity.
  - reflexivity.
  - right. exists "v"%char. by repeat split.
  - reflexivity.
  - reflexivity.
  - split; [exact Htwice|exact Hboth].
Defined.

(** * The scan, from any loader on *)

(** ** The loader after some iterations *)

Lemma reaches_trans s1 s2 s3 : reaches s1 s2 -> reaches s2 s3 -> reaches s1 s3.
Proof.
  induction 1 as [|s s' s'' Hone _ IH]; [done|]. intros H3.
  apply (reaches_next s s'); [done|]. by apply IH.
Qed.

Lemma reaches_load_all {order : list key} self self' :
  reaches self self' ->
  ArgLoader.load_all order self = ArgLoader.load_all order self'.
Proof.
  induction 1 as [|s s' s'' Hone _ IH]; [done|].
  by rewrite (load_all_step _ _ Hone).
Qed.

(** The iterations change neither the descriptors nor the registered
    synonyms. *)
Lemma reaches_fixed self self' :
  reaches self self' ->
  ArgLoader.sd_descs self' = ArgLoader.sd_descs self /\
  ArgLoader.arg_descs self' = ArgLoader.arg_descs self /\
  SynoDict.syns (ArgLoader.sd_out self') = SynoDict.syns (ArgLoader.sd_out self).
Proof.
  induction 1 as [|s s' s'' Hone _ (IHd & IHa & IHs)]; [done|].
  rewrite IHd, IHa, IHs.
  pose proof (load_one_inv _ _ Hone) as (_ & _ & _ & _ & Ha & Hd & _).
  apply load_one_writes in Hone as [_ [->|(k & val & _ & ->)]]; by rewrite Ha, Hd.
Qed.


(** The parse, seen from any loader it passes through. *)
Lemma process_at {order : list key} arg_descs args st0 st :
  ArgLoader.init arg_descs args = Ok st0 -> reaches st0 st ->
  process order arg_descs args = ArgLoader.load_all order st.
Proof.
  intros Hinit Hreach. unfold process. rewrite Hinit.
  by apply reaches_load_all.
Qed.


(** What [__init__] builds. *)
Lemma init_Ok arg_descs args st0 :
  ArgLoader.init arg_descs args = Ok st0 ->
  exists sd_out sd_descs,
    setup_output_sdict arg_descs = Ok sd_out /\
    setup_argdesc_sdict arg_descs = Ok sd_descs /\
    st0 = ArgLoader.Build (MarkedList.init args) arg_descs sd_out sd_descs 1.
Proof.
  unfold ArgLoader.init.
  destruct (setup_output_sdict arg_descs) as [so|]; [|done].
  destruct (setup_argdesc_sdict arg_descs) as [sdd|]; [|done].
  intros [= <-]. by exists so, sdd.
Qed.

(** What a schema recognizes is what every loader of a parse looks up. *)
Lemma reaches_recognized arg_descs args st0 st k :
  ArgLoader.init arg_descs args = Ok st0 -> reaches st0 st ->
  SynoDict.items (ArgLoader.sd_descs st) !! k = recognized arg_descs k.
Proof.
  intros (so & sdd & _ & Hdescs & ->)%init_Ok (-> & _)%reaches_fixed.
  unfold recognized. by rewrite Hdescs.
Qed.


(** ** A value the converter rejects *)

(** C6: when the converter a descriptor declares raises on the raw value,
    the parse fails with the error that names the argument as it was given
    and the raw text; the result is that exception and no mapping.  This
    holds wherever the scan meets the value, whatever was parsed before it
    and whatever follows: after a short or a long flag, attached to a short
    flag, or as a positional token, the argument being named by the flag
    with its dashes or by the slot number.  So it is for [--count abc] with
    [int] as the converter. *)
Theorem rejected_value_names_flag_and_text (order : list key)
    (arg_descs : list Desc.argdesc) (args : list string)
    (st0 st : ArgLoader.t) (conv : string -> option value) (raw : string) :
  ArgLoader.init arg_descs args = Ok st0 -> reaches st0 st ->
  conv raw = None ->
  (forall argdesc name, Desc.t argdesc = Some conv ->
     ArgLoader.try_translate raw argdesc name
       = Raise (RuntimeError
           ("Value given for argument " +:+ format_key name +:+ " ('" +:+ raw
              +:+ "') could not be understood!"))) /\
  (forall name flag d rest,
     remaining (ArgLoader.ml_args st) = flag :: raw :: rest ->
     flag_for name flag ->
     recognized arg_descs (KStr name) = Some d -> Desc.t d = Some conv ->
     ArgLoader.load_one st
       = Raise (RuntimeError
           ("Value given for argument " +:+ flag +:+ " ('" +:+ raw
              +:+ "') could not be understood!")) /\
     process order arg_descs args
       = Some (Raise (RuntimeError
           ("Value given for argument " +:+ flag +:+ " ('" +:+ raw
              +:+ "') could not be understood!")))) /\
  (forall c d rest,
     remaining (ArgLoader.ml_args st) = String "-" (String c raw) :: rest ->
     c <> "-"%char -> raw <> EmptyString ->
     recognized arg_descs (KStr (String c EmptyString)) = Some d ->
     Desc.t d = Some conv ->
     process order arg_descs args
       = Some (Raise (RuntimeError
           ("Value given for argument " +:+ String "-" (String c EmptyString)
              +:+ " ('" +:+ raw +:+ "') could not be understood!")))) /\
  (forall d rest,
     remaining (ArgLoader.ml_args st) = raw :: rest ->
     ArgLoader.classify raw = Ok ArgLoader.Positional ->
     recognized arg_descs (KInt (ArgLoader.cur_positional st)) = Some d ->
     Desc.t d = Some conv ->
     ArgLoader.load_one st
       = Raise (RuntimeError
           ("Value given for argument "
              +:+ str_of_int (ArgLoader.cur_positional st) +:+ " ('" +:+ raw
              +:+ "') could not be understood!")) /\
     process order arg_descs args
       = Some (Raise (RuntimeError
           ("Value given for argument "
              +:+ str_of_int (ArgLoader.cur_positional st) +:+ " ('" +:+ raw
              +:+ "') could not be understood!")))).
Proof.
  intros Hinit Hreach Hconv.
  assert (forall st' name flag d rest,
     reaches st0 st' ->
     remaining (ArgLoader.ml_args st') = flag :: raw :: rest ->
     flag_for name flag ->
     recognized arg_descs (KStr name) = Some d -> Desc.t d = Some conv ->
     ArgLoader.load_one st' = Raise (RuntimeError (msg_not_understood flag raw)) /\
     process order arg_descs args
       = Some (Raise (RuntimeError (msg_not_understood flag raw)))) as Hflag.
  { intros st' name flag d rest Hreach' Hrem Hflag Hrec Ht.
    rewrite <- (reaches_recognized _ _ _ _ _ Hinit Hreach') in Hrec.
    pose proof (load_one_flag_valued st' flag name (raw :: rest) d conv
                  Hrem Hflag Hrec Ht) as Hone.
    cbv beta iota in Hone. rewrite Hconv in Hone. split; [exact Hone|].
    rewrite (process_at _ _ _ _ Hinit Hreach').
    apply load_all_raise; [|exact Hone].
    by apply remaining_cons in Hrem as [? _]. }
  split; [|split; [|split]].
  - intros argdesc name Ht. unfold ArgLoader.try_translate.
    by rewrite Ht, Hconv.
  - intros name flag d rest. by apply Hflag.
  - intros c d rest Hrem Hc Hraw Hrec Ht.
    pose proof Hrec as Hrec'.
    rewrite <- (reaches_recognized _ _ _ _ _ Hinit Hreach) in Hrec'.
    destruct raw as [|c' tail]; [done|].
    pose proof (load_one_bundle_valued_rule st rest c c' tail d conv
                  Hrem Hc Hrec' Ht) as Hone.
    pose proof (remaining_cons _ _ _ Hrem) as (_ & _ & Hrest & Hle).
    eapply (Hflag _ (String c EmptyString) _ d rest).
    + apply (reaches_trans _ st); [done|].
      apply (reaches_next _ _ _ Hone). constructor.
    + cbn [ArgLoader.ml_args ArgLoader.set_ml_args].
      rewrite !remaining_insert_at_mark;
        [|done|by apply mark_insert_at_mark_le].
      unfold remaining. simpl. by rewrite Hrest.
    + right. by exists c.
    + done.
    + done.
  - intros d rest Hrem Hcls Hrec Ht.
    rewrite <- (reaches_recognized _ _ _ _ _ Hinit Hreach) in Hrec.
    assert (ArgLoader.load_one st = Raise (RuntimeError
      (msg_not_understood (str_of_int (ArgLoader.cur_positional st)) raw)))
      as Hone.
    { rewrite (load_one_unfold _ _ _ Hrem), Hcls. cbn [mbind result_bind].
      unfold ArgLoader.load_one_positional, ArgLoader.try_recognize. simpl.
      rewrite Hrec. cbn [mbind result_bind].
      unfold ArgLoader.try_translate. by rewrite Ht, Hconv. }
    split; [exact Hone|].
    rewrite (process_at _ _ _ _ Hinit Hreach).
    apply load_all_raise; [|exact Hone].
    by apply remaining_cons in Hrem as [? _].
Qed.

Lemma rejected_value_names_flag_and_text_witness :
  process [] [valued "count" conv_int] ["--count"; "abc"] =
    Some (Raise (RuntimeError
      "Value given for argument --count ('abc') could not be understood!")) /\
  process [] [switch "v"; valued "n" conv_int; positional 1] ["-v"; "x"; "-n"; "abc"; "y"] =
    Some (Raise (RuntimeError
      "Value given for argument -n ('abc') could not be understood!")) /\
  process [] [switch "v"; Desc.Build (Desc.NInt 1) (Some conv_int) None None None None]
      ["-v"; "abc"] =
    Some (Raise (RuntimeError
      "Value given for argument 1 ('abc') could not be understood!")).
Proof.
  split; [|split].
  - destruct (rejected_value_names_flag_and_text [] [valued "count" conv_int]
                ["--count"; "abc"] _ _ conv_int "abc" eq_refl (reaches_here _)
                eq_refl) as (_ & Hflag & _).
    apply (Hflag "count" "--count" (valued "count" conv_int) []);
      [reflexivity|left; by split|reflexivity|reflexivity].
  - edestruct rejected_value_names_flag_and_text
      with (order := @nil key)
           (arg_descs := [switch "v"; valued "n" conv_int; positional 1])
           (args := ["-v"; "x"; "-n"; "abc"; "y"])
           (conv := conv_int) (raw := "abc")
      as (_ & Hflag & _).
    + reflexivity.
    + eapply reaches_next; [reflexivity|].
      eapply reaches_next; [reflexivity|]. apply reaches_here.
    + reflexivity.
    + apply (Hflag "n" "-n" (valued "n" conv_int) ["y"]);
        [reflexivity|right; exists "n"%char; by repeat split
        |reflexivity|reflexivity].
  - edestruct rejected_value_names_flag_and_text
      with (order := @nil key)
           (arg_descs :=
              [switch "v";
               Desc.Build (Desc.NInt 1) (Some conv_int) None None None None])
           (args := ["-v"; "abc"]) (conv := conv_int) (raw := "abc")
      as (_ & _ & _ & Hslot).
    + reflexivity.
    + eapply reaches_next; [reflexivity|]. apply reaches_here.
    + reflexivity.
    + apply (Hslot (Desc.Build (Desc.NInt 1) (Some conv_int) None None None None) []);
        reflexivity.
Defined.

(** ** The keys of the returned mapping *)






(** ** Omitting a required argument *)







(** * The help message *)

(** ** What [get_help_message] builds *)

Section HelpFacts.
Variable type_name : (string -> option value) -> string.
Variable wrap : string -> nat -> list string.

Lemma param_name_Ok desc :
  (exists r, param_name type_name desc = Ok r) <->
  Desc.p desc <> None \/ Desc.t desc <> None.
Proof.
  unfold param_name. destruct (Desc.p desc) as [p|], (Desc.t desc) as [conv|].
  - split; [intros _; by left|by eauto].
  - split; [intros _; by left|by eauto].
  - split; [intros _; by right|by eauto].
  - split; [by intros [? ?]|by intros [?|?]].
Qed.

Lemma sort_descs_spec arg_descs poss req has :
  sort_descs arg_descs poss req has
    = (poss ++ List.filter is_slot arg_descs,
       req ++ List.filter named_optional arg_descs,
       has || existsb named_not_optional arg_descs).
Proof.
  revert poss req has.
  induction arg_descs as [|desc rest IH]; intros poss req has; simpl.
  - by rewrite !app_nil_r, orb_false_r.
  - unfold named_optional, named_not_optional, is_slot.
    destruct (Desc.n desc) as [z|s|ss]; simpl.
    + by rewrite IH, <- app_assoc.
    + destruct (is_optional desc); simpl; rewrite IH.
      * by rewrite <- app_assoc.
      * by rewrite orb_true_r.
    + destruct (is_optional desc); simpl; rewrite IH.
      * by rewrite <- app_assoc.
      * by rewrite orb_true_r.
Qed.

Lemma usage_named_Ok ret req :
  (exists r, usage_named type_name ret req = Ok r) <->
  Forall (fun d => (forall z, Desc.n d <> Desc.NInt z) /\
                   Desc.n d <> Desc.NTuple [] /\
                   (Desc.p d <> None \/ Desc.t d <> None)) req.
Proof.
  revert ret. induction req as [|d rest IH]; intros ret; simpl.
  - split; [intros _; constructor|by eauto].
  - rewrite Forall_cons, <- param_name_Ok.
    destruct (Desc.n d) as [z|s|[|s ss]]; cbn [mbind result_bind].
    + split; [by intros [? ?]|]. intros [(Hz & _) _]. by destruct (Hz z).
    + destruct (param_name type_name d) as [pn|]; cbn [mbind result_bind].
      * rewrite IH. split; [|by intros [_ ?]]. intros ?. split; [|done].
        split; [done|]. split; [done|]. by eauto.
      * split; [by intros [? ?]|]. by intros [(_ & _ & [? ?]) _].
    + split; [by intros [? ?]|]. by intros [(_ & ? & _) _].
    + destruct (param_name type_name d) as [pn|]; cbn [mbind result_bind].
      * rewrite IH. split; [|by intros [_ ?]]. intros ?. split; [|done].
        split; [done|]. split; [done|]. by eauto.
      * split; [by intros [? ?]|]. by intros [(_ & _ & [? ?]) _].
Qed.

Lemma usage_positional_Ok ret poss :
  (exists r, usage_positional type_name ret poss = Ok r) <->
  Forall (fun d => Desc.p d <> None \/ Desc.t d <> None) poss.
Proof.
  revert ret. induction poss as [|d rest IH]; intros ret; simpl.
  - split; [intros _; constructor|by eauto].
  - rewrite Forall_cons, <- param_name_Ok.
    destruct (param_name type_name d) as [pn|]; cbn [mbind result_bind].
    + rewrite IH. split; [|by intros [_ ?]]. intros ?. split; [by eauto|done].
    + split; [by intros [? ?]|]. by intros [[? ?] _].
Qed.

Lemma options_Ok ret arg_descs :
  (exists r, options type_name wrap ret arg_descs = Ok r) <->
  Forall (fun d => ((exists z, Desc.n d = Desc.NInt z) ->
                    Desc.p d <> None \/ Desc.t d <> None) /\
                   Desc.n d <> Desc.NTuple [] /\
                   (forall text, Desc.desc d = Some text -> wrap text 46 <> []))
         arg_descs.
Proof.
  revert ret. induction arg_descs as [|d rest IH]; intros ret; simpl.
  - split; [intros _; constructor|by eauto].
  - rewrite Forall_cons.
    assert (forall ret1 name,
      (exists r,
         (ret2 ← match Desc.desc d with
                 | Some text =>
                     match wrap text 46 with
                     | first :: more =>
                         Ok (more_lines
                               (((ret1 +:+ rjust 20 name) +:+ "    ") +:+ first
                                  +:+ newline) more)
                     | [] => Raise IndexError
                     end
                 | None => Ok (((ret1 +:+ rjust 20 name) +:+ "    ") +:+ newline)
                 end;
          options type_name wrap (ret2 +:+ newline) rest) = Ok r) <->
      (forall text, Desc.desc d = Some text -> wrap text 46 <> []) /\
      Forall (fun d => ((exists z, Desc.n d = Desc.NInt z) ->
                        Desc.p d <> None \/ Desc.t d <> None) /\
                       Desc.n d <> Desc.NTuple [] /\
                       (forall text, Desc.desc d = Some text ->
                          wrap text 46 <> [])) rest) as Hbody.
    { intros ret1 name. destruct (Desc.desc d) as [text|].
      - destruct (wrap text 46) as [|first more] eqn:Hwrap;
          cbn [mbind result_bind].
        + split; [by intros [? ?]|]. intros [Hw _]. by destruct (Hw text).
        + rewrite IH. split; [|by intros [_ ?]]. intros ?. split; [|done].
          intros ? [= <-]. by rewrite Hwrap.
      - cbn [mbind result_bind]. rewrite IH.
        split; [|by intros [_ ?]]. by intros ?. }
    destruct (Desc.n d) as [z|s|ss] eqn:Hn.
    + rewrite <- param_name_Ok.
      destruct (param_name type_name d) as [pn|]; cbn [mbind result_bind].
      * rewrite Hbody. split.
        -- intros [? ?]. split; [|done]. split; [by eauto|done].
        -- by intros [(_ & _ & ?) ?].
      * split; [by intros [? ?]|]. intros [(Hp & _) _].
        by destruct Hp as [? ?]; [eexists|].
    + cbn [mbind result_bind]. rewrite Hbody. split.
      * intros [? ?]. split; [|done]. split; [by intros [? ?]|done].
      * by intros [(_ & _ & ?) ?].
    + destruct (last ss) as [s|] eqn:Hlast; cbn [mbind result_bind].
      * rewrite Hbody. split.
        -- intros [? ?]. split; [|done]. split; [by intros [? ?]|].
           split; [|done]. by intros [= ->].
        -- by intros [(_ & _ & ?) ?].
      * apply last_None in Hlast as ->.
        split; [by intros [? ?]|]. by intros [(_ & ? & _) _].
Qed.

(** X19: [get_help_message] returns a message exactly when every descriptor
    is renderable; otherwise it raises.  A descriptor is not renderable when
    it is positional or has a true ['o'] and has neither ['p'] nor ['t'] (so
    an optional switch needs a ['p']), when its name is the empty tuple, or
    when its description wraps to no line. *)
Theorem help_message_needs_renderable_descriptors (info : help_info)
    (arg_descs : list Desc.argdesc) :
  (exists msg, get_help_message type_name wrap info arg_descs = Ok msg) <->
  Forall (renderable wrap) arg_descs.
Proof.
  unfold get_help_message.
  rewrite sort_descs_spec. cbn [app orb].
  set (P := List.filter is_slot arg_descs).
  set (R := List.filter named_optional arg_descs).
  assert (forall d, d ∈ P <-> d ∈ arg_descs /\ is_slot d = true) as HP.
  { intros d. unfold P. by rewrite !list_elem_of_In, filter_In. }
  assert (forall d, d ∈ R <-> d ∈ arg_descs /\ named_optional d = true) as HR.
  { intros d. unfold R. by rewrite !list_elem_of_In, filter_In. }
  clearbody P R.
  generalize (if existsb named_not_optional arg_descs
              then ("Usage: " +:+ hi_name info) +:+ " [options]"
              else "Usage: " +:+ hi_name info).
  intros ret0.
  rewrite !Forall_forall. unfold renderable. split.
  - intros [msg Hmsg].
    destruct (usage_named type_name ret0 R) as [ret1|] eqn:Hnamed; [|done].
    cbn [mbind result_bind] in Hmsg.
    destruct (usage_positional type_name ret1 P) as [ret2|] eqn:Hpos; [|done].
    cbn [mbind result_bind] in Hmsg.
    assert (exists r, usage_named type_name ret0 R = Ok r) as HN by eauto.
    assert (exists r, usage_positional type_name ret1 P = Ok r) as HPs by eauto.
    assert (exists r, options type_name wrap
      ((ret2 +:+ newline +:+ newline +:+
          match hi_desc info with
          | Some text => text +:+ newline +:+ newline
          | None => ""
          end) +:+ "Options:" +:+ newline) arg_descs = Ok r) as HO by eauto.
    apply usage_named_Ok in HN. apply usage_positional_Ok in HPs.
    apply options_Ok in HO. rewrite Forall_forall in HN, HPs, HO.
    intros d Hd. destruct (HO d Hd) as (Hint & Hne & Hwrap).
    split; [|done]. intros Hneeds.
    destruct (Desc.n d) as [z|s|ss] eqn:Hn.
    + apply Hint. by exists z.
    + destruct Hneeds as [[]|Hopt]. apply (HN d). apply HR. split; [done|].
      unfold named_optional, is_slot. by rewrite Hn, Hopt.
    + destruct Hneeds as [[]|Hopt]. apply (HN d). apply HR. split; [done|].
      unfold named_optional, is_slot. by rewrite Hn, Hopt.
  - intros Hall.
    assert (exists r, usage_named type_name ret0 R = Ok r) as [ret1 ->].
    { apply usage_named_Ok, Forall_forall. intros d Hd.
      apply HR in Hd as [Hd Hno]. unfold named_optional, is_slot in Hno.
      destruct (Hall d Hd) as (Hp & Hne & _).
      destruct (Desc.n d) as [z|s|ss] eqn:Hn; [done| |];
        (split; [done|]); (split; [done|]); apply Hp; by right. }
    cbn [mbind result_bind].
    assert (exists r, usage_positional type_name ret1 P = Ok r) as [ret2 ->].
    { apply usage_positional_Ok, Forall_forall. intros d Hd.
      apply HP in Hd as [Hd Hslot]. unfold is_slot in Hslot.
      destruct (Hall d Hd) as (Hp & _). apply Hp. left.
      by destruct (Desc.n d). }
    cbn [mbind result_bind].
    apply options_Ok, Forall_forall. intros d Hd.
    destruct (Hall d Hd) as (Hp & Hne & Hw). split; [|done].
    intros [z Hz]. apply Hp. left. by rewrite Hz.
Qed.

Lemma append_assoc (a b c : string) : (a +:+ b) +:+ c = a +:+ b +:+ c.
Proof.
  induction a as [|x a IH]; [done|].
  change (String x ((a +:+ b) +:+ c) = String x (a +:+ b +:+ c)).
  by rewrite IH.
Qed.

Lemma append_nil_r (a : string) : a +:+ "" = a.
Proof.
  induction a as [|x a IH]; [done|].
  change (String x (a +:+ "") = String x a). by rewrite IH.
Qed.

Lemma param_name_label desc pn :
  param_name type_name desc = Ok pn -> pn = label type_name desc.
Proof.
  unfold param_name, label.
  destruct (Desc.p desc), (Desc.t desc); by intros [= <-].
Qed.

Lemma usage_named_join ret req r :
  usage_named type_name ret req = Ok r ->
  r = ret +:+ join (named_group type_name <$> req).
Proof.
  revert ret. induction req as [|d rest IH]; intros ret; simpl.
  - intros [= <-]. by rewrite append_nil_r.
  - unfold named_group at 1, first_name.
    destruct (Desc.n d) as [z|s|[|s ss]]; cbn [mbind result_bind]; try done;
      (destruct (param_name type_name d) as [pn|] eqn:Hpn; [|done]);
      cbn [mbind result_bind]; apply param_name_label in Hpn as ->;
      intros ->%IH; by rewrite !append_assoc.
Qed.

Lemma usage_positional_join ret poss r :
  usage_positional type_name ret poss = Ok r ->
  r = ret +:+ join (positional_group type_name <$> poss).
Proof.
  revert ret. induction poss as [|d rest IH]; intros ret; simpl.
  - intros [= <-]. by rewrite append_nil_r.
  - unfold positional_group at 1.
    destruct (param_name type_name d) as [pn|] eqn:Hpn; [|done].
    cbn [mbind result_bind]. apply param_name_label in Hpn as ->.
    intros ->%IH. by rewrite !append_assoc.
Qed.

Lemma alt_names_extends ret alts : exists more, alt_names ret alts = ret +:+ more.
Proof.
  revert ret. induction alts as [|a rest IH]; intros ret; simpl.
  - exists "". by rewrite append_nil_r.
  - destruct (IH (ret +:+ rjust 20 (add_dashes a) +:+ newline)) as [more ->].
    eexists. by rewrite append_assoc.
Qed.

Lemma more_lines_extends ret lines :
  exists more, more_lines ret lines = ret +:+ more.
Proof.
  revert ret. induction lines as [|a rest IH]; intros ret; cbn [more_lines].
  - exists "". by rewrite append_nil_r.
  - destruct (IH (ret +:+ spaces 24 +:+ a +:+ newline)) as [more ->].
    eexists. by rewrite append_assoc.
Qed.

Lemma options_extends ret arg_descs r :
  options type_name wrap ret arg_descs = Ok r -> exists more, r = ret +:+ more.
Proof.
  revert ret. induction arg_descs as [|d rest IH]; intros ret; simpl.
  - intros [= <-]. exists "". by rewrite append_nil_r.
  - match goal with
    | |- (?h ≫= _) = _ -> _ => destruct h as [[ret1 name]|] eqn:Hhead
    end; [|done].
    assert (exists more1, ret1 = ret +:+ more1) as [more1 ->].
    { destruct (Desc.n d) as [z|s|ss].
      - destruct (param_name type_name d); [|done].
        injection Hhead as <- <-. exists "". by rewrite append_nil_r.
      - injection Hhead as <- <-. exists "". by rewrite append_nil_r.
      - cbv zeta in Hhead. destruct (last ss); [|done].
        injection Hhead as <- <-. apply alt_names_extends. }
    cbn [mbind result_bind].
    destruct (Desc.desc d) as [text|].
    + destruct (wrap text 46) as [|first more]; [done|].
      cbn [mbind result_bind].
      destruct (more_lines_extends
        ((((ret +:+ more1) +:+ rjust 20 name) +:+ "    ") +:+ first +:+ newline)
        more) as [more2 ->].
      intros [more3 ->]%IH. eexists. by rewrite !append_assoc.
    + cbn [mbind result_bind]. intros [more3 ->]%IH.
      eexists. by rewrite !append_assoc.
Qed.

(** X20: the message [get_help_message] returns starts with the usage line
    and two newlines.  The usage line is ["Usage: "] and the program name;
    then [" [options]"] exactly when some named descriptor has no true
    ['o']; then a group [" <-x LABEL>"] for each named descriptor that has a
    true ['o'], in the order of the schema, under its first name; then a
    group for each positional descriptor, in the order of the schema,
    [" [LABEL]"] with a true ['o'] and [" <LABEL>"] without. *)
Theorem help_message_starts_with_usage_line (info : help_info)
    (arg_descs : list Desc.argdesc) (msg : string) :
  get_help_message type_name wrap info arg_descs = Ok msg ->
  exists body,
    msg = usage_line type_name info arg_descs +:+ newline +:+ newline +:+ body.
Proof.
  unfold get_help_message, usage_line.
  rewrite sort_descs_spec. cbn [app orb].
  destruct (usage_named type_name _ _) as [ret1|] eqn:Hnamed; [|done].
  cbn [mbind result_bind].
  destruct (usage_positional type_name ret1 _) as [ret2|] eqn:Hpos; [|done].
  cbn [mbind result_bind].
  apply usage_named_join in Hnamed as ->.
  apply usage_positional_join in Hpos as ->.
  intros [more ->]%options_extends. eexists.
  destruct (existsb named_not_optional arg_descs); rewrite !append_assoc;
    simpl; rewrite ?append_assoc; reflexivity.
Qed.

End HelpFacts.

Lemma help_message_starts_with_usage_line_witness :
  exists msg body,
    get_help_message (fun _ => "str") (fun text _ => [text])
      (HelpInfo "prog" None)
      [switch "v";
       Desc.Build (Desc.NStr "o") (Some conv_str) None (Some true)
         (Some "FILE") None;
       Desc.Build (Desc.NInt 1) (Some conv_str) None None None None]
      = Ok msg /\
    msg = "Usage: prog [options] <-o FILE> <str>"
            +:+ newline +:+ newline +:+ body.
Proof.
  destruct (help_message_starts_with_usage_line (fun _ => "str")
              (fun text _ => [text]) (HelpInfo "prog" None)
              [switch "v";
               Desc.Build (Desc.NStr "o") (Some conv_str) None (Some true)
                 (Some "FILE") None;
               Desc.Build (Desc.NInt 1) (Some conv_str) None None None None]
              _ eq_refl) as [body Hbody].
  eexists _, body. split; [reflexivity|]. exact Hbody.
Defined.
